(** * Polygon Siege: the simulation core of [MainScene.ts]

    A shallow embedding of the scene class of the tower-defence game and the
    properties its specification states about it.

    Modelling conventions.
    - A JavaScript [number] is an exact rational ([Qc]); the fields that
      only ever hold integers and serve as counters ([level], [lives],
      [towerCount], [enemiesRemaining], a tower's [level]) are [Z].
      The loop counter of [checkPathProximity] is the exception: how
      often that loop runs is decided by the rounding of its additions,
      so its values are computed in binary64 ([b64_add]).
    - Game objects live in append-only stores ([list]s addressed by
      index); a reference is the index, so that a projectile can point at
      an enemy that has been destroyed, and a tower at a configuration
      object of its own.
    - A Phaser group is the array of the references of its members.
      [destroy()] clears the object's [active] flag and, through the
      group's listener for the destroy event, takes the object out of the
      group at once.  [getChildren()] hands out the group's own member
      array, so a [forEach] over it sees the removals its callback makes:
      [forEach] below follows ECMAScript's index-based iteration.
    - Euclidean distances are compared through their squares.
    - The calls of the three callbacks given to the scene are recorded in
      [emitted], in order.
    - Drawing, tweens, camera effects, health bars and the timer that
      ends a projectile's flight after eight seconds are left out; the
      position of a projectile is advanced by the physics step, between
      two calls of [update].
    - The handlers of the React component that call into the scene
      ([App.tsx]) come last among the definitions, with the component's
      state passed explicitly. *)

From Stdlib Require Import ZArith QArith Qcanon Qround Lia String SpecFloat.
From stdpp Require Import base numbers list strings.

Local Open Scope Z_scope.
Local Open Scope Qc_scope.

(** ** Numbers *)

Definition num (x : Q) : Qc := Q2Qc x.
Arguments num x%_Q.

Definition Qc_ltb (a b : Qc) : bool :=
  match a ?= b with Lt => true | _ => false end.
Definition Qc_leb (a b : Qc) : bool :=
  match a ?= b with Gt => false | _ => true end.

Infix "<?" := Qc_ltb : Qc_scope.
Infix "<=?" := Qc_leb : Qc_scope.

(** [Math.floor], as an integer and as a [number]. *)
Definition floorZ (x : Qc) : Z := Qfloor x.
Definition Math_floor (x : Qc) : Qc := Qc_of_Z (floorZ x).

(** [Phaser.Math.Distance.Between], squared. *)
Definition dist2 (x1 y1 x2 y2 : Qc) : Qc :=
  (x1 - x2) * (x1 - x2) + (y1 - y2) * (y1 - y2).

(** [Distance.Between(..) < d] for a positive constant [d]. *)
Definition dist_lt (x1 y1 x2 y2 d : Qc) : bool :=
  (0 <? d) && (dist2 x1 y1 x2 y2 <? d * d).

(** [Distance.Between(..) <= d]. *)
Definition dist_le (x1 y1 x2 y2 d : Qc) : bool :=
  (0 <=? d) && (dist2 x1 y1 x2 y2 <=? d * d).

(** ** binary64

    The Standard Library's specification of IEEE 754 arithmetic, at the
    precision and exponent range of a JavaScript [number]. *)

Definition b64_zero : spec_float := S754_zero false.
Definition b64_one : spec_float := S754_finite false 4503599627370496 (-52).

(** The literal [0.005]: the binary64 value nearest to 5/1000. *)
Definition b64_0_005 : spec_float :=
  S754_finite false 5764607523034235 (-60).

Definition b64_add : spec_float -> spec_float -> spec_float := SFadd 53 1024.
Definition b64_leb : spec_float -> spec_float -> bool := SFleb.

(** The rational number a finite binary64 value stands for. *)
Definition b64_value (f : spec_float) : Qc :=
  match f with
  | S754_finite s m e =>
      Q2Qc (inject_Z (if s then Z.neg m else Z.pos m) * Qpower 2 e)
  | _ => 0
  end.

(** ** Data *)

Inductive EnemyArchetype := SCOUT | SENTINEL | GOLIATH | BOSS.

Inductive TargetingPriority := FIRST | STRONGEST | WEAKEST | CLOSEST.

Definition isHeavy (a : EnemyArchetype) : bool :=
  match a with GOLIATH | BOSS => true | _ => false end.

Module TowerConfig.
Record t := mk {
  id : string;
  name : string;
  cost : Qc;
  damage : Qc;
  range : Qc;
  fireRate : Qc;
  color : Z;
  description : string
}.
End TowerConfig.

Module GameStats.
Record t := mk {
  gold : Qc;
  lives : Z;
  level : Z;
  score : Qc;
  towerCount : Z;
  waveActive : bool;
  gameSpeed : Qc
}.
End GameStats.

Module Enemy.
Record t := mk {
  archetype : EnemyArchetype;
  hp : Qc;
  maxHp : Qc;
  speed : Qc;
  t_ : Qc;
  x : Qc;
  y : Qc;
  active : bool
}.
End Enemy.

Module Tower.
Record t := mk {
  id : string;
  x : Qc;
  y : Qc;
  level : Z;
  config : nat;
  targetingPriority : TargetingPriority;
  nextFire : Qc
}.
End Tower.

(** [heading] is the displacement the velocity set by [moveToObject]
    points along (its length is the constant speed 850). *)
Module Projectile.
Record t := mk {
  x : Qc;
  y : Qc;
  damage : Qc;
  towerId : string;
  target : option nat;
  heading : Qc * Qc;
  active : bool
}.
End Projectile.

(** The argument of [onTowerSelected]. *)
Record TowerInstance := mkTowerInstance {
  ti_id : string;
  ti_x : Qc;
  ti_y : Qc;
  ti_config : nat;
  ti_targetingPriority : TargetingPriority;
  ti_level : Z
}.

Inductive Event :=
| StatsUpdate (s : GameStats.t)
| GameOver
| TowerSelected (o : option TowerInstance).

Definition Point : Type := Qc * Qc.
Definition Path : Type := list Point.

Record Scene := mkScene {
  path : option Path;
  enemyObjs : list Enemy.t;
  enemies : list nat;
  towers : list Tower.t;
  configObjs : list TowerConfig.t;
  projectileObjs : list Projectile.t;
  projectiles : list nat;
  stats : GameStats.t;
  currentTowerType : option nat;
  selectedTowerObject : option nat;
  nextEnemyTime : Qc;
  enemiesRemaining : Z;
  waveInProgress : bool;
  scaledTime : Qc;
  timeScale : Qc;
  emitted : list Event
}.

(** What one call of [update] draws from outside the scene. *)
Record Tick := mkTick {
  delta : Qc;
  random : Qc;
  between : Z -> Qc
}.

(** What the scene uses of its host: the size of the play field, the
    point of a polyline at parameter [t] ([Phaser.Curves.Path.getPoint],
    [None] for [null]) and [Math.pow]. *)
Class Host := mkHost {
  width : Qc;
  height : Qc;
  getPoint : Path -> Qc -> option Point;
  Math_pow : Qc -> Qc -> Qc
}.

(** ** Field updates *)

Definition set_gold v (g : GameStats.t) :=
  GameStats.mk v (GameStats.lives g) (GameStats.level g) (GameStats.score g)
    (GameStats.towerCount g) (GameStats.waveActive g)
    (GameStats.gameSpeed g).

Definition set_lives v (g : GameStats.t) :=
  GameStats.mk (GameStats.gold g) v (GameStats.level g) (GameStats.score g)
    (GameStats.towerCount g) (GameStats.waveActive g)
    (GameStats.gameSpeed g).

Definition set_level v (g : GameStats.t) :=
  GameStats.mk (GameStats.gold g) (GameStats.lives g) v (GameStats.score g)
    (GameStats.towerCount g) (GameStats.waveActive g)
    (GameStats.gameSpeed g).

Definition set_score v (g : GameStats.t) :=
  GameStats.mk (GameStats.gold g) (GameStats.lives g) (GameStats.level g) v
    (GameStats.towerCount g) (GameStats.waveActive g)
    (GameStats.gameSpeed g).

Definition set_towerCount v (g : GameStats.t) :=
  GameStats.mk (GameStats.gold g) (GameStats.lives g) (GameStats.level g)
    (GameStats.score g) v (GameStats.waveActive g) (GameStats.gameSpeed g).

Definition set_waveActive v (g : GameStats.t) :=
  GameStats.mk (GameStats.gold g) (GameStats.lives g) (GameStats.level g)
    (GameStats.score g) (GameStats.towerCount g) v (GameStats.gameSpeed g).

Definition set_gameSpeed v (g : GameStats.t) :=
  GameStats.mk (GameStats.gold g) (GameStats.lives g) (GameStats.level g)
    (GameStats.score g) (GameStats.towerCount g) (GameStats.waveActive g) v.

Definition set_enemy_hp v (e : Enemy.t) :=
  Enemy.mk (Enemy.archetype e) v (Enemy.maxHp e) (Enemy.speed e)
    (Enemy.t_ e) (Enemy.x e) (Enemy.y e) (Enemy.active e).

Definition set_enemy_t_ v (e : Enemy.t) :=
  Enemy.mk (Enemy.archetype e) (Enemy.hp e) (Enemy.maxHp e) (Enemy.speed e)
    v (Enemy.x e) (Enemy.y e) (Enemy.active e).

Definition set_enemy_active v (e : Enemy.t) :=
  Enemy.mk (Enemy.archetype e) (Enemy.hp e) (Enemy.maxHp e) (Enemy.speed e)
    (Enemy.t_ e) (Enemy.x e) (Enemy.y e) v.

Definition set_enemy_pos (p : Point) (e : Enemy.t) :=
  Enemy.mk (Enemy.archetype e) (Enemy.hp e) (Enemy.maxHp e) (Enemy.speed e)
    (Enemy.t_ e) (fst p) (snd p) (Enemy.active e).

Definition set_tower_level v (w : Tower.t) :=
  Tower.mk (Tower.id w) (Tower.x w) (Tower.y w) v (Tower.config w)
    (Tower.targetingPriority w) (Tower.nextFire w).

Definition set_tower_targetingPriority v (w : Tower.t) :=
  Tower.mk (Tower.id w) (Tower.x w) (Tower.y w) (Tower.level w)
    (Tower.config w) v (Tower.nextFire w).

Definition set_tower_nextFire v (w : Tower.t) :=
  Tower.mk (Tower.id w) (Tower.x w) (Tower.y w) (Tower.level w)
    (Tower.config w) (Tower.targetingPriority w) v.

Definition set_config_damage v (c : TowerConfig.t) :=
  TowerConfig.mk (TowerConfig.id c) (TowerConfig.name c)
    (TowerConfig.cost c) v (TowerConfig.range c) (TowerConfig.fireRate c)
    (TowerConfig.color c) (TowerConfig.description c).

Definition set_config_fireRate v (c : TowerConfig.t) :=
  TowerConfig.mk (TowerConfig.id c) (TowerConfig.name c)
    (TowerConfig.cost c) (TowerConfig.damage c) (TowerConfig.range c) v
    (TowerConfig.color c) (TowerConfig.description c).

Definition set_projectile_heading v (p : Projectile.t) :=
  Projectile.mk (Projectile.x p) (Projectile.y p) (Projectile.damage p)
    (Projectile.towerId p) (Projectile.target p) v (Projectile.active p).

Definition set_projectile_active v (p : Projectile.t) :=
  Projectile.mk (Projectile.x p) (Projectile.y p) (Projectile.damage p)
    (Projectile.towerId p) (Projectile.target p) (Projectile.heading p) v.

Definition set_path v (s : Scene) :=
  mkScene v (enemyObjs s) (enemies s) (towers s) (configObjs s)
    (projectileObjs s) (projectiles s) (stats s) (currentTowerType s)
    (selectedTowerObject s) (nextEnemyTime s) (enemiesRemaining s)
    (waveInProgress s) (scaledTime s) (timeScale s) (emitted s).

Definition set_enemyObjs v (s : Scene) :=
  mkScene (path s) v (enemies s) (towers s) (configObjs s)
    (projectileObjs s) (projectiles s) (stats s) (currentTowerType s)
    (selectedTowerObject s) (nextEnemyTime s) (enemiesRemaining s)
    (waveInProgress s) (scaledTime s) (timeScale s) (emitted s).

Definition set_enemies v (s : Scene) :=
  mkScene (path s) (enemyObjs s) v (towers s) (configObjs s)
    (projectileObjs s) (projectiles s) (stats s) (currentTowerType s)
    (selectedTowerObject s) (nextEnemyTime s) (enemiesRemaining s)
    (waveInProgress s) (scaledTime s) (timeScale s) (emitted s).

Definition set_towers v (s : Scene) :=
  mkScene (path s) (enemyObjs s) (enemies s) v (configObjs s)
    (projectileObjs s) (projectiles s) (stats s) (currentTowerType s)
    (selectedTowerObject s) (nextEnemyTime s) (enemiesRemaining s)
    (waveInProgress s) (scaledTime s) (timeScale s) (emitted s).

Definition set_configObjs v (s : Scene) :=
  mkScene (path s) (enemyObjs s) (enemies s) (towers s) v (projectileObjs s)
    (projectiles s) (stats s) (currentTowerType s) (selectedTowerObject s)
    (nextEnemyTime s) (enemiesRemaining s) (waveInProgress s) (scaledTime s)
    (timeScale s) (emitted s).

Definition set_projectileObjs v (s : Scene) :=
  mkScene (path s) (enemyObjs s) (enemies s) (towers s) (configObjs s) v
    (projectiles s) (stats s) (currentTowerType s) (selectedTowerObject s)
    (nextEnemyTime s) (enemiesRemaining s) (waveInProgress s) (scaledTime s)
    (timeScale s) (emitted s).

Definition set_projectiles v (s : Scene) :=
  mkScene (path s) (enemyObjs s) (enemies s) (towers s) (configObjs s)
    (projectileObjs s) v (stats s) (currentTowerType s)
    (selectedTowerObject s) (nextEnemyTime s) (enemiesRemaining s)
    (waveInProgress s) (scaledTime s) (timeScale s) (emitted s).

Definition set_stats v (s : Scene) :=
  mkScene (path s) (enemyObjs s) (enemies s) (towers s) (configObjs s)
    (projectileObjs s) (projectiles s) v (currentTowerType s)
    (selectedTowerObject s) (nextEnemyTime s) (enemiesRemaining s)
    (waveInProgress s) (scaledTime s) (timeScale s) (emitted s).

Definition set_currentTowerType v (s : Scene) :=
  mkScene (path s) (enemyObjs s) (enemies s) (towers s) (configObjs s)
    (projectileObjs s) (projectiles s) (stats s) v (selectedTowerObject s)
    (nextEnemyTime s) (enemiesRemaining s) (waveInProgress s) (scaledTime s)
    (timeScale s) (emitted s).

Definition set_selectedTowerObject v (s : Scene) :=
  mkScene (path s) (enemyObjs s) (enemies s) (towers s) (configObjs s)
    (projectileObjs s) (projectiles s) (stats s) (currentTowerType s) v
    (nextEnemyTime s) (enemiesRemaining s) (waveInProgress s) (scaledTime s)
    (timeScale s) (emitted s).

Definition set_nextEnemyTime v (s : Scene) :=
  mkScene (path s) (enemyObjs s) (enemies s) (towers s) (configObjs s)
    (projectileObjs s) (projectiles s) (stats s) (currentTowerType s)
    (selectedTowerObject s) v (enemiesRemaining s) (waveInProgress s)
    (scaledTime s) (timeScale s) (emitted s).

Definition set_enemiesRemaining v (s : Scene) :=
  mkScene (path s) (enemyObjs s) (enemies s) (towers s) (configObjs s)
    (projectileObjs s) (projectiles s) (stats s) (currentTowerType s)
    (selectedTowerObject s) (nextEnemyTime s) v (waveInProgress s)
    (scaledTime s) (timeScale s) (emitted s).

Definition set_waveInProgress v (s : Scene) :=
  mkScene (path s) (enemyObjs s) (enemies s) (towers s) (configObjs s)
    (projectileObjs s) (projectiles s) (stats s) (currentTowerType s)
    (selectedTowerObject s) (nextEnemyTime s) (enemiesRemaining s) v
    (scaledTime s) (timeScale s) (emitted s).

Definition set_scaledTime v (s : Scene) :=
  mkScene (path s) (enemyObjs s) (enemies s) (towers s) (configObjs s)
    (projectileObjs s) (projectiles s) (stats s) (currentTowerType s)
    (selectedTowerObject s) (nextEnemyTime s) (enemiesRemaining s)
    (waveInProgress s) v (timeScale s) (emitted s).

Definition set_timeScale v (s : Scene) :=
  mkScene (path s) (enemyObjs s) (enemies s) (towers s) (configObjs s)
    (projectileObjs s) (projectiles s) (stats s) (currentTowerType s)
    (selectedTowerObject s) (nextEnemyTime s) (enemiesRemaining s)
    (waveInProgress s) (scaledTime s) v (emitted s).

Definition set_emitted v (s : Scene) :=
  mkScene (path s) (enemyObjs s) (enemies s) (towers s) (configObjs s)
    (projectileObjs s) (projectiles s) (stats s) (currentTowerType s)
    (selectedTowerObject s) (nextEnemyTime s) (enemiesRemaining s)
    (waveInProgress s) (scaledTime s) (timeScale s) v.

(** ** Objects, groups and iteration *)

(** [arr.forEach(f)] on an array that [f] may shrink: the length is read
    once, index [k] runs up to it, and an index that no longer exists is
    passed over. *)
Fixpoint forEach_from {S : Type} (arr : S -> list nat) (f : nat -> S -> S)
    (n k : nat) (s : S) : S :=
  match n with
  | O => s
  | Datatypes.S n' =>
      forEach_from arr f n' (Datatypes.S k)
        (match arr s !! k with Some r => f r s | None => s end)
  end.

Definition forEach {S : Type} (arr : S -> list nat) (f : nat -> S -> S)
    (s : S) : S :=
  forEach_from arr f (length (arr s)) 0%nat s.

(** Taking a destroyed object out of its group. *)
Fixpoint remove_ref (r : nat) (l : list nat) : list nat :=
  match l with
  | [] => []
  | r' :: l' => if Nat.eqb r r' then l' else r' :: remove_ref r l'
  end.

Definition emit (e : Event) (s : Scene) : Scene :=
  set_emitted (emitted s ++ [e]) s.

(** [this.onStatsUpdate({ ...this.stats })] *)
Definition onStatsUpdate (s : Scene) : Scene := emit (StatsUpdate (stats s)) s.

Definition onGameOver (s : Scene) : Scene := emit GameOver s.

(** [enemy.destroy()] *)
Definition destroyEnemy (r : nat) (s : Scene) : Scene :=
  match enemyObjs s !! r with
  | Some e =>
      set_enemies (remove_ref r (enemies s))
        (set_enemyObjs (<[r := set_enemy_active false e]> (enemyObjs s)) s)
  | None => s
  end.

(** [projectile.destroy()] *)
Definition destroyProjectile (r : nat) (s : Scene) : Scene :=
  match projectileObjs s !! r with
  | Some p =>
      set_projectiles (remove_ref r (projectiles s))
        (set_projectileObjs
           (<[r := set_projectile_active false p]> (projectileObjs s)) s)
  | None => s
  end.

(** The members of the enemy group with their objects. *)
Definition enemyChildren (s : Scene) : list (nat * Enemy.t) :=
  omap (fun r => (fun e => (r, e)) <$> enemyObjs s !! r) (enemies s).

(** [this.enemies.countActive()] *)
Definition countActive (s : Scene) : nat :=
  length (List.filter (fun re => Enemy.active re.2) (enemyChildren s)).

(** [arr.reduce((prev, curr) => keep(prev, curr) ? prev : curr)] *)
Definition reduce {A : Type} (keep : A -> A -> bool) (l : list A) : option A :=
  match l with
  | [] => None
  | a :: l' =>
      Some (fold_left (fun prev curr => if keep prev curr then prev else curr)
              l' a)
  end.

Section Engine.
Context `{Host}.

(** ** Path *)

Definition segmentsFor (level : Z) : Z :=
  Z.min (3 + floorZ (Qc_of_Z level / num 2.5)) 15.

Definition createPath (btw : Z -> Qc) (s : Scene) : Scene :=
  let segments := segmentsFor (GameStats.level (stats s)) in
  let lineTo (i : Z) : Point :=
    ((width / Qc_of_Z segments) * Qc_of_Z i,
     if Z.eqb i segments then height / num 2 else btw i) in
  set_path
    (Some ((- num 50, height / num 2) :: (lineTo <$> seqZ 1 segments))) s.

(** [for (let t = 0; t <= 1; t += 0.005)]: the values [t] has in the
    body of the loop, from the value [t] it is entered with.  The sum is
    rounded at every step, so the values are not the multiples of 0.005,
    and the loop is left when [t <= 1] fails. *)
Fixpoint proximityLoop (fuel : nat) (t : spec_float) : list spec_float :=
  match fuel with
  | O => []
  | S fuel =>
      if b64_leb t b64_one
      then t :: proximityLoop fuel (b64_add t b64_0_005)
      else []
  end.

(** The loop from [t = 0]; it is left after 200 rounds, so that 201
    rounds of fuel are as good as any greater number
    ([proximityLoop_fuel]). *)
Definition proximitySamples : list Qc :=
  b64_value <$> proximityLoop 201 b64_zero.

Definition checkPathProximity (s : Scene) (x y : Qc) : bool :=
  match path s with
  | None => false
  | Some p =>
      existsb
        (fun t =>
           match getPoint p t with
           | Some pt => dist_lt x y pt.1 pt.2 (num 35)
           | None => false
           end)
        proximitySamples
  end.

(** ** Waves *)

Definition isBossLevel (level : Z) : bool := Z.eqb (Z.rem level 10) 0.

Definition startWave (s : Scene) : Scene :=
  if waveInProgress s then s
  else
    let s := set_waveInProgress true s in
    let s := set_stats (set_waveActive true (stats s)) s in
    let level := GameStats.level (stats s) in
    let s :=
      set_enemiesRemaining
        (if isBossLevel level
         then Z.max 1 (floorZ (Qc_of_Z level / num 5))
         else 20 + floorZ (Qc_of_Z level * num 8))%Z s in
    onStatsUpdate s.

Definition completeLevel (btw : Z -> Qc) (s : Scene) : Scene :=
  let s := set_waveInProgress false s in
  let s := set_stats (set_waveActive false (stats s)) s in
  let s :=
    set_stats (set_level (GameStats.level (stats s) + 1)%Z (stats s)) s in
  let s :=
    set_stats
      (set_gold
         (GameStats.gold (stats s)
          + (num 350 + Qc_of_Z (GameStats.level (stats s)) * num 60))
         (stats s)) s in
  let s := onStatsUpdate s in
  if (30 <? GameStats.level (stats s))%Z then onGameOver s
  else createPath btw s.

Definition rollArchetype (level : Z) (roll : Qc) : EnemyArchetype :=
  if isBossLevel level then BOSS
  else if (4 <=? level)%Z && (roll <? num 0.25) then GOLIATH
  else if (2 <=? level)%Z && (roll <? num 0.45) then SCOUT
  else SENTINEL.

Definition hpMultiplier (a : EnemyArchetype) (level : Z) : Qc :=
  match a with
  | SCOUT => num 0.5
  | GOLIATH => num 4.0
  | BOSS => num 15 + Qc_of_Z level / num 2
  | SENTINEL => 1
  end.

Definition speedMultiplier (a : EnemyArchetype) : Qc :=
  match a with
  | SCOUT => num 1.7
  | GOLIATH => num 0.6
  | BOSS => num 0.5
  | SENTINEL => 1
  end.

(** [path.getPoint(0)] is the start of every path that has a segment, as
    all those of [createPath] from level 0 on; where it is [null] the
    source stops at [startPoint.x], and the scene is left as it is. *)
Definition spawnEnemy (roll : Qc) (s : Scene) : Scene :=
  match path s with
  | None => s
  | Some p =>
      let level := GameStats.level (stats s) in
      let archetype := rollArchetype level roll in
      let baseHp :=
        num 15 + Math_pow (Qc_of_Z level) (num 1.6) * num 8
        + Qc_of_Z level * num 15 in
      let baseSpeed := num 3.2 + Qc_of_Z level * num 0.45 in
      match getPoint p 0 with
      | None => s
      | Some startPoint =>
          let hp := baseHp * hpMultiplier archetype level in
          let enemy :=
            Enemy.mk archetype hp hp (baseSpeed * speedMultiplier archetype)
              0 startPoint.1 startPoint.2 true in
          set_enemies (enemies s ++ [length (enemyObjs s)])
            (set_enemyObjs (enemyObjs s ++ [enemy]) s)
      end
  end.

(** ** Targeting and firing *)

Definition inRangeOf (tower : Tower.t) (cfg : TowerConfig.t) (e : Enemy.t)
    : bool :=
  dist_le (Tower.x tower) (Tower.y tower) (Enemy.x e) (Enemy.y e)
    (TowerConfig.range cfg).

Definition inRange (s : Scene) (tower : Tower.t) (cfg : TowerConfig.t)
    : list (nat * Enemy.t) :=
  let activeEnemies :=
    List.filter (fun re => Enemy.active re.2) (enemyChildren s) in
  List.filter (fun re => inRangeOf tower cfg re.2) activeEnemies.

Definition getPriorityTarget (s : Scene) (tower : Tower.t)
    : option (nat * Enemy.t) :=
  match configObjs s !! Tower.config tower with
  | None => None
  | Some cfg =>
      let inRange := inRange s tower cfg in
      if Nat.eqb (length inRange) 0 then None
      else
        match Tower.targetingPriority tower with
        | FIRST =>
            reduce (fun prev curr => Enemy.t_ curr.2 <? Enemy.t_ prev.2)
              inRange
        | STRONGEST =>
            reduce (fun prev curr => Enemy.hp curr.2 <? Enemy.hp prev.2)
              inRange
        | WEAKEST =>
            reduce (fun prev curr => Enemy.hp prev.2 <? Enemy.hp curr.2)
              inRange
        | CLOSEST =>
            reduce
              (fun prev curr =>
                 dist2 (Tower.x tower) (Tower.y tower)
                   (Enemy.x prev.2) (Enemy.y prev.2)
                 <? dist2 (Tower.x tower) (Tower.y tower)
                      (Enemy.x curr.2) (Enemy.y curr.2))
              inRange
        end
  end.

Definition shoot (tower : Tower.t) (target : nat * Enemy.t) (s : Scene)
    : Scene :=
  match configObjs s !! Tower.config tower with
  | None => s
  | Some cfg =>
      let projectile :=
        Projectile.mk (Tower.x tower) (Tower.y tower)
          (TowerConfig.damage cfg) (TowerConfig.id cfg) (Some target.1)
          (Enemy.x target.2 - Tower.x tower, Enemy.y target.2 - Tower.y tower)
          true in
      set_projectiles (projectiles s ++ [length (projectileObjs s)])
        (set_projectileObjs (projectileObjs s ++ [projectile]) s)
  end.

(** ** Combat *)

Definition finalDamage (p : Projectile.t) (e : Enemy.t) : Qc :=
  let finalDamage := Projectile.damage p in
  if isHeavy (Enemy.archetype e) then
    let finalDamage :=
      if String.eqb (Projectile.towerId p) "rapid"
      then finalDamage * num 0.5 else finalDamage in
    if String.eqb (Projectile.towerId p) "sniper"
    then finalDamage * num 1.25 else finalDamage
  else finalDamage.

Definition goldReward (level : Z) (a : EnemyArchetype) : Qc :=
  let goldReward := num 40 + Math_floor (Qc_of_Z level * num 8) in
  match a with
  | GOLIATH => goldReward * num 2.5
  | BOSS => goldReward * num 10
  | _ => goldReward
  end.

Definition scoreReward (level : Z) (a : EnemyArchetype) : Qc :=
  let scoreReward := num 800 * Qc_of_Z level in
  match a with
  | GOLIATH => scoreReward * num 2
  | BOSS => scoreReward * num 10
  | _ => scoreReward
  end.

Definition handleHit (pr er : nat) (s : Scene) : Scene :=
  match projectileObjs s !! pr, enemyObjs s !! er with
  | Some projectile, Some enemy =>
      if negb (Projectile.active projectile) || negb (Enemy.active enemy)
      then s
      else
        let finalDamage := finalDamage projectile enemy in
        let enemy := set_enemy_hp (Enemy.hp enemy - finalDamage) enemy in
        let s := set_enemyObjs (<[er := enemy]> (enemyObjs s)) s in
        let s := destroyProjectile pr s in
        if Enemy.hp enemy <=? 0 then
          let level := GameStats.level (stats s) in
          let s :=
            set_stats
              (set_gold
                 (GameStats.gold (stats s)
                  + goldReward level (Enemy.archetype enemy)) (stats s)) s in
          let s :=
            set_stats
              (set_score
                 (GameStats.score (stats s)
                  + scoreReward level (Enemy.archetype enemy)) (stats s)) s in
          let s := onStatsUpdate s in
          destroyEnemy er s
        else s
  | _, _ => s
  end.

(** ** Towers *)

Definition selectTower (k : nat) (s : Scene) : Scene :=
  match towers s !! k with
  | None => s
  | Some tower =>
      emit
        (TowerSelected
           (Some
              (mkTowerInstance (Tower.id tower) (Tower.x tower) (Tower.y tower)
                 (Tower.config tower) (Tower.targetingPriority tower)
                 (Tower.level tower))))
        (set_selectedTowerObject (Some k) s)
  end.

Definition deselectTower (s : Scene) : Scene :=
  emit (TowerSelected None) (set_selectedTowerObject None s).

Definition setTowerType (type : option nat) (s : Scene) : Scene :=
  let s := set_currentTowerType type s in
  match type with Some _ => deselectTower s | None => s end.

Definition setGameSpeed (multiplier : Qc) (s : Scene) : Scene :=
  set_stats (set_gameSpeed multiplier (stats s)) (set_timeScale multiplier s).

(** [now] is the rendering of [Date.now()]; the configuration of the new
    tower is a new object holding the fields of the selected one. *)
Definition placeTower (x y : Qc) (now : string) (s : Scene) : Scene :=
  match currentTowerType s with
  | None => s
  | Some type =>
      match configObjs s !! type with
      | None => s
      | Some currentTowerType =>
          if GameStats.gold (stats s) <? TowerConfig.cost currentTowerType
          then s
          else if checkPathProximity s x y then s
          else
            let s :=
              set_stats
                (set_gold
                   (GameStats.gold (stats s)
                    - TowerConfig.cost currentTowerType) (stats s)) s in
            let s :=
              set_stats
                (set_towerCount (GameStats.towerCount (stats s) + 1)%Z
                   (stats s)) s in
            let id := ("tower-" ++ now)%string in
            let config := length (configObjs s) in
            let s := set_configObjs (configObjs s ++ [currentTowerType]) s in
            let tower := Tower.mk id x y 1 config FIRST 0 in
            let s := set_towers (towers s ++ [tower]) s in
            onStatsUpdate s
      end
  end.

(** [towersArr.find(t => t.id === towerId)] *)
Definition findTower (towerId : string) (s : Scene) : option (nat * Tower.t) :=
  list_find (fun w => Tower.id w = towerId) (towers s).

Definition upgradeTower (towerId : string) (s : Scene) : Scene :=
  match findTower towerId s with
  | None => s
  | Some (k, tower) =>
      let tower := set_tower_level (Tower.level tower + 1)%Z tower in
      let s := set_towers (<[k := tower]> (towers s)) s in
      let s :=
        match configObjs s !! Tower.config tower with
        | None => s
        | Some config =>
            let config :=
              set_config_damage
                (Math_floor (TowerConfig.damage config * num 1.5)) config in
            let config :=
              set_config_fireRate
                (Math_floor (TowerConfig.fireRate config * num 0.85)) config in
            set_configObjs (<[Tower.config tower := config]> (configObjs s)) s
        end in
      selectTower k s
  end.

Definition updateTowerPriority (towerId : string)
    (priority : TargetingPriority) (s : Scene) : Scene :=
  match findTower towerId s with
  | None => s
  | Some (k, tower) =>
      let s :=
        set_towers (<[k := set_tower_targetingPriority priority tower]>
                      (towers s)) s in
      match selectedTowerObject s ≫= (fun j => towers s !! j) with
      | Some sel =>
          if String.eqb (Tower.id sel) towerId then selectTower k s else s
      | None => s
      end
  end.

(** ** The tick *)

Definition towerRefs (s : Scene) : list nat := seq 0 (length (towers s)).

Definition update (i : Tick) (s : Scene) : Scene :=
  let scaledDelta := delta i * timeScale s in
  let s := set_scaledTime (scaledTime s + scaledDelta) s in
  let s :=
    if waveInProgress s && (0 <? enemiesRemaining s)%Z
       && (nextEnemyTime s <? scaledTime s)
    then
      let s := spawnEnemy (random i) s in
      let s := set_enemiesRemaining (enemiesRemaining s - 1)%Z s in
      set_nextEnemyTime
        (scaledTime s
         + num 1200 / (1 + Qc_of_Z (GameStats.level (stats s)) * num 0.4)) s
    else s in
  let s :=
    if waveInProgress s && (enemiesRemaining s =? 0)%Z
       && Nat.eqb (countActive s) 0
    then completeLevel (between i) s
    else s in
  let s :=
    forEach towerRefs
      (fun k s =>
         match towers s !! k with
         | None => s
         | Some towerObj =>
             if Tower.nextFire towerObj <? scaledTime s then
               match getPriorityTarget s towerObj with
               | Some target =>
                   let s := shoot towerObj target s in
                   match configObjs s !! Tower.config towerObj with
                   | Some cfg =>
                       set_towers
                         (<[k := set_tower_nextFire
                                   (scaledTime s + TowerConfig.fireRate cfg)
                                   towerObj]> (towers s)) s
                   | None => s
                   end
               | None => s
               end
             else s
         end) s in
  let s :=
    forEach enemies
      (fun r s =>
         match enemyObjs s !! r with
         | None => s
         | Some enemy =>
             if negb (Enemy.active enemy) then s
             else
               let enemy :=
                 set_enemy_t_
                   (Enemy.t_ enemy
                    + Enemy.speed enemy * scaledDelta / num 100000) enemy in
               let enemy :=
                 match path s ≫= (fun p => getPoint p (Enemy.t_ enemy)) with
                 | Some pos => set_enemy_pos pos enemy
                 | None => enemy
                 end in
               let s := set_enemyObjs (<[r := enemy]> (enemyObjs s)) s in
               if 1 <=? Enemy.t_ enemy then
                 let s :=
                   set_stats
                     (set_lives (GameStats.lives (stats s) - 1)%Z (stats s))
                     s in
                 let s := onStatsUpdate s in
                 let s := destroyEnemy r s in
                 if (GameStats.lives (stats s) <=? 0)%Z then onGameOver s
                 else s
               else s
         end) s in
  forEach projectiles
    (fun r s =>
       match projectileObjs s !! r with
       | None => s
       | Some p =>
           match Projectile.target p ≫= (fun er => enemyObjs s !! er) with
           | Some target =>
               if Enemy.active target then
                 set_projectileObjs
                   (<[r := set_projectile_heading
                             (Enemy.x target - Projectile.x p,
                              Enemy.y target - Projectile.y p) p]>
                      (projectileObjs s)) s
               else destroyProjectile r s
           | None => destroyProjectile r s
           end
       end) s.

(** ** The steps of a tick, one by one *)

Definition scaledDeltaOf (i : Tick) (s : Scene) : Qc := delta i * timeScale s.

Definition advanceClock (i : Tick) (s : Scene) : Scene :=
  set_scaledTime (scaledTime s + scaledDeltaOf i s) s.

Definition spawnCheck (i : Tick) (s : Scene) : Scene :=
  if waveInProgress s && (0 <? enemiesRemaining s)%Z
     && (nextEnemyTime s <? scaledTime s)
  then
    let s := spawnEnemy (random i) s in
    let s := set_enemiesRemaining (enemiesRemaining s - 1)%Z s in
    set_nextEnemyTime
      (scaledTime s
       + num 1200 / (1 + Qc_of_Z (GameStats.level (stats s)) * num 0.4)) s
  else s.

Definition waveComplete (s : Scene) : bool :=
  waveInProgress s && (enemiesRemaining s =? 0)%Z && Nat.eqb (countActive s) 0.

Definition completionCheck (i : Tick) (s : Scene) : Scene :=
  if waveComplete s then completeLevel (between i) s else s.

Definition fireTower (k : nat) (s : Scene) : Scene :=
  match towers s !! k with
  | None => s
  | Some towerObj =>
      if Tower.nextFire towerObj <? scaledTime s then
        match getPriorityTarget s towerObj with
        | Some target =>
            let s := shoot towerObj target s in
            match configObjs s !! Tower.config towerObj with
            | Some cfg =>
                set_towers
                  (<[k := set_tower_nextFire
                            (scaledTime s + TowerConfig.fireRate cfg)
                            towerObj]> (towers s)) s
            | None => s
            end
        | None => s
        end
      else s
  end.

Definition fireTowers (s : Scene) : Scene := forEach towerRefs fireTower s.

Definition loseLife (s : Scene) : Scene :=
  onStatsUpdate
    (set_stats (set_lives (GameStats.lives (stats s) - 1)%Z (stats s)) s).

Definition moveEnemy (scaledDelta : Qc) (r : nat) (s : Scene) : Scene :=
  match enemyObjs s !! r with
  | None => s
  | Some enemy =>
      if negb (Enemy.active enemy) then s
      else
        let t' :=
          Enemy.t_ enemy + Enemy.speed enemy * scaledDelta / num 100000 in
        let enemy := set_enemy_t_ t' enemy in
        let enemy :=
          match path s ≫= (fun p => getPoint p t') with
          | Some pos => set_enemy_pos pos enemy
          | None => enemy
          end in
        let s := set_enemyObjs (<[r := enemy]> (enemyObjs s)) s in
        if 1 <=? t' then
          let s := destroyEnemy r (loseLife s) in
          if (GameStats.lives (stats s) <=? 0)%Z then onGameOver s else s
        else s
  end.

Definition moveEnemies (scaledDelta : Qc) (s : Scene) : Scene :=
  forEach enemies (moveEnemy scaledDelta) s.

Definition steerProjectile (r : nat) (s : Scene) : Scene :=
  match projectileObjs s !! r with
  | None => s
  | Some p =>
      match Projectile.target p ≫= (fun er => enemyObjs s !! er) with
      | Some target =>
          if Enemy.active target then
            set_projectileObjs
              (<[r := set_projectile_heading
                        (Enemy.x target - Projectile.x p,
                         Enemy.y target - Projectile.y p) p]>
                 (projectileObjs s)) s
          else destroyProjectile r s
      | None => destroyProjectile r s
      end
  end.

Definition steerProjectiles (s : Scene) : Scene :=
  forEach projectiles steerProjectile s.

(** The tick in the order the code runs its steps. *)
Definition update_code_order (i : Tick) (s : Scene) : Scene :=
  steerProjectiles
    (moveEnemies (scaledDeltaOf i s)
       (fireTowers (completionCheck i (spawnCheck i (advanceClock i s))))).

(** The tick in the order the specification lists the steps: clock, spawn
    check, enemy movement, tower firing, projectiles, and last the wave
    completion check. *)
Definition update_spec_order (i : Tick) (s : Scene) : Scene :=
  completionCheck i
    (steerProjectiles
       (fireTowers
          (moveEnemies (scaledDeltaOf i s)
             (spawnCheck i (advanceClock i s))))).

End Engine.

(** ** A host and scenes for the examples *)

(** Points of a polyline by linear interpolation, every segment taking
    an equal share of [t]; [null] outside [0, 1]. *)
Definition lerpPoint (p : Path) (t : Qc) : option Point :=
  if (t <? 0) || (1 <? t) then None
  else
    match length p with
    | O | 1%nat => None
    | Datatypes.S n =>
        let zn := Z.of_nat n in
        let k := Z.min (floorZ (t * Qc_of_Z zn)) (zn - 1) in
        let u := t * Qc_of_Z zn - Qc_of_Z k in
        match p !! Z.to_nat k, p !! Datatypes.S (Z.to_nat k) with
        | Some a, Some b =>
            Some (a.1 + u * (b.1 - a.1), a.2 + u * (b.2 - a.2))
        | _, _ => None
        end
    end.

(** The 800 x 600 field of the application; [Math.pow] is replaced by a
    square, which no example relies on. *)
Definition demoHost : Host :=
  mkHost (num 800) (num 600) lerpPoint (fun x _ => x * x).

(** The table [TOWERS] of the application. *)
Definition TOWERS : list TowerConfig.t :=
  [ TowerConfig.mk "basic" "Striker" (num 100) (num 10) (num 150) (num 800)
      0x3b82f6 "Reliable all-rounder. No special properties.";
    TowerConfig.mk "sniper" "Longshot" (num 250) (num 40) (num 300)
      (num 2500) 0xeab308 "Piercing shots: +25% DMG vs Goliaths & Bosses.";
    TowerConfig.mk "rapid" "Swarm" (num 200) (num 4) (num 120) (num 200)
      0xa855f7 "High fire rate. -50% DMG vs Goliaths & Bosses." ].

Definition initialStats : GameStats.t :=
  GameStats.mk (num 500) 20 1 0 0 false 1.

(** The scene after [init()], with the table loaded and a straight path
    across the middle of the field. *)
Definition scene0 : Scene :=
  mkScene (Some [(- num 50, num 300); (num 800, num 300)]) [] [] [] TOWERS
    [] [] initialStats None None 0 0 false 0 1 [].

Definition noDraws : Z -> Qc := fun _ => num 300.

Definition tick16 : Tick := mkTick (num 16) (num 0.9) noDraws.

Definition mkEnemy (a : EnemyArchetype) (hp t x y : Qc) (active : bool)
    : Enemy.t :=
  Enemy.mk a hp hp (num 100) t x y active.

(** One enemy about to reach the core, the last of its wave. *)
Definition sceneLastEnemy : Scene :=
  set_waveInProgress true
    (set_enemies [0%nat]
       (set_enemyObjs
          [mkEnemy SENTINEL (num 50) (num 0.99) (num 790) (num 300) true]
          scene0)).

(** ** The formulas of the specification *)

(** The resistance table of the combat resolver. *)
Definition resistanceFactor (a : EnemyArchetype) (source : string) : Qc :=
  match a with
  | GOLIATH | BOSS =>
      if String.eqb source "rapid" then num 0.5
      else if String.eqb source "sniper" then num 1.25
      else 1
  | _ => 1
  end.

Definition archetypeGoldMult (a : EnemyArchetype) : Qc :=
  match a with GOLIATH => num 2.5 | BOSS => num 10 | _ => 1 end.

Definition archetypeScoreMult (a : EnemyArchetype) : Qc :=
  match a with GOLIATH => num 2 | BOSS => num 10 | _ => 1 end.

(** A projectile of damage 10 from a tower of type [source], aimed at
    enemy 0. *)
Definition mkProjectile (source : string) (active : bool) : Projectile.t :=
  Projectile.mk (num 400) (num 200) (num 10) source (Some 0%nat)
    (num 0, num 100) active.

(** A goliath of [hp] hit points on the path, with one projectile flying
    at it. *)
Definition sceneHit (source : string) (hp : Qc) : Scene :=
  set_projectiles [0%nat]
    (set_projectileObjs [mkProjectile source true]
       (set_enemies [0%nat]
          (set_enemyObjs
             [mkEnemy GOLIATH hp (num 0.5) (num 400) (num 300) true]
             scene0))).

(** The player has picked the Striker, the first entry of the table. *)
Definition sceneShop : Scene := set_currentTowerType (Some 0%nat) scene0.

(** The same with 50 gold. *)
Definition scenePoor : Scene :=
  set_stats (set_gold (num 50) initialStats) sceneShop.

(** Every tower holds a configuration object of its own. *)
Definition ownConfigs (s : Scene) : Prop :=
  NoDup (Tower.config <$> towers s)
  /\ Forall (fun w => (Tower.config w < length (configObjs s))%nat) (towers s).

(** [n] applications of an upgrade step to a base value. *)
Definition upgradeChain (factor : Qc) (n : nat) (base : Qc) : Qc :=
  Nat.iter n (fun v => Math_floor (v * factor)) base.

(** The specification's [floor], said without the code's [Math.floor]:
    [z] is the floor of [x] when [z <= x < z + 1]. *)
Definition specFloor (x : Qc) (z : Z) : Prop :=
  Qc_of_Z z <= x /\ x < Qc_of_Z z + 1.

(** The specification's chains floor(...floor(floor(base * 1.5) * 1.5)...)
    and floor(...floor(base * 0.85)...) over integer base values, in
    integer arithmetic: floor(d * 1.5) is 3d div 2 and floor(f * 0.85) is
    17f div 20, the division rounding down. *)
Definition specDamageChain (N : nat) (base : Z) : Z :=
  Nat.iter N (fun d => (3 * d / 2)%Z) base.

Definition specFireRateChain (N : nat) (base : Z) : Z :=
  Nat.iter N (fun f => (17 * f / 20)%Z) base.

(** What one upgrade makes of a tower and of its configuration. *)
Definition upgradedTower (w : Tower.t) : Tower.t :=
  set_tower_level (Tower.level w + 1)%Z w.

Definition upgradedConfig (c : TowerConfig.t) : TowerConfig.t :=
  set_config_fireRate (Math_floor (TowerConfig.fireRate c * num 0.85))
    (set_config_damage (Math_floor (TowerConfig.damage c * num 1.5)) c).

(** A Striker placed away from the path. *)
Definition sceneTower : Scene :=
  @placeTower demoHost (num 400) (num 100) "1700000000000" sceneShop.

(** The initial scene moved to level [n]. *)
Definition sceneLevel (n : Z) : Scene :=
  set_stats (set_level n initialStats) scene0.

(** A tower with priority [prio] over the path and three enemies of
    30, 10 and 50 hit points within its range. *)
Definition watchTower (prio : TargetingPriority) : Tower.t :=
  Tower.mk "tower-1700000000000" (num 400) (num 200) 1 3 prio 0.

Definition enemy30 : Enemy.t :=
  mkEnemy SENTINEL (num 30) (num 0.5) (num 400) (num 300) true.
Definition enemy10 : Enemy.t :=
  mkEnemy SENTINEL (num 10) (num 0.4) (num 380) (num 300) true.
Definition enemy50 : Enemy.t :=
  mkEnemy SENTINEL (num 50) (num 0.3) (num 360) (num 300) true.

Definition threeEnemies : list Enemy.t := [enemy30; enemy10; enemy50].

Definition sceneThree (prio : TargetingPriority) : Scene :=
  set_scaledTime (num 16)
    (set_enemies [0; 1; 2]%nat
       (set_enemyObjs threeEnemies
          (set_towers [watchTower prio]
             (set_configObjs (TOWERS ++ take 1 TOWERS) scene0)))).

(** The same tower with every enemy far away. *)
Definition sceneQuiet : Scene :=
  set_enemyObjs
    [mkEnemy SENTINEL (num 30) (num 0) (- num 50) (num 300) true]
    (set_enemies [0%nat] (sceneThree WEAKEST)).

(** Enemy 0 has been destroyed while two projectiles were on their way
    to it; enemy 1 is alive on the path. *)
Definition sceneStale : Scene :=
  set_projectiles [0; 1]%nat
    (set_projectileObjs [mkProjectile "basic" true; mkProjectile "basic" true]
       (set_enemies [1%nat]
          (set_enemyObjs
             [mkEnemy SENTINEL (num 30) (num 0.6) (num 460) (num 300) false;
              mkEnemy SENTINEL (num 40) (num 0.5) (num 400) (num 300) true]
             scene0))).

(** What [ownConfigs] looks at. *)
Definition configView (s : Scene) : list nat * nat :=
  (Tower.config <$> towers s, length (configObjs s)).

(** Every enemy object of [s] is still there in [s'] with the hp it
    had. *)
Definition hpKept (s s' : Scene) : Prop :=
  forall r e,
    enemyObjs s !! r = Some e ->
    exists e', enemyObjs s' !! r = Some e' /\ Enemy.hp e' = Enemy.hp e.

(** ** Relations between the scene before and after a step *)

(** What a tick never touches. *)
Definition tickFrame (s s' : Scene) : Prop :=
  GameStats.score (stats s') = GameStats.score (stats s)
  /\ GameStats.towerCount (stats s') = GameStats.towerCount (stats s)
  /\ GameStats.gameSpeed (stats s') = GameStats.gameSpeed (stats s)
  /\ timeScale s' = timeScale s
  /\ currentTowerType s' = currentTowerType s
  /\ selectedTowerObject s' = selectedTowerObject s
  /\ configObjs s' = configObjs s
  /\ length (towers s') = length (towers s).

Definition livesLe (s s' : Scene) : Prop :=
  (GameStats.lives (stats s') <= GameStats.lives (stats s))%Z.

(** What the three loops of a tick leave alone. *)
Definition waveFrame (s s' : Scene) : Prop :=
  scaledTime s' = scaledTime s
  /\ GameStats.level (stats s') = GameStats.level (stats s)
  /\ GameStats.gold (stats s') = GameStats.gold (stats s)
  /\ GameStats.waveActive (stats s') = GameStats.waveActive (stats s)
  /\ path s' = path s
  /\ enemiesRemaining s' = enemiesRemaining s
  /\ nextEnemyTime s' = nextEnemyTime s
  /\ waveInProgress s' = waveInProgress s
  /\ length (enemyObjs s') = length (enemyObjs s).

(** Two Strikers placed within the same millisecond. *)
Definition sceneTwins : Scene :=
  @placeTower demoHost (num 500) (num 100) "1700000000000" sceneTower.

(** ** Well-formed groups *)

(** A group over a store: no reference twice, and exactly those of the
    active objects. *)
Definition listedOk {A : Type} (active : A -> bool) (objs : list A)
    (group : list nat) : Prop :=
  NoDup group
  /\ forall r, r ∈ group <-> exists a, objs !! r = Some a /\ active a = true.

(** The enemy group lists, once each, exactly the enemy objects that are
    active; the same for projectiles. *)
Definition enemyGroupOk (s : Scene) : Prop :=
  NoDup (enemies s)
  /\ forall r,
     r ∈ enemies s
     <-> exists e, enemyObjs s !! r = Some e /\ Enemy.active e = true.

Definition projectileGroupOk (s : Scene) : Prop :=
  NoDup (projectiles s)
  /\ forall r,
     r ∈ projectiles s
     <-> exists p, projectileObjs s !! r = Some p
                   /\ Projectile.active p = true.

Definition groupsOk (s : Scene) : Prop :=
  enemyGroupOk s /\ projectileGroupOk s.

(** Two enemies in the group, the first one step from the core, the
    second halfway. *)
Definition sceneTwoEnemies : Scene :=
  set_enemies [0; 1]%nat
    (set_enemyObjs
       [mkEnemy SENTINEL (num 50) (num 0.99) (num 790) (num 300) true;
        mkEnemy SENTINEL (num 50) (num 0.5) (num 375) (num 300) true]
       scene0).

(** ** The component [App]

    The handlers of the React component that call into the scene.  The
    state is what [useState] holds, and [sceneRef] is the scene that
    [sceneRef.current] refers to once the component is mounted.  A handler
    reads the state of the render it belongs to; the updates it queues are
    functions of the previous state and are applied in the order in which
    they were queued, those of the callbacks the scene makes during a call
    included. *)

Inductive GameState := START | PLAYING | PAUSED | GAMEOVER | WIN.

Definition SPEED_LEVELS : list Qc := [num 1; num 2; num 4; num 8; num 16].

Module App.
Record t := mk {
  gameState : GameState;
  stats : GameStats.t;
  selectedPlacementTower : option nat;
  selectedTowerInstance : option TowerInstance;
  sceneRef : Scene
}.
End App.

Definition set_app_gameState v (a : App.t) :=
  App.mk v (App.stats a) (App.selectedPlacementTower a)
    (App.selectedTowerInstance a) (App.sceneRef a).

Definition set_app_stats v (a : App.t) :=
  App.mk (App.gameState a) v (App.selectedPlacementTower a)
    (App.selectedTowerInstance a) (App.sceneRef a).

Definition set_app_selectedPlacementTower v (a : App.t) :=
  App.mk (App.gameState a) (App.stats a) v (App.selectedTowerInstance a)
    (App.sceneRef a).

Definition set_app_selectedTowerInstance v (a : App.t) :=
  App.mk (App.gameState a) (App.stats a) (App.selectedPlacementTower a) v
    (App.sceneRef a).

Definition set_app_sceneRef v (a : App.t) :=
  App.mk (App.gameState a) (App.stats a) (App.selectedPlacementTower a)
    (App.selectedTowerInstance a) v.

(** [setStats(prev => ({ ...prev, ...newStats }))]: the scene reports all
    the fields. *)
Definition handleStatsUpdate (newStats : GameStats.t) (a : App.t) : App.t :=
  set_app_stats newStats a.

Definition handleGameOver (a : App.t) : App.t := set_app_gameState GAMEOVER a.

Definition handleTowerSelected (tower : option TowerInstance) (a : App.t)
    : App.t :=
  let a := set_app_selectedTowerInstance tower a in
  match tower with
  | Some _ => set_app_selectedPlacementTower None a
  | None => a
  end.

(** The callbacks handed to the scene's constructor. *)
Definition deliver (a : App.t) (e : Event) : App.t :=
  match e with
  | StatsUpdate newStats => handleStatsUpdate newStats a
  | GameOver => handleGameOver a
  | TowerSelected tower => handleTowerSelected tower a
  end.

(** [sceneRef.current.f(..)]: the scene runs [f], and the callbacks it
    makes on the way reach the component in the order they were made. *)
Definition callScene (f : Scene -> Scene) (a : App.t) : App.t :=
  let s := f (App.sceneRef a) in
  foldl deliver (set_app_sceneRef s a)
    (drop (length (emitted (App.sceneRef a))) (emitted s)).

(** [SPEED_LEVELS.indexOf(x)] *)
Fixpoint indexOf_from (x : Qc) (l : list Qc) (i : Z) : Z :=
  match l with
  | [] => (-1)%Z
  | y :: l => if decide (y = x) then i else indexOf_from x l (i + 1)%Z
  end.

Definition indexOf (x : Qc) (l : list Qc) : Z := indexOf_from x l 0.

(** The first three lines of [cycleGameSpeed]; [None] is JavaScript's
    [undefined] for an index outside the array. *)
Definition nextSpeed (gameSpeed : Qc) : option Qc :=
  let currentIndex := indexOf gameSpeed SPEED_LEVELS in
  let nextIndex :=
    Z.rem (currentIndex + 1) (Z.of_nat (length SPEED_LEVELS)) in
  if (nextIndex <? 0)%Z then None else SPEED_LEVELS !! Z.to_nat nextIndex.

Definition cycleGameSpeed (a : App.t) : App.t :=
  match nextSpeed (GameStats.gameSpeed (App.stats a)) with
  | None => a
  | Some nextSpeed =>
      let a := callScene (setGameSpeed nextSpeed) a in
      set_app_stats (set_gameSpeed nextSpeed (App.stats a)) a
  end.

(** [upgradeCost]; the configuration is the tower's own object, which the
    instance refers to. *)
Definition upgradeCost (a : App.t) : Qc :=
  match App.selectedTowerInstance a with
  | None => 0
  | Some inst =>
      match configObjs (App.sceneRef a) !! ti_config inst with
      | None => 0
      | Some config =>
          Math_floor
            (TowerConfig.cost config * num 0.8 * Qc_of_Z (ti_level inst))
      end
  end.

Definition handleUpgrade (a : App.t) : App.t :=
  match App.selectedTowerInstance a with
  | None => a
  | Some inst =>
      if GameStats.gold (App.stats a) <? upgradeCost a then a
      else
        let cost := upgradeCost a in
        let a :=
          set_app_stats
            (set_gold (GameStats.gold (App.stats a) - cost) (App.stats a))
            a in
        callScene (upgradeTower (ti_id inst)) a
  end.

Definition startNextWave (a : App.t) : App.t := callScene startWave a.

(** The component over the scene with one Striker, after a click on that
    tower. *)
Definition appTower : App.t :=
  callScene (selectTower 0)
    (App.mk PLAYING (stats sceneTower) None None sceneTower).

(** * Properties *)

(** ** Arithmetic of [number]s *)

Lemma Qc_ltb_lt (a b : Qc) : (a <? b) = true <-> a < b.
Proof.
  unfold Qc_ltb. rewrite Qclt_alt.
  destruct (a ?= b); split; congruence.
Qed.

Lemma Qc_leb_le (a b : Qc) : (a <=? b) = true <-> a <= b.
Proof.
  unfold Qc_leb. rewrite Qcle_alt.
  destruct (a ?= b); split; congruence.
Qed.

Lemma Qc_ltb_ge (a b : Qc) : (a <? b) = false <-> b <= a.
Proof.
  rewrite <- Bool.not_true_iff_false, Qc_ltb_lt. split.
  - apply Qcnot_lt_le.
  - apply Qcle_not_lt.
Qed.

Lemma floorZ_of_Z (z : Z) : floorZ (Qc_of_Z z) = z.
Proof. unfold floorZ. simpl. apply Qfloor_Z. Qed.

Lemma Math_floor_of_Z (z : Z) : Math_floor (Qc_of_Z z) = Qc_of_Z z.
Proof. unfold Math_floor. now rewrite floorZ_of_Z. Qed.

(** ** Iteration *)

Lemma forEach_from_ext {S : Type} (arr : S -> list nat) (f g : nat -> S -> S) :
  (forall r s, f r s = g r s) ->
  forall n k s, forEach_from arr f n k s = forEach_from arr g n k s.
Proof.
  intros E n. induction n as [|n IH]; intros k s; simpl.
  - reflexivity.
  - destruct (arr s !! k) as [r|]; [rewrite E|]; apply IH.
Qed.

Lemma forEach_ext {S : Type} (arr : S -> list nat) (f g : nat -> S -> S) :
  (forall r s, f r s = g r s) ->
  forall s, forEach arr f s = forEach arr g s.
Proof. intros E s. unfold forEach. now apply forEach_from_ext. Qed.

Lemma forEach_cong {S : Type} (arr : S -> list nat) (f g : nat -> S -> S)
    (a b : S) :
  (forall r s, f r s = g r s) -> a = b -> forEach arr f a = forEach arr g b.
Proof. intros E ->. now apply forEach_ext. Qed.

(** A property kept by every call of the callback is kept by the loop. *)
Lemma forEach_from_inv {S : Type} (P : S -> Prop) (arr : S -> list nat)
    (f : nat -> S -> S) :
  (forall r s, P s -> P (f r s)) ->
  forall n k s, P s -> P (forEach_from arr f n k s).
Proof.
  intros Hf n. induction n as [|n IH]; intros k s Hs; simpl.
  - exact Hs.
  - apply IH. destruct (arr s !! k); auto.
Qed.

Lemma forEach_inv {S : Type} (P : S -> Prop) (arr : S -> list nat)
    (f : nat -> S -> S) :
  (forall r s, P s -> P (f r s)) ->
  forall s, P s -> P (forEach arr f s).
Proof. intros Hf s Hs. unfold forEach. now apply forEach_from_inv. Qed.

(** ** C1: the order of the steps of a tick *)

Section TickOrder.
Context `{Host}.

(** The callbacks written inside [update] are the named steps. *)
Lemma update_code_order_eq (i : Tick) (s : Scene) :
  update i s = update_code_order i s.
Proof.
  unfold update, update_code_order, steerProjectiles, moveEnemies,
    fireTowers.
  cbv zeta.
  apply forEach_cong; [reflexivity|].
  apply forEach_cong; [|reflexivity].
  intros r s'. unfold moveEnemy, loseLife.
  destruct (enemyObjs s' !! r) as [e|]; [|reflexivity].
  destruct (negb (Enemy.active e)); [reflexivity|].
  cbv zeta.
  destruct (path s' ≫= _) as [pos|]; reflexivity.
Qed.

(** C1 (as amended).  For every scene and tick input, [update] is the
    composition of its steps in this order: clock advance, spawn check,
    wave-completion check (which may complete the level), tower firing,
    enemy movement with the loss of a life at the core, and the steering
    or removal of projectiles. *)
Theorem update_runs_steps_in_code_order (i : Tick) (s : Scene) :
  update i s
  = steerProjectiles
      (moveEnemies (delta i * timeScale s)
         (fireTowers (completionCheck i (spawnCheck i (advanceClock i s))))).
Proof.
  rewrite update_code_order_eq.
  unfold update_code_order, scaledDeltaOf.
  reflexivity.
Qed.

End TickOrder.

(** C1 (as stated) fails: with the last enemy of a wave one step from the
    core, the code checks for wave completion before the enemy moves and
    leaves the level at 1, while the order of the specification would
    complete the level within the same tick. *)
Lemma update_differs_from_spec_order :
  @update demoHost tick16 sceneLastEnemy
  <> @update_spec_order demoHost tick16 sceneLastEnemy.
Proof.
  intros E.
  apply (f_equal (fun s => GameStats.level (stats s))) in E.
  vm_compute in E. discriminate E.
Qed.

(** ** C2 and C3: hits *)

Lemma num_Z (z : Z) : num (z # 1) = Qc_of_Z z.
Proof. apply Qc_is_canon. simpl. apply Qred_correct. Qed.

(** Products of an integer with a ratio that come out integral. *)
Lemma Qc_of_Z_mul_num (a b d : Z) (c : positive) :
  (a * b = d * Z.pos c)%Z -> Qc_of_Z a * num (b # c) = Qc_of_Z d.
Proof.
  intros E. apply Qc_is_canon. unfold num. simpl.
  rewrite !Qred_correct. unfold Qeq, Qmult, inject_Z. simpl. lia.
Qed.

Lemma Qc_lt_add_pos (a b : Qc) : 0 < b -> a < a + b.
Proof.
  intros Hb. rewrite <- (Qcplus_0_r a) at 1.
  now apply Qcplus_lt_mono_l.
Qed.

Lemma stats_destroyProjectile (r : nat) (s : Scene) :
  stats (destroyProjectile r s) = stats s.
Proof. unfold destroyProjectile. now destruct (projectileObjs s !! r). Qed.

Lemma enemyObjs_destroyProjectile (r : nat) (s : Scene) :
  enemyObjs (destroyProjectile r s) = enemyObjs s.
Proof. unfold destroyProjectile. now destruct (projectileObjs s !! r). Qed.

Lemma stats_destroyEnemy (r : nat) (s : Scene) :
  stats (destroyEnemy r s) = stats s.
Proof. unfold destroyEnemy. now destruct (enemyObjs s !! r). Qed.

Lemma destroyEnemy_lookup (r : nat) (s : Scene) (e : Enemy.t) :
  enemyObjs s !! r = Some e ->
  enemyObjs (destroyEnemy r s) !! r = Some (set_enemy_active false e).
Proof.
  intros E. unfold destroyEnemy. rewrite E. simpl.
  apply list_lookup_insert_eq. now apply lookup_lt_Some in E.
Qed.

(** What the code computes is the damage times the factor of the table. *)
Lemma finalDamage_factor (p : Projectile.t) (e : Enemy.t) :
  finalDamage p e
  = Projectile.damage p
    * resistanceFactor (Enemy.archetype e) (Projectile.towerId p).
Proof.
  unfold finalDamage, resistanceFactor, isHeavy.
  destruct (Enemy.archetype e); try (now rewrite Qcmult_1_r);
    destruct (String.eqb_spec (Projectile.towerId p) "rapid") as [->|_];
    simpl; try reflexivity;
    destruct (String.eqb (Projectile.towerId p) "sniper");
    try reflexivity; now rewrite Qcmult_1_r.
Qed.

(** The enemy object after a hit that is resolved. *)
Lemma handleHit_enemy (pr er : nat) (s : Scene) (p : Projectile.t)
    (e : Enemy.t) :
  projectileObjs s !! pr = Some p ->
  enemyObjs s !! er = Some e ->
  Projectile.active p = true ->
  Enemy.active e = true ->
  enemyObjs (handleHit pr er s) !! er
  = Some (set_enemy_active
            (negb (Enemy.hp e - finalDamage p e <=? 0))
            (set_enemy_hp (Enemy.hp e - finalDamage p e) e)).
Proof.
  intros Hp He Ap Ae. unfold handleHit. rewrite Hp, He, Ap, Ae. simpl.
  pose proof (lookup_lt_Some _ _ _ He) as Hlt.
  destruct (Enemy.hp e - finalDamage p e <=? 0) eqn:K; simpl.
  - erewrite destroyEnemy_lookup; [reflexivity|].
    unfold onStatsUpdate, emit. simpl.
    rewrite enemyObjs_destroyProjectile. simpl.
    now apply list_lookup_insert_eq.
  - rewrite enemyObjs_destroyProjectile. simpl.
    rewrite list_lookup_insert_eq by exact Hlt.
    f_equal. destruct e; unfold set_enemy_hp, set_enemy_active; simpl in *.
    now subst.
Qed.

Lemma num_10_half : num 10 * num 0.5 = num 5.
Proof. apply Qc_is_canon. reflexivity. Qed.

Lemma num_10_boost : num 10 * num 1.25 = num 12.5.
Proof. apply Qc_is_canon. reflexivity. Qed.

(** C2.  A resolved hit takes from the enemy's hp the projectile's damage
    times the resistance factor of the table; damage 10 against a GOLIATH
    is 5 from a "rapid" tower, 12.5 from a "sniper" tower and 10 from a
    "basic" tower. *)
Theorem handleHit_subtracts_damage_times_factor (pr er : nat) (s : Scene)
    (p : Projectile.t) (e : Enemy.t) :
  projectileObjs s !! pr = Some p ->
  enemyObjs s !! er = Some e ->
  Projectile.active p = true ->
  Enemy.active e = true ->
  exists e',
    enemyObjs (handleHit pr er s) !! er = Some e'
    /\ Enemy.hp e'
       = Enemy.hp e
         - Projectile.damage p
           * resistanceFactor (Enemy.archetype e) (Projectile.towerId p)
    /\ (Projectile.damage p = num 10 ->
        Enemy.archetype e = GOLIATH ->
        (Projectile.towerId p = "rapid"%string ->
         Enemy.hp e' = Enemy.hp e - num 5)
        /\ (Projectile.towerId p = "sniper"%string ->
            Enemy.hp e' = Enemy.hp e - num 12.5)
        /\ (Projectile.towerId p = "basic"%string ->
            Enemy.hp e' = Enemy.hp e - num 10)).
Proof.
  intros Hp He Ap Ae.
  eexists. split; [now apply (handleHit_enemy pr er s p e)|].
  simpl. rewrite finalDamage_factor. split; [reflexivity|].
  intros Hd Ha. rewrite Hd, Ha.
  repeat split; intros ->; simpl.
  - now rewrite num_10_half.
  - now rewrite num_10_boost.
  - now rewrite Qcmult_1_r.
Qed.

Lemma handleHit_subtracts_damage_times_factor_witness :
  exists e',
    enemyObjs (handleHit 0 0 (sceneHit "sniper" (num 100))) !! 0%nat = Some e'
    /\ Enemy.hp e' = num 100 - num 12.5.
Proof.
  destruct (handleHit_subtracts_damage_times_factor 0 0
              (sceneHit "sniper" (num 100)) (mkProjectile "sniper" true)
              (mkEnemy GOLIATH (num 100) (num 0.5) (num 400) (num 300) true)
              eq_refl eq_refl eq_refl eq_refl)
    as (e' & Hl & _ & Hex).
  exists e'. split; [exact Hl|].
  exact (proj1 (proj2 (Hex eq_refl eq_refl)) eq_refl).
Defined.

(** The rewards of a kill are integers. *)
Lemma goldReward_Z (L : Z) (a : EnemyArchetype) :
  goldReward L a
  = Qc_of_Z (match a with
             | GOLIATH => 100 + 20 * L
             | BOSS => 400 + 80 * L
             | _ => 40 + 8 * L
             end).
Proof.
  unfold goldReward.
  change (num 8) with (num (8 # 1)). change (num 40) with (num (40 # 1)).
  rewrite (Qc_of_Z_mul_num L 8 (L * 8) 1) by lia.
  rewrite Math_floor_of_Z, num_Z, <- Z2Qc_inj_add.
  destruct a.
  - f_equal; lia.
  - f_equal; lia.
  - change (num 2.5) with (num (25 # 10)).
    apply Qc_of_Z_mul_num. lia.
  - change (num 10) with (num (10 # 1)).
    apply Qc_of_Z_mul_num. lia.
Qed.

Lemma spec_gold_Z (L : Z) (a : EnemyArchetype) :
  Math_floor ((num 40 + Qc_of_Z L * num 8) * archetypeGoldMult a)
  = Qc_of_Z (match a with
             | GOLIATH => 100 + 20 * L
             | BOSS => 400 + 80 * L
             | _ => 40 + 8 * L
             end).
Proof.
  change (num 8) with (num (8 # 1)). change (num 40) with (num (40 # 1)).
  rewrite (Qc_of_Z_mul_num L 8 (L * 8) 1) by lia.
  rewrite num_Z, <- Z2Qc_inj_add.
  destruct a; simpl.
  - rewrite Qcmult_1_r, Math_floor_of_Z. f_equal; lia.
  - rewrite Qcmult_1_r, Math_floor_of_Z. f_equal; lia.
  - change (num 2.5) with (num (25 # 10)).
    rewrite (Qc_of_Z_mul_num _ 25 (100 + 20 * L) 10) by lia.
    apply Math_floor_of_Z.
  - change (num 10) with (num (10 # 1)).
    rewrite (Qc_of_Z_mul_num _ 10 (400 + 80 * L) 1) by lia.
    apply Math_floor_of_Z.
Qed.

Lemma scoreReward_Z (L : Z) (a : EnemyArchetype) :
  scoreReward L a
  = Qc_of_Z (match a with
             | GOLIATH => 1600 * L
             | BOSS => 8000 * L
             | _ => 800 * L
             end).
Proof.
  unfold scoreReward.
  change (num 800) with (num (800 # 1)).
  rewrite num_Z, <- Z2Qc_inj_mul.
  destruct a; try reflexivity.
  - change (num 2) with (num (2 # 1)). apply Qc_of_Z_mul_num. lia.
  - change (num 10) with (num (10 # 1)). apply Qc_of_Z_mul_num. lia.
Qed.

Lemma scoreReward_spec (L : Z) (a : EnemyArchetype) :
  scoreReward L a = num 800 * Qc_of_Z L * archetypeScoreMult a.
Proof.
  unfold scoreReward, archetypeScoreMult.
  destruct a; try reflexivity; now rewrite Qcmult_1_r.
Qed.

(** The statistics after a hit that kills. *)
Lemma handleHit_kill_stats (pr er : nat) (s : Scene) (p : Projectile.t)
    (e : Enemy.t) :
  projectileObjs s !! pr = Some p ->
  enemyObjs s !! er = Some e ->
  Projectile.active p = true ->
  Enemy.active e = true ->
  Enemy.hp e - finalDamage p e <= 0 ->
  stats (handleHit pr er s)
  = set_score
      (GameStats.score (stats s)
       + scoreReward (GameStats.level (stats s)) (Enemy.archetype e))
      (set_gold
         (GameStats.gold (stats s)
          + goldReward (GameStats.level (stats s)) (Enemy.archetype e))
         (stats s)).
Proof.
  intros Hp He Ap Ae K. apply Qc_leb_le in K.
  unfold handleHit. rewrite Hp, He, Ap, Ae. simpl. rewrite K.
  rewrite stats_destroyEnemy. unfold onStatsUpdate, emit. simpl.
  rewrite stats_destroyProjectile. reflexivity.
Qed.

(** C3.  A hit that brings the enemy's hp to 0 or below at level [L]
    (a level is at least 1) adds floor((40 + L*8) * goldMult) to gold and
    (800*L) * scoreMult to score, with the multipliers (2.5, 2) for
    GOLIATH, (10, 10) for BOSS and (1, 1) otherwise; both grow strictly. *)
Theorem handleHit_kill_rewards (pr er : nat) (s : Scene) (p : Projectile.t)
    (e : Enemy.t) :
  projectileObjs s !! pr = Some p ->
  enemyObjs s !! er = Some e ->
  Projectile.active p = true ->
  Enemy.active e = true ->
  Enemy.hp e - finalDamage p e <= 0 ->
  (1 <= GameStats.level (stats s))%Z ->
  let L := GameStats.level (stats s) in
  let a := Enemy.archetype e in
  let s' := handleHit pr er s in
  GameStats.gold (stats s')
  = GameStats.gold (stats s)
    + Math_floor ((num 40 + Qc_of_Z L * num 8) * archetypeGoldMult a)
  /\ GameStats.score (stats s')
     = GameStats.score (stats s) + num 800 * Qc_of_Z L * archetypeScoreMult a
  /\ GameStats.gold (stats s) < GameStats.gold (stats s')
  /\ GameStats.score (stats s) < GameStats.score (stats s').
Proof.
  intros Hp He Ap Ae K HL. cbv zeta.
  rewrite (handleHit_kill_stats pr er s p e Hp He Ap Ae K). simpl.
  generalize dependent (GameStats.level (stats s)). intros L HL.
  generalize (Enemy.archetype e). intros a.
  rewrite spec_gold_Z, <- scoreReward_spec, <- (goldReward_Z L a).
  repeat split.
  - apply Qc_lt_add_pos. rewrite goldReward_Z, <- Z2Qc_inj_0.
    rewrite <- Z2Qc_inj_lt. destruct a; lia.
  - apply Qc_lt_add_pos. rewrite scoreReward_Z, <- Z2Qc_inj_0.
    rewrite <- Z2Qc_inj_lt. destruct a; lia.
Qed.

Lemma handleHit_kill_rewards_witness :
  GameStats.gold (stats (handleHit 0 0 (sceneHit "rapid" (num 4))))
  = num 500 + Math_floor ((num 40 + Qc_of_Z 1 * num 8) * num 2.5)
  /\ GameStats.score (stats (handleHit 0 0 (sceneHit "rapid" (num 4))))
     = 0 + num 800 * Qc_of_Z 1 * num 2.
Proof.
  assert (K : num 4 - num 5 <= 0) by (apply Qc_leb_le; reflexivity).
  destruct (handleHit_kill_rewards 0 0 (sceneHit "rapid" (num 4))
              (mkProjectile "rapid" true)
              (mkEnemy GOLIATH (num 4) (num 0.5) (num 400) (num 300) true)
              eq_refl eq_refl eq_refl eq_refl)
    as (Hg & Hs & _).
  - simpl. unfold finalDamage. simpl. rewrite num_10_half. exact K.
  - simpl. lia.
  - split; [exact Hg | exact Hs].
Defined.

(** ** C4: placing a tower *)

(** The proximity loop is left because its test fails, not for want of
    fuel. *)
Lemma proximityLoop_stops (n : nat) :
  forall (t : spec_float) (m : nat),
  (length (proximityLoop n t) < n)%nat -> (n <= m)%nat ->
  proximityLoop m t = proximityLoop n t.
Proof.
  induction n as [|n IH]; intros t m Hlen Hm; [simpl in Hlen; lia|].
  destruct m as [|m]; [lia|]. simpl in *.
  destruct (b64_leb t b64_one); [|reflexivity].
  f_equal. apply IH; simpl in Hlen; lia.
Qed.

Lemma proximityLoop_fuel (m : nat) :
  (201 <= m)%nat ->
  b64_value <$> proximityLoop m b64_zero = proximitySamples.
Proof.
  intros Hm. unfold proximitySamples. f_equal.
  apply proximityLoop_stops; [|exact Hm].
  vm_compute. lia.
Qed.

Lemma b64_constants : b64_value b64_zero = 0 /\ b64_value b64_one = 1.
Proof. split; apply Qc_is_canon; vm_compute; reflexivity. Qed.

(** The literal is the binary64 value nearest to 0.005: it is within half
    a unit of its last place, 2^-61. *)
Lemma b64_0_005_nearest :
  - num (1 # 2305843009213693952) <= b64_value b64_0_005 - num 0.005
  /\ b64_value b64_0_005 - num 0.005 <= num (1 # 2305843009213693952).
Proof. split; vm_compute; discriminate. Qed.

(** The loop runs 200 times; its values start at 0, stay below 1, and are
    the multiples [k * 0.005], [k = 0 .. 199], up to the rounding of the
    additions (less than 10^-15). *)
Lemma proximitySamples_spec :
  length proximitySamples = 200%nat
  /\ forall (k : nat) (t : Qc),
     proximitySamples !! k = Some t ->
     0 <= t /\ t < 1
     /\ - num (1 # 1000000000000000) <= t - Qc_of_Z (Z.of_nat k) * num 0.005
     /\ t - Qc_of_Z (Z.of_nat k) * num 0.005 <= num (1 # 1000000000000000).
Proof.
  split; [vm_compute; reflexivity|].
  assert (Hall :
    forallb
      (fun kt : nat * Qc =>
         (0 <=? kt.2) && (kt.2 <? 1)
         && (- num (1 # 1000000000000000)
             <=? kt.2 - Qc_of_Z (Z.of_nat kt.1) * num 0.005)
         && (kt.2 - Qc_of_Z (Z.of_nat kt.1) * num 0.005
             <=? num (1 # 1000000000000000)))
      (imap (fun k t => (k, t)) proximitySamples) = true)
    by (vm_compute; reflexivity).
  intros k t Hk.
  rewrite forallb_forall in Hall.
  specialize (Hall (k, t)).
  assert (Hin : In (k, t) (imap (fun k t => (k, t)) proximitySamples)).
  { apply list_elem_of_In, elem_of_lookup_imap. exists k, t. now split. }
  apply Hall in Hin. cbn [fst snd] in Hin.
  apply andb_prop in Hin as [Hin H4].
  apply andb_prop in Hin as [Hin H3].
  apply andb_prop in Hin as [H1 H2].
  apply Qc_leb_le in H1, H3, H4. apply Qc_ltb_lt in H2.
  repeat split; assumption.
Qed.

Section Placement.
Context `{Host}.

Lemma checkPathProximity_spec (s : Scene) (x y : Qc) :
  checkPathProximity s x y = true
  <-> exists p t pt,
        path s = Some p /\ t ∈ proximitySamples
        /\ getPoint p t = Some pt
        /\ dist2 x y pt.1 pt.2 < num 35 * num 35.
Proof.
  unfold checkPathProximity. split.
  - destruct (path s) as [p|]; [|discriminate].
    intros E. apply existsb_exists in E as (t & Hin & Ht).
    destruct (getPoint p t) as [pt|] eqn:Hpt; [|discriminate].
    exists p, t, pt. split; [reflexivity|].
    split; [now apply list_elem_of_In|]. split; [exact Hpt|].
    unfold dist_lt in Ht. apply andb_prop in Ht as [_ Ht].
    now apply Qc_ltb_lt in Ht.
  - intros (p & t & pt & -> & Hin & Hpt & Hd).
    apply existsb_exists. exists t.
    split; [now apply list_elem_of_In|]. rewrite Hpt.
    unfold dist_lt. change (0 <? num 35) with true.
    now apply Qc_ltb_lt in Hd.
Qed.

(** C4.  With a tower type selected, a placement attempt leaves the scene
    exactly as it was when gold is below the cost or the point is within
    35 of the path; otherwise it takes the cost from gold, adds one tower
    and raises towerCount by one.  Within 35 of the path is: within 35 of
    one of the points the proximity loop samples, and these are the 200
    points at (binary64 sums near) t = 0, 0.005, ..., 0.995; the end of
    the path, t = 1, is not among them. *)
Theorem placeTower_rejects_or_places (x y : Qc) (now : string) (s : Scene)
    (type : nat) (cfg : TowerConfig.t) :
  currentTowerType s = Some type ->
  configObjs s !! type = Some cfg ->
  (GameStats.gold (stats s) < TowerConfig.cost cfg
   \/ checkPathProximity s x y = true ->
   placeTower x y now s = s)
  /\ (TowerConfig.cost cfg <= GameStats.gold (stats s) ->
      checkPathProximity s x y = false ->
      GameStats.gold (stats (placeTower x y now s))
      = GameStats.gold (stats s) - TowerConfig.cost cfg
      /\ (exists tower, towers (placeTower x y now s) = towers s ++ [tower])
      /\ GameStats.towerCount (stats (placeTower x y now s))
         = (GameStats.towerCount (stats s) + 1)%Z)
  /\ (checkPathProximity s x y = true
      <-> exists p t pt,
            path s = Some p /\ t ∈ proximitySamples
            /\ getPoint p t = Some pt
            /\ dist2 x y pt.1 pt.2 < num 35 * num 35)
  /\ length proximitySamples = 200%nat
  /\ (forall (k : nat) (t : Qc),
      proximitySamples !! k = Some t ->
      0 <= t /\ t < 1
      /\ - num (1 # 1000000000000000)
         <= t - Qc_of_Z (Z.of_nat k) * num 0.005
      /\ t - Qc_of_Z (Z.of_nat k) * num 0.005
         <= num (1 # 1000000000000000)).
Proof.
  intros Ht Hc. split; [|split; [|split; [|split]]].
  - unfold placeTower. rewrite Ht, Hc. intros [Hg|Hn].
    + apply Qc_ltb_lt in Hg. now rewrite Hg.
    + rewrite Hn. now destruct (_ <? _).
  - unfold placeTower. rewrite Ht, Hc.
    intros Hg Hn. apply Qc_ltb_ge in Hg. rewrite Hg, Hn. simpl.
    repeat split. eexists. reflexivity.
  - apply checkPathProximity_spec.
  - exact (proj1 proximitySamples_spec).
  - exact (proj2 proximitySamples_spec).
Qed.

End Placement.

(** Too little gold; a point 20 below the path; a point away from the
    path; and a point 34.75 below the very end of the path, (800, 300),
    where the tower is placed. *)
Lemma placeTower_rejects_or_places_witness :
  @placeTower demoHost (num 400) (num 100) "1700000000000" scenePoor
  = scenePoor
  /\ @placeTower demoHost (num 400) (num 320) "1700000000000" sceneShop
     = sceneShop
  /\ GameStats.towerCount
       (stats (@placeTower demoHost (num 400) (num 100) "1700000000000"
                 sceneShop))
     = (0 + 1)%Z
  /\ lerpPoint [(- num 50, num 300); (num 800, num 300)] 1
     = Some (num 800, num 300)
  /\ dist2 (num 800) (num 334.75) (num 800) (num 300) < num 35 * num 35
  /\ GameStats.towerCount
       (stats (@placeTower demoHost (num 800) (num 334.75) "1700000000000"
                 sceneShop))
     = (0 + 1)%Z.
Proof.
  pose proof (@placeTower_rejects_or_places demoHost (num 400) (num 100)
                "1700000000000" scenePoor 0%nat _ eq_refl eq_refl) as Hpoor.
  pose proof (@placeTower_rejects_or_places demoHost (num 400) (num 320)
                "1700000000000" sceneShop 0%nat _ eq_refl eq_refl) as Hnear.
  pose proof (@placeTower_rejects_or_places demoHost (num 400) (num 100)
                "1700000000000" sceneShop 0%nat _ eq_refl eq_refl) as Hfar.
  pose proof (@placeTower_rejects_or_places demoHost (num 800) (num 334.75)
                "1700000000000" sceneShop 0%nat _ eq_refl eq_refl) as Hend.
  split; [|split; [|split; [|split; [|split]]]].
  - apply (proj1 Hpoor). left. apply Qc_ltb_lt. reflexivity.
  - apply (proj1 Hnear). right. vm_compute. reflexivity.
  - apply (proj1 (proj2 Hfar)).
    + apply Qc_leb_le. reflexivity.
    + vm_compute. reflexivity.
  - vm_compute. repeat f_equal; apply Qc_is_canon; reflexivity.
  - apply Qc_ltb_lt. vm_compute. reflexivity.
  - apply (proj1 (proj2 Hend)).
    + apply Qc_leb_le. reflexivity.
    + vm_compute. reflexivity.
Defined.

(** ** C5: upgrading a tower *)

Lemma towers_selectTower (k : nat) (s : Scene) :
  towers (selectTower k s) = towers s.
Proof. unfold selectTower. now destruct (towers s !! k). Qed.

Lemma configObjs_selectTower (k : nat) (s : Scene) :
  configObjs (selectTower k s) = configObjs s.
Proof. unfold selectTower. now destruct (towers s !! k). Qed.

Lemma stats_selectTower (k : nat) (s : Scene) :
  stats (selectTower k s) = stats s.
Proof. unfold selectTower. now destruct (towers s !! k). Qed.

Lemma upgradeTower_absent (towerId : string) (s : Scene) :
  Forall (fun w => Tower.id w <> towerId) (towers s) ->
  upgradeTower towerId s = s.
Proof.
  intros Hall. unfold upgradeTower, findTower.
  now rewrite (proj2 (list_find_None _ _) Hall).
Qed.

Lemma upgradeTower_found (towerId : string) (s : Scene) (k : nat)
    (w : Tower.t) (c : TowerConfig.t) :
  findTower towerId s = Some (k, w) ->
  configObjs s !! Tower.config w = Some c ->
  towers (upgradeTower towerId s) = <[k := upgradedTower w]> (towers s)
  /\ configObjs (upgradeTower towerId s)
     = <[Tower.config w := upgradedConfig c]> (configObjs s)
  /\ stats (upgradeTower towerId s) = stats s.
Proof.
  intros Hf Hc. unfold upgradeTower. rewrite Hf. simpl. rewrite Hc.
  rewrite towers_selectTower, configObjs_selectTower, stats_selectTower.
  now simpl.
Qed.

(** The upgraded tower is the one the next upgrade finds again. *)
Lemma findTower_upgradeTower (towerId : string) (s : Scene) (k : nat)
    (w : Tower.t) (c : TowerConfig.t) :
  findTower towerId s = Some (k, w) ->
  configObjs s !! Tower.config w = Some c ->
  findTower towerId (upgradeTower towerId s) = Some (k, upgradedTower w).
Proof.
  intros Hf Hc. unfold findTower.
  destruct (upgradeTower_found towerId s k w c Hf Hc) as (-> & _ & _).
  unfold findTower in Hf. apply list_find_Some in Hf as (Hk & Hid & Hmin).
  apply list_find_insert_Some. right. left.
  repeat split; try assumption.
  now apply lookup_lt_Some in Hk.
Qed.

Lemma upgradeTower_iter (towerId : string) (k : nat) (N : nat) :
  forall (s : Scene) (w : Tower.t) (c : TowerConfig.t),
  findTower towerId s = Some (k, w) ->
  configObjs s !! Tower.config w = Some c ->
  exists wN cN,
    findTower towerId (Nat.iter N (upgradeTower towerId) s) = Some (k, wN)
    /\ Tower.config wN = Tower.config w
    /\ Tower.level wN = (Tower.level w + Z.of_nat N)%Z
    /\ configObjs (Nat.iter N (upgradeTower towerId) s) !! Tower.config w
       = Some cN
    /\ TowerConfig.damage cN
       = upgradeChain (num 1.5) N (TowerConfig.damage c)
    /\ TowerConfig.fireRate cN
       = upgradeChain (num 0.85) N (TowerConfig.fireRate c)
    /\ stats (Nat.iter N (upgradeTower towerId) s) = stats s.
Proof.
  induction N as [|N IH]; intros s w c Hf Hc.
  - exists w, c. simpl. repeat split; try assumption. lia.
  - destruct (IH s w c Hf Hc)
      as (wN & cN & HfN & Hcfg & Hlvl & HcN & Hd & Hr & Hst).
    rewrite <- Hcfg in HcN.
    destruct (upgradeTower_found towerId _ k wN cN HfN HcN) as (_ & Hco & Hs).
    exists (upgradedTower wN), (upgradedConfig cN). simpl.
    repeat split.
    + now apply (findTower_upgradeTower towerId _ k wN cN).
    + exact Hcfg.
    + rewrite Hlvl. lia.
    + rewrite Hco, <- Hcfg. apply list_lookup_insert_eq.
      now apply lookup_lt_Some in HcN.
    + unfold upgradeChain in *. simpl. now rewrite <- Hd.
    + unfold upgradeChain in *. simpl. now rewrite <- Hr.
    + now rewrite Hs.
Qed.

(** The floor of a rational in the specification's sense. *)
Lemma specFloor_floorZ (x : Qc) : specFloor x (floorZ x).
Proof.
  unfold specFloor, floorZ. split.
  - unfold Qcle, Qc_of_Z. simpl. apply Qfloor_le.
  - rewrite <- Z2Qc_inj_1, <- Z2Qc_inj_add.
    unfold Qclt, Qc_of_Z. simpl. apply Qlt_floor.
Qed.

Lemma floorZ_mul (z : Z) (a b : positive) :
  floorZ (Qc_of_Z z * num (Z.pos a # b)) = (z * Z.pos a / Z.pos b)%Z.
Proof.
  unfold floorZ, num. simpl.
  rewrite (Qfloor_comp _ (inject_Z z * (Z.pos a # b))%Q).
  - unfold Qfloor, Qmult, inject_Z. simpl. f_equal; lia.
  - rewrite !Qred_correct. reflexivity.
Qed.

Lemma floorZ_damage (d : Z) :
  floorZ (Qc_of_Z d * num 1.5) = (3 * d / 2)%Z.
Proof.
  change (num 1.5) with (num (15 # 10)). rewrite floorZ_mul.
  Z.div_mod_to_equations. lia.
Qed.

Lemma floorZ_fireRate (f : Z) :
  floorZ (Qc_of_Z f * num 0.85) = (17 * f / 20)%Z.
Proof.
  change (num 0.85) with (num (85 # 100)). rewrite floorZ_mul.
  Z.div_mod_to_equations. lia.
Qed.

Lemma upgradeChain_damage (N : nat) (d0 : Z) :
  upgradeChain (num 1.5) N (Qc_of_Z d0) = Qc_of_Z (specDamageChain N d0).
Proof.
  unfold upgradeChain, specDamageChain.
  induction N as [|N IH]; [reflexivity|]. simpl. rewrite IH.
  unfold Math_floor. now rewrite floorZ_damage.
Qed.

Lemma upgradeChain_fireRate (N : nat) (f0 : Z) :
  upgradeChain (num 0.85) N (Qc_of_Z f0) = Qc_of_Z (specFireRateChain N f0).
Proof.
  unfold upgradeChain, specFireRateChain.
  induction N as [|N IH]; [reflexivity|]. simpl. rewrite IH.
  unfold Math_floor. now rewrite floorZ_fireRate.
Qed.

(** Upgrades write to the damage and the fire rate of the configuration
    and to nothing else of it. *)
Lemma upgradeTower_iter_config (towerId : string) (k : nat) (N : nat) :
  forall (s : Scene) (w : Tower.t) (c cN : TowerConfig.t),
  findTower towerId s = Some (k, w) ->
  configObjs s !! Tower.config w = Some c ->
  configObjs (Nat.iter N (upgradeTower towerId) s) !! Tower.config w
  = Some cN ->
  set_config_fireRate (TowerConfig.fireRate c)
    (set_config_damage (TowerConfig.damage c) cN) = c.
Proof.
  induction N as [|N IH]; intros s w c cN Hf Hc HcN.
  - simpl in HcN. rewrite Hc in HcN. injection HcN as <-. now destruct c.
  - destruct (upgradeTower_iter towerId k N s w c Hf Hc)
      as (wN & cN' & HfN & Hcfg & _ & HcN' & _).
    pose proof (IH s w c cN' Hf Hc HcN') as Hfr.
    rewrite <- Hcfg in HcN'.
    destruct (upgradeTower_found towerId _ k wN cN' HfN HcN')
      as (_ & Hco & _).
    simpl in HcN. rewrite Hco, Hcfg in HcN.
    rewrite list_lookup_insert_eq in HcN
      by (rewrite <- Hcfg; now apply lookup_lt_Some in HcN').
    injection HcN as <-. rewrite <- Hfr. now destruct cN'.
Qed.



(** ** C10: the configuration of a new tower is its own copy *)

Lemma ownConfigs_distinct (s : Scene) (j k : nat) (w w' : Tower.t) :
  ownConfigs s -> towers s !! j = Some w' -> towers s !! k = Some w ->
  j <> k -> Tower.config w' <> Tower.config w.
Proof.
  intros [Hnd _] Hj Hk Hne E. apply Hne.
  apply (NoDup_lookup (Tower.config <$> towers s) j k (Tower.config w) Hnd).
  - rewrite list_lookup_fmap, Hj. simpl. now rewrite E.
  - now rewrite list_lookup_fmap, Hk.
Qed.

(** Upgrading writes to one configuration object only. *)
Lemma upgradeTower_frame (towerId : string) (s : Scene) (k : nat)
    (w : Tower.t) :
  findTower towerId s = Some (k, w) ->
  forall r, r <> Tower.config w ->
  configObjs (upgradeTower towerId s) !! r = configObjs s !! r.
Proof.
  intros Hf r Hr. unfold upgradeTower. rewrite Hf. simpl.
  rewrite configObjs_selectTower.
  destruct (configObjs s !! Tower.config w); simpl; [|reflexivity].
  now apply list_lookup_insert_ne.
Qed.

Lemma upgradeTower_other_tower (towerId : string) (s : Scene) (k : nat)
    (w : Tower.t) :
  findTower towerId s = Some (k, w) ->
  forall j, j <> k -> towers (upgradeTower towerId s) !! j = towers s !! j.
Proof.
  intros Hf j Hj. unfold upgradeTower. rewrite Hf.
  rewrite towers_selectTower.
  destruct (configObjs _ !! _); simpl; now apply list_lookup_insert_ne.
Qed.

Lemma ownConfigs_upgradeTower (towerId : string) (s : Scene) :
  ownConfigs s -> ownConfigs (upgradeTower towerId s).
Proof.
  intros Hown. unfold upgradeTower.
  destruct (findTower towerId s) as [[k w]|] eqn:Hf; [|exact Hown].
  unfold findTower in Hf. apply list_find_Some in Hf as (Hk & _).
  assert (Hcfg : Tower.config <$> <[k := upgradedTower w]> (towers s)
                 = Tower.config <$> towers s).
  { rewrite list_fmap_insert. apply list_insert_id.
    now rewrite list_lookup_fmap, Hk. }
  destruct Hown as [Hnd Hall].
  assert (Hall' : forall n,
             Forall (fun w => (Tower.config w < n)%nat) (towers s) ->
             Forall (fun w => (Tower.config w < n)%nat)
               (<[k := upgradedTower w]> (towers s))).
  { intros n Hn. apply Forall_insert; [exact Hn|].
    rewrite Forall_forall in Hn. apply (Hn w).
    apply list_elem_of_lookup. eauto. }
  split.
  - rewrite towers_selectTower.
    destruct (configObjs _ !! _); simpl; fold (upgradedTower w);
      now rewrite Hcfg.
  - rewrite towers_selectTower, configObjs_selectTower.
    simpl. fold (upgradedTower w).
    destruct (configObjs s !! Tower.config w); simpl.
    + rewrite length_insert. now apply Hall'.
    + now apply Hall'.
Qed.

Section Copy.
Context `{Host}.

Lemma placeTower_placed (x y : Qc) (now : string) (s : Scene) (type : nat)
    (cfg : TowerConfig.t) :
  currentTowerType s = Some type ->
  configObjs s !! type = Some cfg ->
  TowerConfig.cost cfg <= GameStats.gold (stats s) ->
  checkPathProximity s x y = false ->
  towers (placeTower x y now s)
  = towers s
    ++ [Tower.mk ("tower-" ++ now) x y 1 (length (configObjs s)) FIRST 0]
  /\ configObjs (placeTower x y now s) = configObjs s ++ [cfg].
Proof.
  intros Ht Hc Hg Hn. unfold placeTower.
  apply Qc_ltb_ge in Hg. rewrite Ht, Hc, Hg, Hn. simpl. now split.
Qed.

Lemma ownConfigs_placeTower (x y : Qc) (now : string) (s : Scene) :
  ownConfigs s -> ownConfigs (placeTower x y now s).
Proof.
  intros Hown. unfold placeTower.
  destruct (currentTowerType s) as [type|]; [|exact Hown].
  destruct (configObjs s !! type) as [cfg|]; [|exact Hown].
  destruct (_ <? _); [exact Hown|].
  destruct (checkPathProximity s x y); [exact Hown|].
  destruct Hown as [Hnd Hall]. unfold ownConfigs. simpl.
  rewrite fmap_app, length_app. simpl. split.
  - apply NoDup_app. split; [exact Hnd|]. split; [|apply NoDup_singleton].
    intros r Hr Hin. apply list_elem_of_singleton in Hin. subst r.
    apply list_elem_of_fmap in Hr as (w & Hw & Hin).
    rewrite Forall_forall in Hall. specialize (Hall w Hin). lia.
  - apply Forall_app. split.
    + eapply Forall_impl; [exact Hall|]. simpl. intros; lia.
    + constructor; [simpl; lia|constructor].
Qed.

(** C10.  After a successful placement the new tower has level 1,
    nextFire 0, priority FIRST and a configuration object that did not
    exist before and holds the fields of the selected configuration;
    upgrading any tower afterwards writes only to that tower's own
    configuration: the configuration of every other tower and every
    configuration no tower owns (the entries of the table) stay as they
    are. *)
Theorem placeTower_copies_config (x y : Qc) (now : string) (s : Scene)
    (type : nat) (cfg : TowerConfig.t) :
  currentTowerType s = Some type ->
  configObjs s !! type = Some cfg ->
  TowerConfig.cost cfg <= GameStats.gold (stats s) ->
  checkPathProximity s x y = false ->
  ownConfigs s ->
  exists tower,
    towers (placeTower x y now s) = towers s ++ [tower]
    /\ Tower.level tower = 1%Z
    /\ Tower.nextFire tower = 0
    /\ Tower.targetingPriority tower = FIRST
    /\ configObjs s !! Tower.config tower = None
    /\ configObjs (placeTower x y now s) !! Tower.config tower = Some cfg
    /\ configObjs (placeTower x y now s) !! type = Some cfg
    /\ forall (towerId : string) (k : nat) (w : Tower.t),
       findTower towerId (placeTower x y now s) = Some (k, w) ->
       (forall r, r <> Tower.config w ->
          configObjs (upgradeTower towerId (placeTower x y now s)) !! r
          = configObjs (placeTower x y now s) !! r)
       /\ (forall j w', j <> k ->
           towers (placeTower x y now s) !! j = Some w' ->
           towers (upgradeTower towerId (placeTower x y now s)) !! j
           = Some w'
           /\ configObjs (upgradeTower towerId (placeTower x y now s))
              !! Tower.config w'
              = configObjs (placeTower x y now s) !! Tower.config w')
       /\ (forall r,
           Forall (fun w' => Tower.config w' <> r)
             (towers (placeTower x y now s)) ->
           configObjs (upgradeTower towerId (placeTower x y now s)) !! r
           = configObjs (placeTower x y now s) !! r).
Proof.
  intros Ht Hc Hg Hn Hown.
  pose proof (ownConfigs_placeTower x y now s Hown) as Hown'.
  destruct (placeTower_placed x y now s type cfg Ht Hc Hg Hn) as [Htw Hco].
  eexists. split; [exact Htw|]. simpl.
  split; [reflexivity|]. split; [reflexivity|]. split; [reflexivity|].
  split; [now apply lookup_ge_None|].
  split; [rewrite Hco; now apply list_lookup_middle|].
  split; [rewrite Hco; now apply lookup_app_l_Some|].
  intros towerId k w Hf.
  pose proof Hf as Hf'. unfold findTower in Hf'.
  apply list_find_Some in Hf' as (Hk & _).
  split; [|split].
  - intros r Hr. exact (upgradeTower_frame towerId _ k w Hf r Hr).
  - intros j w' Hj Hw'. split.
    + rewrite (upgradeTower_other_tower towerId _ k w Hf j Hj). exact Hw'.
    + apply (upgradeTower_frame towerId _ k w Hf).
      now apply (ownConfigs_distinct _ j k w w' Hown').
  - intros r Hall. apply (upgradeTower_frame towerId _ k w Hf).
    rewrite Forall_forall in Hall. intros ->. apply (Hall w); [|reflexivity].
    apply list_elem_of_lookup. eauto.
Qed.

End Copy.

Lemma ownConfigs_sceneShop : ownConfigs sceneShop.
Proof. split; simpl; constructor. Qed.

Lemma placeTower_copies_config_witness :
  exists tower,
    towers sceneTower = [tower]
    /\ Tower.level tower = 1%Z
    /\ Tower.nextFire tower = 0
    /\ Tower.targetingPriority tower = FIRST
    /\ configObjs sceneShop !! Tower.config tower = None
    /\ configObjs sceneTower !! Tower.config tower = TOWERS !! 0%nat
    /\ configObjs (upgradeTower "tower-1700000000000" sceneTower) !! 0%nat
       = configObjs sceneTower !! 0%nat.
Proof.
  assert (Hg : num 100 <= num 500) by (apply Qc_leb_le; reflexivity).
  assert (Hn : @checkPathProximity demoHost sceneShop (num 400) (num 100)
               = false) by (vm_compute; reflexivity).
  destruct (@placeTower_copies_config demoHost (num 400) (num 100)
              "1700000000000" sceneShop 0%nat _ eq_refl eq_refl Hg Hn
              ownConfigs_sceneShop)
    as (tower & Htw & Hl & Hnf & Hp & Hfresh & Hcopy & _ & Hup).
  exists tower.
  split; [exact Htw|]. split; [exact Hl|]. split; [exact Hnf|].
  split; [exact Hp|]. split; [exact Hfresh|]. split; [exact Hcopy|].
  assert (Hf : findTower "tower-1700000000000" sceneTower
               = Some (0%nat,
                       Tower.mk "tower-1700000000000" (num 400) (num 100)
                         1 3 FIRST 0)).
  { vm_compute. reflexivity. }
  apply (proj1 (Hup _ _ _ Hf)). simpl. discriminate.
Defined.

(** ** C6: starting a wave *)

(** C6.  [startWave] does nothing while a wave is in progress; otherwise
    it sets waveInProgress and sets enemiesRemaining to
    max(1, floor(level/5)) when level % 10 == 0 and to
    20 + floor(level*8) otherwise: 28 at level 1 and 2 at level 10. *)
Theorem startWave_sets_wave_size (s : Scene) :
  (waveInProgress s = true -> startWave s = s)
  /\ (waveInProgress s = false ->
      waveInProgress (startWave s) = true
      /\ (Z.rem (GameStats.level (stats s)) 10 = 0%Z ->
          enemiesRemaining (startWave s)
          = Z.max 1 (floorZ (Qc_of_Z (GameStats.level (stats s)) / num 5)))
      /\ (Z.rem (GameStats.level (stats s)) 10 <> 0%Z ->
          enemiesRemaining (startWave s)
          = (20 + floorZ (Qc_of_Z (GameStats.level (stats s)) * num 8))%Z)
      /\ (GameStats.level (stats s) = 1%Z ->
          enemiesRemaining (startWave s) = 28%Z)
      /\ (GameStats.level (stats s) = 10%Z ->
          enemiesRemaining (startWave s) = 2%Z)).
Proof.
  unfold startWave. split; intros Hw; rewrite Hw; [reflexivity|].
  simpl. unfold isBossLevel. split; [reflexivity|].
  split; [|split; [|split]].
  - intros E. now rewrite E.
  - intros E. apply Z.eqb_neq in E. now rewrite E.
  - intros ->. vm_compute. reflexivity.
  - intros ->. vm_compute. reflexivity.
Qed.

Lemma startWave_sets_wave_size_witness :
  enemiesRemaining (startWave (sceneLevel 1)) = 28%Z
  /\ enemiesRemaining (startWave (sceneLevel 10)) = 2%Z
  /\ startWave (startWave (sceneLevel 1)) = startWave (sceneLevel 1).
Proof.
  split; [|split].
  - exact (proj1 (proj2 (proj2 (proj2
             (proj2 (startWave_sets_wave_size (sceneLevel 1)) eq_refl))))
             eq_refl).
  - exact (proj2 (proj2 (proj2 (proj2
             (proj2 (startWave_sets_wave_size (sceneLevel 10)) eq_refl))))
             eq_refl).
  - exact (proj1 (startWave_sets_wave_size (startWave (sceneLevel 1)))
             eq_refl).
Defined.

(** ** C8: completing a level *)

Section Levels.
Context `{Host}.

Lemma createPath_path (btw : Z -> Qc) (s : Scene) :
  exists pts,
    path (createPath btw s) = Some ((- num 50, height / num 2) :: pts)
    /\ length pts = Z.to_nat (segmentsFor (GameStats.level (stats s))).
Proof.
  unfold createPath. eexists. split; [reflexivity|].
  now rewrite length_fmap, length_seqZ.
Qed.


End Levels.


(** ** C7: choosing a target *)

(** The last one standing of a [reduce] is in the array and is below
    every element in any order the comparison decides. *)
Section Reduce.
Context {A : Type} (keep : A -> A -> bool) (le : A -> A -> Prop).
Hypothesis le_refl : forall a, le a a.
Hypothesis le_trans : forall a b c, le a b -> le b c -> le a c.
Hypothesis keep_true : forall a b, keep a b = true -> le a b.
Hypothesis keep_false : forall a b, keep a b = false -> le b a.

Lemma fold_keep_least (l : list A) (a : A) :
  let r := fold_left (fun prev curr => if keep prev curr then prev else curr)
             l a in
  r ∈ a :: l /\ forall x, x ∈ a :: l -> le r x.
Proof.
  revert a. induction l as [|b l IH]; intros a; simpl.
  - split; [left|]. intros x Hx. apply list_elem_of_singleton in Hx.
    subst. apply le_refl.
  - destruct (keep a b) eqn:K.
    + destruct (IH a) as [Hin Hle]. split.
      * apply elem_of_cons in Hin as [->|Hin]; [left|right; now right].
      * intros x Hx. apply elem_of_cons in Hx as [->|Hx].
        { apply Hle. left. }
        apply elem_of_cons in Hx as [->|Hx].
        { apply le_trans with a; [apply Hle; left|now apply keep_true]. }
        apply Hle. now right.
    + destruct (IH b) as [Hin Hle]. split.
      * now right.
      * intros x Hx. apply elem_of_cons in Hx as [->|Hx].
        { apply le_trans with b; [apply Hle; left|now apply keep_false]. }
        now apply Hle.
Qed.

Lemma reduce_least (l : list A) :
  l <> [] ->
  exists r, reduce keep l = Some r /\ r ∈ l /\ forall x, x ∈ l -> le r x.
Proof.
  destruct l as [|a l]; [congruence|]. intros _.
  eexists. split; [reflexivity|]. apply fold_keep_least.
Qed.

End Reduce.

Lemma inRange_nil_length (s : Scene) (tower : Tower.t) (cfg : TowerConfig.t) :
  inRange s tower cfg = [] <-> Nat.eqb (length (inRange s tower cfg)) 0 = true.
Proof.
  rewrite Nat.eqb_eq. split.
  - now intros ->.
  - now destruct (inRange s tower cfg).
Qed.

Lemma getPriorityTarget_none (s : Scene) (tower : Tower.t)
    (cfg : TowerConfig.t) :
  configObjs s !! Tower.config tower = Some cfg ->
  inRange s tower cfg = [] ->
  getPriorityTarget s tower = None.
Proof.
  intros Hc Hnil. unfold getPriorityTarget. rewrite Hc.
  now rewrite (proj1 (inRange_nil_length s tower cfg) Hnil).
Qed.

Lemma getPriorityTarget_weakest (s : Scene) (tower : Tower.t)
    (cfg : TowerConfig.t) :
  configObjs s !! Tower.config tower = Some cfg ->
  inRange s tower cfg <> [] ->
  Tower.targetingPriority tower = WEAKEST ->
  exists re,
    getPriorityTarget s tower = Some re
    /\ re ∈ inRange s tower cfg
    /\ forall re', re' ∈ inRange s tower cfg ->
       Enemy.hp re.2 <= Enemy.hp re'.2.
Proof.
  intros Hc Hne Hp. unfold getPriorityTarget. rewrite Hc, Hp.
  destruct (Nat.eqb _ 0) eqn:E.
  { apply inRange_nil_length in E. contradiction. }
  apply (reduce_least _ (fun a b => Enemy.hp a.2 <= Enemy.hp b.2));
    try assumption.
  - intros a. apply Qcle_refl.
  - intros a b c. apply Qcle_trans.
  - intros a b K. apply Qc_ltb_lt in K. now apply Qclt_le_weak.
  - intros a b K. now apply Qc_ltb_ge in K.
Qed.

Lemma getPriorityTarget_strongest (s : Scene) (tower : Tower.t)
    (cfg : TowerConfig.t) :
  configObjs s !! Tower.config tower = Some cfg ->
  inRange s tower cfg <> [] ->
  Tower.targetingPriority tower = STRONGEST ->
  exists re,
    getPriorityTarget s tower = Some re
    /\ re ∈ inRange s tower cfg
    /\ forall re', re' ∈ inRange s tower cfg ->
       Enemy.hp re'.2 <= Enemy.hp re.2.
Proof.
  intros Hc Hne Hp. unfold getPriorityTarget. rewrite Hc, Hp.
  destruct (Nat.eqb _ 0) eqn:E.
  { apply inRange_nil_length in E. contradiction. }
  apply (reduce_least _ (fun a b => Enemy.hp b.2 <= Enemy.hp a.2));
    try assumption.
  - intros a. apply Qcle_refl.
  - intros a b c Hab Hbc. now apply Qcle_trans with (Enemy.hp b.2).
  - intros a b K. apply Qc_ltb_lt in K. now apply Qclt_le_weak.
  - intros a b K. now apply Qc_ltb_ge in K.
Qed.

Lemma inRange_spec (s : Scene) (tower : Tower.t) (cfg : TowerConfig.t)
    (re : nat * Enemy.t) :
  re ∈ inRange s tower cfg
  <-> re ∈ enemyChildren s
      /\ Enemy.active re.2 = true
      /\ dist_le (Tower.x tower) (Tower.y tower) (Enemy.x re.2)
           (Enemy.y re.2) (TowerConfig.range cfg) = true.
Proof.
  unfold inRange, inRangeOf.
  rewrite !list_elem_of_In, !filter_In, <- list_elem_of_In. tauto.
Qed.

(** What the steps of a tick leave alone. *)
Lemma shoot_frame (tower : Tower.t) (target : nat * Enemy.t) (s : Scene) :
  enemyObjs (shoot tower target s) = enemyObjs s
  /\ enemies (shoot tower target s) = enemies s
  /\ configObjs (shoot tower target s) = configObjs s
  /\ towers (shoot tower target s) = towers s
  /\ scaledTime (shoot tower target s) = scaledTime s.
Proof. unfold shoot. now destruct (configObjs s !! Tower.config tower). Qed.

Lemma fireTower_frame (j : nat) (s : Scene) :
  enemyObjs (fireTower j s) = enemyObjs s
  /\ enemies (fireTower j s) = enemies s
  /\ configObjs (fireTower j s) = configObjs s
  /\ forall k, k <> j -> towers (fireTower j s) !! k = towers s !! k.
Proof.
  unfold fireTower.
  destruct (towers s !! j) as [w|]; [|now auto].
  destruct (_ <? _); [|now auto].
  destruct (getPriorityTarget s w) as [target|]; [|now auto].
  destruct (shoot_frame w target s) as (E1 & E2 & E3 & E4 & E5).
  destruct (configObjs (shoot w target s) !! Tower.config w); simpl;
    repeat split; try assumption.
  - intros k Hk. rewrite E4. apply list_lookup_insert_ne. congruence.
  - intros k Hk. now rewrite E4.
Qed.

Lemma getPriorityTarget_ext (s s' : Scene) (tower : Tower.t) :
  enemyObjs s' = enemyObjs s -> enemies s' = enemies s ->
  configObjs s' = configObjs s ->
  getPriorityTarget s' tower = getPriorityTarget s tower.
Proof.
  intros E1 E2 E3. unfold getPriorityTarget, inRange, enemyChildren.
  now rewrite E1, E2, E3.
Qed.

Lemma fireTower_idle (k : nat) (s : Scene) (tower : Tower.t) :
  towers s !! k = Some tower ->
  getPriorityTarget s tower = None ->
  fireTower k s = s.
Proof.
  intros Hk Hnone. unfold fireTower. rewrite Hk, Hnone.
  now destruct (_ <? _).
Qed.

Lemma fireTowers_idle (k : nat) (s : Scene) (tower : Tower.t) :
  towers s !! k = Some tower ->
  getPriorityTarget s tower = None ->
  towers (fireTowers s) !! k = Some tower.
Proof.
  intros Hk Hnone. unfold fireTowers.
  apply (forEach_inv
           (fun s' => (enemyObjs s' = enemyObjs s /\ enemies s' = enemies s
                       /\ configObjs s' = configObjs s)
                      /\ towers s' !! k = Some tower));
    [|now auto].
  intros j s' [(E1 & E2 & E3) Hk'].
  destruct (fireTower_frame j s') as (F1 & F2 & F3 & F4).
  split; [repeat split; congruence|].
  destruct (decide (k = j)) as [->|Hne].
  - rewrite (fireTower_idle j s' tower Hk'); [exact Hk'|].
    now rewrite (getPriorityTarget_ext s s' tower E1 E2 E3).
  - now rewrite F4.
Qed.

Lemma towers_destroyEnemy (r : nat) (s : Scene) :
  towers (destroyEnemy r s) = towers s.
Proof. unfold destroyEnemy. now destruct (enemyObjs s !! r). Qed.

Lemma towers_destroyProjectile (r : nat) (s : Scene) :
  towers (destroyProjectile r s) = towers s.
Proof. unfold destroyProjectile. now destruct (projectileObjs s !! r). Qed.

Lemma towers_steerProjectiles (s : Scene) :
  towers (steerProjectiles s) = towers s.
Proof.
  unfold steerProjectiles.
  apply (forEach_inv (fun s' => towers s' = towers s)); [|reflexivity].
  intros r s' E. unfold steerProjectile.
  destruct (projectileObjs s' !! r) as [p|]; [|exact E].
  destruct (Projectile.target p ≫= _) as [e|];
    [destruct (Enemy.active e)|]; simpl;
    rewrite ?towers_destroyProjectile; exact E.
Qed.

Section Targeting.
Context `{Host}.

Lemma towers_moveEnemies (d : Qc) (s : Scene) :
  towers (moveEnemies d s) = towers s.
Proof.
  unfold moveEnemies.
  apply (forEach_inv (fun s' => towers s' = towers s)); [|reflexivity].
  intros r s' E. unfold moveEnemy.
  destruct (enemyObjs s' !! r) as [e|]; [|exact E].
  destruct (negb (Enemy.active e)); [exact E|]. cbv zeta.
  destruct (1 <=? _); [|exact E].
  destruct (_ <=? 0)%Z; unfold onGameOver, emit; simpl;
    rewrite towers_destroyEnemy; exact E.
Qed.

(** C7.  Target selection keeps the active enemies within the tower's
    range.  When none is left it returns nothing, and the tower does not
    fire: firing leaves the scene as it is, and the tower object (its
    nextFire with it) is the same at the end of a tick in which no enemy
    is in range when the towers fire.  Otherwise priority WEAKEST returns
    an in-range enemy of least hp (the one of hp 10 among 30, 10, 50) and
    STRONGEST one of greatest hp (the one of hp 50). *)
Theorem getPriorityTarget_selects (s : Scene) (k : nat) (tower : Tower.t)
    (cfg : TowerConfig.t) :
  towers s !! k = Some tower ->
  configObjs s !! Tower.config tower = Some cfg ->
  (forall re,
     re ∈ inRange s tower cfg
     <-> re ∈ enemyChildren s
         /\ Enemy.active re.2 = true
         /\ dist_le (Tower.x tower) (Tower.y tower) (Enemy.x re.2)
              (Enemy.y re.2) (TowerConfig.range cfg) = true)
  /\ (inRange s tower cfg = [] ->
      getPriorityTarget s tower = None
      /\ fireTower k s = s
      /\ forall d, towers (steerProjectiles (moveEnemies d (fireTowers s)))
                   !! k = Some tower)
  /\ (inRange s tower cfg <> [] ->
      (Tower.targetingPriority tower = WEAKEST ->
       exists re,
         getPriorityTarget s tower = Some re
         /\ re ∈ inRange s tower cfg
         /\ forall re', re' ∈ inRange s tower cfg ->
            Enemy.hp re.2 <= Enemy.hp re'.2)
      /\ (Tower.targetingPriority tower = STRONGEST ->
          exists re,
            getPriorityTarget s tower = Some re
            /\ re ∈ inRange s tower cfg
            /\ forall re', re' ∈ inRange s tower cfg ->
               Enemy.hp re'.2 <= Enemy.hp re.2))
  /\ (forall a b c,
      inRange s tower cfg = [a; b; c] ->
      Enemy.hp a.2 = num 30 -> Enemy.hp b.2 = num 10 ->
      Enemy.hp c.2 = num 50 ->
      (Tower.targetingPriority tower = WEAKEST ->
       getPriorityTarget s tower = Some b)
      /\ (Tower.targetingPriority tower = STRONGEST ->
          getPriorityTarget s tower = Some c)).
Proof.
  intros Hk Hc. split; [apply inRange_spec|]. split; [|split].
  - intros Hnil.
    pose proof (getPriorityTarget_none s tower cfg Hc Hnil) as Hnone.
    split; [exact Hnone|]. split; [now apply (fireTower_idle k s tower)|].
    intros d. rewrite towers_steerProjectiles, towers_moveEnemies.
    now apply fireTowers_idle.
  - intros Hne. split; intros Hp.
    + now apply (getPriorityTarget_weakest s tower cfg).
    + now apply (getPriorityTarget_strongest s tower cfg).
  - intros a b c Hin Ha Hb Hc3. unfold getPriorityTarget.
    rewrite Hc, Hin. cbn [length Nat.eqb reduce fold_left].
    split; intros ->.
    + rewrite Ha, Hb. change (num 30 <? num 10) with false. cbv iota.
      rewrite Hb, Hc3. reflexivity.
    + rewrite Ha, Hb. change (num 10 <? num 30) with true. cbv iota.
      rewrite Ha, Hc3. reflexivity.
Qed.

End Targeting.

Lemma getPriorityTarget_selects_witness :
  getPriorityTarget (sceneThree WEAKEST) (watchTower WEAKEST)
  = Some (1%nat, enemy10)
  /\ getPriorityTarget (sceneThree STRONGEST) (watchTower STRONGEST)
     = Some (2%nat, enemy50)
  /\ fireTower 0 sceneQuiet = sceneQuiet.
Proof.
  destruct (@getPriorityTarget_selects demoHost (sceneThree WEAKEST) 0%nat
              (watchTower WEAKEST) _ eq_refl eq_refl)
    as (_ & _ & _ & Hweak).
  destruct (@getPriorityTarget_selects demoHost (sceneThree STRONGEST) 0%nat
              (watchTower STRONGEST) _ eq_refl eq_refl)
    as (_ & _ & _ & Hstrong).
  destruct (@getPriorityTarget_selects demoHost sceneQuiet 0%nat
              (watchTower WEAKEST) _ eq_refl eq_refl)
    as (_ & Hquiet & _).
  split; [|split].
  - apply (Hweak (0%nat, enemy30) (1%nat, enemy10) (2%nat, enemy50));
      try reflexivity.
  - apply (Hstrong (0%nat, enemy30) (1%nat, enemy10) (2%nat, enemy50));
      try reflexivity.
  - apply Hquiet. vm_compute. reflexivity.
Defined.

(** ** C9: projectiles whose target is gone *)

(** A hit on a destroyed projectile or a destroyed enemy changes
    nothing. *)
Lemma handleHit_inactive (pr er : nat) (s : Scene) (p : Projectile.t)
    (e : Enemy.t) :
  projectileObjs s !! pr = Some p ->
  enemyObjs s !! er = Some e ->
  Projectile.active p = false \/ Enemy.active e = false ->
  handleHit pr er s = s.
Proof.
  intros Hp He Hin. unfold handleHit. rewrite Hp, He.
  destruct Hin as [-> | ->]; simpl; [reflexivity|].
  now rewrite Bool.orb_true_r.
Qed.

(** A projectile that the loop visits is taken out of the group when
    its target is gone. *)
Lemma steerProjectile_stale (r er : nat) (s : Scene) (p : Projectile.t)
    (e : Enemy.t) :
  projectileObjs s !! r = Some p ->
  Projectile.target p = Some er ->
  enemyObjs s !! er = Some e ->
  Enemy.active e = false ->
  steerProjectile r s = destroyProjectile r s.
Proof.
  intros Hp Ht He Ha. unfold steerProjectile.
  rewrite Hp, Ht. simpl. now rewrite He, Ha.
Qed.

(** C9 (what the code does).  With two projectiles in the group whose
    target has been destroyed, one tick removes the first only: its
    removal shifts the second into the slot the loop has just left, the
    second is not visited and stays in the group, alive and aimed at the
    destroyed enemy, and the next overlap with another enemy takes that
    enemy's hp. *)
Theorem stale_projectile_survives_tick :
  let s' := @update demoHost tick16 sceneStale in
  projectiles sceneStale = [0; 1]%nat
  /\ projectiles s' = [1%nat]
  /\ Projectile.active <$> projectileObjs s' !! 1%nat = Some true
  /\ (Projectile.target <$> projectileObjs s' !! 1%nat) = Some (Some 0%nat)
  /\ Enemy.active <$> enemyObjs s' !! 0%nat = Some false
  /\ this <$> (Enemy.hp <$> enemyObjs s' !! 1%nat) = Some 40%Q
  /\ this <$> (Enemy.hp <$> enemyObjs (handleHit 1 1 s') !! 1%nat)
     = Some 30%Q.
Proof. vm_compute. repeat split. Qed.

(** ** The towers' configurations through a tick *)

Lemma ownConfigs_view (s s' : Scene) :
  configView s' = configView s -> ownConfigs s -> ownConfigs s'.
Proof.
  unfold configView, ownConfigs. intros E [Hnd Hall].
  injection E as E1 E2. rewrite E1, E2. split; [exact Hnd|].
  assert (Hall' : Forall (fun c => (c < length (configObjs s))%nat)
                    (Tower.config <$> towers s)).
  { apply Forall_fmap. exact Hall. }
  rewrite <- E1 in Hall'. apply Forall_fmap in Hall'. exact Hall'.
Qed.

Lemma configView_destroyEnemy (r : nat) (s : Scene) :
  configView (destroyEnemy r s) = configView s.
Proof. unfold destroyEnemy. now destruct (enemyObjs s !! r). Qed.

Lemma configView_destroyProjectile (r : nat) (s : Scene) :
  configView (destroyProjectile r s) = configView s.
Proof. unfold destroyProjectile. now destruct (projectileObjs s !! r). Qed.

Lemma configView_fireTower (k : nat) (s : Scene) :
  configView (fireTower k s) = configView s.
Proof.
  unfold fireTower.
  destruct (towers s !! k) as [w|] eqn:Hk; [|reflexivity].
  destruct (_ <? _); [|reflexivity].
  destruct (getPriorityTarget s w) as [target|]; [|reflexivity].
  destruct (shoot_frame w target s) as (_ & _ & E3 & E4 & _).
  unfold configView.
  destruct (configObjs (shoot w target s) !! Tower.config w); simpl;
    rewrite E3, E4; [|reflexivity].
  f_equal. rewrite list_fmap_insert. apply list_insert_id.
  now rewrite list_lookup_fmap, Hk.
Qed.

Lemma configView_steerProjectile (r : nat) (s : Scene) :
  configView (steerProjectile r s) = configView s.
Proof.
  unfold steerProjectile.
  destruct (projectileObjs s !! r) as [p|]; [|reflexivity].
  destruct (Projectile.target p ≫= _) as [e|];
    [destruct (Enemy.active e)|];
    rewrite ?configView_destroyProjectile; reflexivity.
Qed.

Section TickInvariant.
Context `{Host}.

Lemma configView_moveEnemy (d : Qc) (r : nat) (s : Scene) :
  configView (moveEnemy d r s) = configView s.
Proof.
  unfold moveEnemy.
  destruct (enemyObjs s !! r) as [e|]; [|reflexivity].
  destruct (negb (Enemy.active e)); [reflexivity|]. cbv zeta.
  destruct (1 <=? _); [|reflexivity].
  destruct (_ <=? 0)%Z; unfold onGameOver, emit, configView; simpl;
    rewrite towers_destroyEnemy;
    unfold destroyEnemy; now destruct (enemyObjs _ !! r).
Qed.

Lemma configView_completionCheck (i : Tick) (s : Scene) :
  configView (completionCheck i s) = configView s.
Proof.
  unfold completionCheck, completeLevel.
  destruct (waveComplete s); [|reflexivity]. cbv zeta.
  now destruct (30 <? _)%Z.
Qed.

Lemma configView_spawnCheck (i : Tick) (s : Scene) :
  configView (spawnCheck i s) = configView s.
Proof.
  unfold spawnCheck, spawnEnemy.
  destruct (_ && _); [|reflexivity]. cbv zeta.
  destruct (path s) as [p|]; [|reflexivity].
  now destruct (getPoint p 0).
Qed.

(** A tick keeps every tower on its own configuration object. *)
Lemma ownConfigs_update (i : Tick) (s : Scene) :
  ownConfigs s -> ownConfigs (update i s).
Proof.
  apply ownConfigs_view. rewrite update_code_order_eq.
  unfold update_code_order, steerProjectiles, moveEnemies, fireTowers.
  repeat (apply (forEach_inv (fun s' => configView s' = configView s));
          [intros r s' <-;
           first [apply configView_steerProjectile
                 |apply configView_moveEnemy
                 |apply configView_fireTower]|]).
  now rewrite configView_completionCheck, configView_spawnCheck.
Qed.

End TickInvariant.

(** ** Hit points through a tick *)

Lemma hpKept_refl (s : Scene) : hpKept s s.
Proof. intros r e He. now exists e. Qed.

Lemma hpKept_trans (s1 s2 s3 : Scene) :
  hpKept s1 s2 -> hpKept s2 s3 -> hpKept s1 s3.
Proof.
  intros H12 H23 r e He.
  destruct (H12 r e He) as (e2 & He2 & E2).
  destruct (H23 r e2 He2) as (e3 & He3 & E3).
  exists e3. split; [exact He3|congruence].
Qed.

Lemma hpKept_same (s s' : Scene) : enemyObjs s' = enemyObjs s -> hpKept s s'.
Proof. intros E r e He. exists e. now rewrite E. Qed.

Lemma hpKept_insert (s : Scene) (r : nat) (e e' : Enemy.t) :
  enemyObjs s !! r = Some e -> Enemy.hp e' = Enemy.hp e ->
  hpKept s (set_enemyObjs (<[r := e']> (enemyObjs s)) s).
Proof.
  intros He E r0 e0 He0. simpl.
  destruct (decide (r = r0)) as [->|Hne].
  - exists e'. split; [|congruence].
    apply list_lookup_insert_eq. now apply lookup_lt_Some in He.
  - exists e0. split; [|reflexivity].
    now rewrite list_lookup_insert_ne.
Qed.

Lemma hpKept_destroyEnemy (r : nat) (s : Scene) : hpKept s (destroyEnemy r s).
Proof.
  unfold destroyEnemy. destruct (enemyObjs s !! r) as [e|] eqn:He.
  - intros r0 e0 He0.
    destruct (hpKept_insert s r e (set_enemy_active false e) He eq_refl
                r0 e0 He0) as (e' & He' & E).
    now exists e'.
  - apply hpKept_refl.
Qed.

Lemma hpKept_fireTower (k : nat) (s : Scene) : hpKept s (fireTower k s).
Proof. apply hpKept_same. apply fireTower_frame. Qed.

Lemma hpKept_steerProjectile (r : nat) (s : Scene) :
  hpKept s (steerProjectile r s).
Proof.
  apply hpKept_same. unfold steerProjectile.
  destruct (projectileObjs s !! r) as [p|]; [|reflexivity].
  destruct (Projectile.target p ≫= _) as [e|];
    [destruct (Enemy.active e)|];
    rewrite ?enemyObjs_destroyProjectile; reflexivity.
Qed.

Section HitPoints.
Context `{Host}.

Lemma hpKept_moveEnemy (d : Qc) (r : nat) (s : Scene) :
  hpKept s (moveEnemy d r s).
Proof.
  unfold moveEnemy.
  destruct (enemyObjs s !! r) as [e|] eqn:He; [|apply hpKept_refl].
  destruct (negb (Enemy.active e)); [apply hpKept_refl|]. cbv zeta.
  match goal with
  | |- context [set_enemyObjs (<[r := ?e']> _) s] =>
      assert (K : hpKept s (set_enemyObjs (<[r := e']> (enemyObjs s)) s))
  end.
  { apply (hpKept_insert s r e); [exact He|].
    now destruct (path s ≫= _). }
  destruct (1 <=? _); [|exact K].
  eapply hpKept_trans; [exact K|].
  match goal with
  | |- hpKept ?a (if _ then onGameOver ?b else ?b) =>
      assert (K' : hpKept a b) by
        (eapply hpKept_trans; [|apply hpKept_destroyEnemy];
         now apply hpKept_same)
  end.
  now destruct (_ <=? 0)%Z.
Qed.

(** A tick takes no hit point from any enemy: hp only changes in
    [handleHit]. *)
Lemma update_keeps_hp (i : Tick) (s : Scene) : hpKept s (update i s).
Proof.
  rewrite update_code_order_eq.
  unfold update_code_order, steerProjectiles, moveEnemies, fireTowers.
  repeat (apply (forEach_inv (hpKept s));
          [intros r s' K; eapply hpKept_trans; [exact K|];
           first [apply hpKept_steerProjectile
                 |apply hpKept_moveEnemy
                 |apply hpKept_fireTower]|]).
  apply hpKept_trans with (spawnCheck i (advanceClock i s));
    [|apply hpKept_same].
  - apply hpKept_trans with (advanceClock i s);
      [now apply hpKept_same|].
    generalize (advanceClock i s). intros s1.
    unfold spawnCheck, spawnEnemy.
    match goal with
    | |- context [if ?c then _ else _] => destruct c
    end; [|apply hpKept_refl]. cbv zeta.
    destruct (path s1) as [p|]; [|now apply hpKept_same].
    destruct (getPoint p 0); [|now apply hpKept_same].
    intros r e He. exists e. split; [|reflexivity]. simpl.
    now apply lookup_app_l_Some.
  - unfold completionCheck, completeLevel.
    destruct (waveComplete _); [|reflexivity]. cbv zeta.
    now destruct (30 <? _)%Z.
Qed.

End HitPoints.

(** * Further properties of the scene *)

(** ** Relations kept by every step of a tick *)

Ltac split_matches :=
  repeat match goal with
         | |- context [match ?x with _ => _ end] => destruct x
         end.

Section TickRelations.
Context `{Host}.
Variable R : Scene -> Scene -> Prop.
Hypothesis R_refl : forall s, R s s.
Hypothesis R_trans : forall s1 s2 s3, R s1 s2 -> R s2 s3 -> R s1 s3.
Hypothesis R_fireTower : forall k s, R s (fireTower k s).
Hypothesis R_moveEnemy : forall d r s, R s (moveEnemy d r s).
Hypothesis R_steerProjectile : forall r s, R s (steerProjectile r s).

(** The three loops: towers, enemies, projectiles. *)
Lemma loops_rel (d : Qc) (s : Scene) :
  R s (steerProjectiles (moveEnemies d (fireTowers s))).
Proof.
  unfold steerProjectiles, moveEnemies, fireTowers.
  repeat (apply (forEach_inv (R s));
          [intros r s' K; apply R_trans with s'; [exact K|];
           first [apply R_steerProjectile
                 |apply R_moveEnemy
                 |apply R_fireTower]|]).
  apply R_refl.
Qed.

Hypothesis R_advanceClock : forall i s, R s (advanceClock i s).
Hypothesis R_spawnCheck : forall i s, R s (spawnCheck i s).
Hypothesis R_completionCheck : forall i s, R s (completionCheck i s).

Lemma update_rel (i : Tick) (s : Scene) : R s (update i s).
Proof.
  rewrite update_code_order_eq. unfold update_code_order.
  apply R_trans with (advanceClock i s); [apply R_advanceClock|].
  apply R_trans with (spawnCheck i (advanceClock i s));
    [apply R_spawnCheck|].
  apply R_trans with (completionCheck i (spawnCheck i (advanceClock i s)));
    [apply R_completionCheck|].
  apply loops_rel.
Qed.

End TickRelations.

Lemma tickFrame_refl (s : Scene) : tickFrame s s.
Proof. unfold tickFrame. tauto. Qed.

Lemma tickFrame_trans (s1 s2 s3 : Scene) :
  tickFrame s1 s2 -> tickFrame s2 s3 -> tickFrame s1 s3.
Proof. unfold tickFrame. intuition congruence. Qed.

Lemma livesLe_trans (s1 s2 s3 : Scene) :
  livesLe s1 s2 -> livesLe s2 s3 -> livesLe s1 s3.
Proof. unfold livesLe. lia. Qed.

Lemma waveFrame_refl (s : Scene) : waveFrame s s.
Proof. unfold waveFrame. tauto. Qed.

Lemma waveFrame_trans (s1 s2 s3 : Scene) :
  waveFrame s1 s2 -> waveFrame s2 s3 -> waveFrame s1 s3.
Proof. unfold waveFrame. intuition congruence. Qed.

Lemma destroyEnemy_fields (r : nat) (s : Scene) :
  stats (destroyEnemy r s) = stats s
  /\ towers (destroyEnemy r s) = towers s
  /\ configObjs (destroyEnemy r s) = configObjs s
  /\ projectileObjs (destroyEnemy r s) = projectileObjs s
  /\ projectiles (destroyEnemy r s) = projectiles s
  /\ emitted (destroyEnemy r s) = emitted s
  /\ length (enemyObjs (destroyEnemy r s)) = length (enemyObjs s)
  /\ (path (destroyEnemy r s), currentTowerType (destroyEnemy r s),
      selectedTowerObject (destroyEnemy r s), nextEnemyTime (destroyEnemy r s),
      enemiesRemaining (destroyEnemy r s), waveInProgress (destroyEnemy r s),
      scaledTime (destroyEnemy r s), timeScale (destroyEnemy r s))
     = (path s, currentTowerType s, selectedTowerObject s, nextEnemyTime s,
        enemiesRemaining s, waveInProgress s, scaledTime s, timeScale s).
Proof.
  unfold destroyEnemy. destruct (enemyObjs s !! r); simpl;
    rewrite ?length_insert; repeat split; reflexivity.
Qed.

Lemma destroyProjectile_fields (r : nat) (s : Scene) :
  stats (destroyProjectile r s) = stats s
  /\ towers (destroyProjectile r s) = towers s
  /\ configObjs (destroyProjectile r s) = configObjs s
  /\ enemyObjs (destroyProjectile r s) = enemyObjs s
  /\ enemies (destroyProjectile r s) = enemies s
  /\ emitted (destroyProjectile r s) = emitted s
  /\ length (projectileObjs (destroyProjectile r s))
     = length (projectileObjs s)
  /\ (path (destroyProjectile r s), currentTowerType (destroyProjectile r s),
      selectedTowerObject (destroyProjectile r s),
      nextEnemyTime (destroyProjectile r s),
      enemiesRemaining (destroyProjectile r s),
      waveInProgress (destroyProjectile r s),
      scaledTime (destroyProjectile r s), timeScale (destroyProjectile r s))
     = (path s, currentTowerType s, selectedTowerObject s, nextEnemyTime s,
        enemiesRemaining s, waveInProgress s, scaledTime s, timeScale s).
Proof.
  unfold destroyProjectile. destruct (projectileObjs s !! r); simpl;
    rewrite ?length_insert; repeat split; reflexivity.
Qed.

Lemma fireTower_fields (k : nat) (s : Scene) :
  stats (fireTower k s) = stats s
  /\ length (towers (fireTower k s)) = length (towers s)
  /\ (path (fireTower k s), currentTowerType (fireTower k s),
      selectedTowerObject (fireTower k s), nextEnemyTime (fireTower k s),
      enemiesRemaining (fireTower k s), waveInProgress (fireTower k s),
      scaledTime (fireTower k s), timeScale (fireTower k s),
      emitted (fireTower k s))
     = (path s, currentTowerType s, selectedTowerObject s, nextEnemyTime s,
        enemiesRemaining s, waveInProgress s, scaledTime s, timeScale s,
        emitted s).
Proof.
  unfold fireTower, shoot. split_matches; simpl;
    rewrite ?length_insert; repeat split; reflexivity.
Qed.

Lemma steerProjectile_fields (r : nat) (s : Scene) :
  stats (steerProjectile r s) = stats s
  /\ towers (steerProjectile r s) = towers s
  /\ configObjs (steerProjectile r s) = configObjs s
  /\ enemyObjs (steerProjectile r s) = enemyObjs s
  /\ enemies (steerProjectile r s) = enemies s
  /\ emitted (steerProjectile r s) = emitted s
  /\ (path (steerProjectile r s), currentTowerType (steerProjectile r s),
      selectedTowerObject (steerProjectile r s),
      nextEnemyTime (steerProjectile r s),
      enemiesRemaining (steerProjectile r s),
      waveInProgress (steerProjectile r s),
      scaledTime (steerProjectile r s), timeScale (steerProjectile r s))
     = (path s, currentTowerType s, selectedTowerObject s, nextEnemyTime s,
        enemiesRemaining s, waveInProgress s, scaledTime s, timeScale s).
Proof.
  unfold steerProjectile.
  destruct (destroyProjectile_fields r s)
    as (E1 & E2 & E3 & E4 & E5 & E6 & _ & E8).
  destruct (projectileObjs s !! r) as [p|]; [|repeat split; reflexivity].
  destruct (Projectile.target p ≫= _) as [e|];
    [destruct (Enemy.active e)|];
    rewrite ?E1, ?E2, ?E3, ?E4, ?E5, ?E6, ?E8; simpl;
    repeat split; reflexivity.
Qed.

Section TickFields.
Context `{Host}.

Lemma moveEnemy_fields (d : Qc) (r : nat) (s : Scene) :
  towers (moveEnemy d r s) = towers s
  /\ configObjs (moveEnemy d r s) = configObjs s
  /\ projectileObjs (moveEnemy d r s) = projectileObjs s
  /\ projectiles (moveEnemy d r s) = projectiles s
  /\ length (enemyObjs (moveEnemy d r s)) = length (enemyObjs s)
  /\ (GameStats.lives (stats s) - 1 <= GameStats.lives (stats (moveEnemy d r s))
      <= GameStats.lives (stats s))%Z
  /\ (GameStats.gold (stats (moveEnemy d r s)),
      GameStats.level (stats (moveEnemy d r s)),
      GameStats.score (stats (moveEnemy d r s)),
      GameStats.towerCount (stats (moveEnemy d r s)),
      GameStats.waveActive (stats (moveEnemy d r s)),
      GameStats.gameSpeed (stats (moveEnemy d r s)))
     = (GameStats.gold (stats s), GameStats.level (stats s),
        GameStats.score (stats s), GameStats.towerCount (stats s),
        GameStats.waveActive (stats s), GameStats.gameSpeed (stats s))
  /\ (path (moveEnemy d r s), currentTowerType (moveEnemy d r s),
      selectedTowerObject (moveEnemy d r s), nextEnemyTime (moveEnemy d r s),
      enemiesRemaining (moveEnemy d r s), waveInProgress (moveEnemy d r s),
      scaledTime (moveEnemy d r s), timeScale (moveEnemy d r s))
     = (path s, currentTowerType s, selectedTowerObject s, nextEnemyTime s,
        enemiesRemaining s, waveInProgress s, scaledTime s, timeScale s).
Proof.
  unfold moveEnemy.
  destruct (enemyObjs s !! r) as [e|];
    [|repeat split; try reflexivity; lia].
  destruct (negb (Enemy.active e)); [repeat split; try reflexivity; lia|].
  cbv zeta.
  destruct (1 <=? _).
  - match goal with
    | |- context [destroyEnemy r ?a] =>
        destruct (destroyEnemy_fields r a)
          as (E1 & E2 & E3 & E4 & E5 & E6 & E7 & E8)
    end.
    destruct (_ <=? 0)%Z; unfold onGameOver, emit; simpl;
      rewrite ?E1, ?E2, ?E3, ?E4, ?E5, ?E7, ?E8; simpl;
      rewrite ?length_insert; repeat split; try reflexivity; lia.
  - simpl. rewrite ?length_insert. repeat split; try reflexivity; lia.
Qed.

Lemma spawnCheck_fields (i : Tick) (s : Scene) :
  stats (spawnCheck i s) = stats s
  /\ towers (spawnCheck i s) = towers s
  /\ configObjs (spawnCheck i s) = configObjs s
  /\ projectileObjs (spawnCheck i s) = projectileObjs s
  /\ projectiles (spawnCheck i s) = projectiles s
  /\ emitted (spawnCheck i s) = emitted s
  /\ (path (spawnCheck i s), currentTowerType (spawnCheck i s),
      selectedTowerObject (spawnCheck i s), waveInProgress (spawnCheck i s),
      scaledTime (spawnCheck i s), timeScale (spawnCheck i s))
     = (path s, currentTowerType s, selectedTowerObject s, waveInProgress s,
        scaledTime s, timeScale s).
Proof.
  unfold spawnCheck, spawnEnemy.
  match goal with
  | |- context [if ?c then _ else _] => destruct c
  end; [|repeat split; reflexivity].
  cbv zeta. destruct (path s) as [p|] eqn:Hp;
    [|simpl; rewrite Hp; repeat split; reflexivity].
  destruct (getPoint p 0); simpl; rewrite Hp; repeat split; reflexivity.
Qed.

Lemma completionCheck_fields (i : Tick) (s : Scene) :
  towers (completionCheck i s) = towers s
  /\ configObjs (completionCheck i s) = configObjs s
  /\ enemyObjs (completionCheck i s) = enemyObjs s
  /\ enemies (completionCheck i s) = enemies s
  /\ projectileObjs (completionCheck i s) = projectileObjs s
  /\ projectiles (completionCheck i s) = projectiles s
  /\ (GameStats.lives (stats (completionCheck i s)),
      GameStats.score (stats (completionCheck i s)),
      GameStats.towerCount (stats (completionCheck i s)),
      GameStats.gameSpeed (stats (completionCheck i s)))
     = (GameStats.lives (stats s), GameStats.score (stats s),
        GameStats.towerCount (stats s), GameStats.gameSpeed (stats s))
  /\ (currentTowerType (completionCheck i s),
      selectedTowerObject (completionCheck i s),
      nextEnemyTime (completionCheck i s),
      enemiesRemaining (completionCheck i s),
      scaledTime (completionCheck i s), timeScale (completionCheck i s))
     = (currentTowerType s, selectedTowerObject s, nextEnemyTime s,
        enemiesRemaining s, scaledTime s, timeScale s).
Proof.
  unfold completionCheck, completeLevel.
  destruct (waveComplete s); [|repeat split; reflexivity]. cbv zeta.
  destruct (30 <? _)%Z; repeat split; reflexivity.
Qed.

Lemma tickFrame_update (i : Tick) (s : Scene) : tickFrame s (update i s).
Proof.
  apply (update_rel tickFrame tickFrame_refl tickFrame_trans).
  - intros k s'. destruct (fireTower_fields k s') as (E1 & E2 & E3).
    destruct (fireTower_frame k s') as (_ & _ & F3 & _).
    unfold tickFrame. rewrite E1, E2, F3.
    injection E3 as _ E5 E6 _ _ _ _ E7 _.
    repeat split; congruence.
  - intros d r s'.
    destruct (moveEnemy_fields d r s') as (E1 & E2 & _ & _ & _ & _ & E7 & E8).
    unfold tickFrame. rewrite E1, E2.
    injection E7 as _ _ G3 G4 _ G6. injection E8 as _ E5 E6 _ _ _ _ E9.
    repeat split; congruence.
  - intros r s'.
    destruct (steerProjectile_fields r s')
      as (E1 & E2 & E3 & _ & _ & _ & E8).
    unfold tickFrame. rewrite E1, E2, E3.
    injection E8 as _ E5 E6 _ _ _ _ E9.
    repeat split; congruence.
  - intros i' s'. unfold tickFrame, advanceClock. simpl. tauto.
  - intros i' s'.
    destruct (spawnCheck_fields i' s') as (E1 & E2 & E3 & _ & _ & _ & E8).
    unfold tickFrame. rewrite E1, E2, E3.
    injection E8 as _ E5 E6 _ _ E9.
    repeat split; congruence.
  - intros i' s'.
    destruct (completionCheck_fields i' s')
      as (E1 & E2 & _ & _ & _ & _ & E7 & E8).
    unfold tickFrame. rewrite E1, E2.
    injection E7 as _ G2 G3 G4. injection E8 as E5 E6 _ _ _ E9.
    repeat split; congruence.
Qed.

Lemma livesLe_update (i : Tick) (s : Scene) : livesLe s (update i s).
Proof.
  apply (update_rel livesLe); unfold livesLe.
  - intros; lia.
  - intros s1 s2 s3. apply livesLe_trans.
  - intros k s'. destruct (fireTower_fields k s') as (-> & _). lia.
  - intros d r s'.
    destruct (moveEnemy_fields d r s') as (_ & _ & _ & _ & _ & E & _). lia.
  - intros r s'. destruct (steerProjectile_fields r s') as (-> & _). lia.
  - intros i' s'. simpl. lia.
  - intros i' s'. destruct (spawnCheck_fields i' s') as (-> & _). lia.
  - intros i' s'.
    destruct (completionCheck_fields i' s')
      as (_ & _ & _ & _ & _ & _ & E7 & _).
    injection E7 as -> _ _ _. lia.
Qed.

Lemma waveFrame_loops (d : Qc) (s : Scene) :
  waveFrame s (steerProjectiles (moveEnemies d (fireTowers s))).
Proof.
  apply (loops_rel waveFrame waveFrame_refl waveFrame_trans).
  - intros k s'. destruct (fireTower_fields k s') as (E1 & _ & E3).
    destruct (fireTower_frame k s') as (F1 & _).
    unfold waveFrame. rewrite E1, F1.
    injection E3 as E4 _ _ E5 E6 E7 E8 _ _.
    repeat split; congruence.
  - intros d' r s'.
    destruct (moveEnemy_fields d' r s') as (_ & _ & _ & _ & E5 & _ & E7 & E8).
    unfold waveFrame. rewrite E5.
    injection E7 as G1 G2 _ _ G5 _. injection E8 as E4 _ _ E9 E10 E11 E12 _.
    repeat split; congruence.
  - intros r s'.
    destruct (steerProjectile_fields r s')
      as (E1 & _ & _ & E4 & _ & _ & E8).
    unfold waveFrame. rewrite E1, E4.
    injection E8 as E5 _ _ E9 E10 E11 E12 _.
    repeat split; congruence.
Qed.

End TickFields.

(** ** The tick as a whole *)

Lemma forEach_from_lower {S : Type} (m : S -> Z) (arr : S -> list nat)
    (f : nat -> S -> S) :
  (forall r s, (m s - 1 <= m (f r s))%Z) ->
  forall n k s, (m s - Z.of_nat n <= m (forEach_from arr f n k s))%Z.
Proof.
  intros Hf n. induction n as [|n IH]; intros k s.
  - simpl. lia.
  - cbn [forEach_from]. specialize (IH (Datatypes.S k)).
    destruct (arr s !! k) as [r|].
    + specialize (IH (f r s)). specialize (Hf r s). lia.
    + specialize (IH s). lia.
Qed.

Lemma forEach_nil {S : Type} (arr : S -> list nat) (f : nat -> S -> S)
    (s : S) :
  arr s = [] -> forEach arr f s = s.
Proof. intros E. unfold forEach. now rewrite E. Qed.

Section WholeTick.
Context `{Host}.

Lemma lives_loops (d : Qc) (s : Scene) :
  (GameStats.lives (stats s) - Z.of_nat (length (enemies s))
   <= GameStats.lives (stats (steerProjectiles (moveEnemies d (fireTowers s)))))%Z.
Proof.
  assert (E1 : stats (fireTowers s) = stats s
               /\ enemies (fireTowers s) = enemies s).
  { unfold fireTowers.
    apply (forEach_inv (fun s' => stats s' = stats s
                                  /\ enemies s' = enemies s));
      [|now split].
    intros k s' [<- <-]. split; [apply fireTower_fields|apply fireTower_frame]. }
  destruct E1 as [E1 E2].
  assert (E3 : forall s', stats (steerProjectiles s') = stats s').
  { intros s'. unfold steerProjectiles.
    apply (forEach_inv (fun s'' => stats s'' = stats s')); [|reflexivity].
    intros r s'' <-. apply steerProjectile_fields. }
  rewrite E3, <- E1, <- E2. unfold moveEnemies, forEach.
  apply (forEach_from_lower (fun s' => GameStats.lives (stats s'))).
  intros r s'. apply moveEnemy_fields.
Qed.

(** X1.  A tick never gives a life back, and it takes at most one life
    for each enemy of the group, the one it may spawn included. *)
Theorem update_lives_bounds (i : Tick) (s : Scene) :
  (GameStats.lives (stats s) - Z.of_nat (length (enemies s)) - 1
   <= GameStats.lives (stats (update i s))
   <= GameStats.lives (stats s))%Z.
Proof.
  split; [|apply (livesLe_update i s)].
  rewrite update_code_order_eq. unfold update_code_order.
  set (s1 := spawnCheck i (advanceClock i s)).
  set (s2 := completionCheck i s1).
  pose proof (lives_loops (scaledDeltaOf i s) s2) as Hl.
  destruct (completionCheck_fields i s1)
    as (_ & _ & _ & E4 & _ & _ & E7 & _).
  injection E7 as E7 _ _ _. fold s2 in E4, E7.
  destruct (spawnCheck_fields i (advanceClock i s)) as (E1 & _).
  fold s1 in E1.
  assert (Hn : (length (enemies s1) <= Datatypes.S (length (enemies s)))%nat).
  { unfold s1, spawnCheck, spawnEnemy, advanceClock.
    match goal with
    | |- context [if ?c then _ else _] => destruct c
    end; [|simpl; lia].
    cbv zeta. simpl. destruct (path s) as [p|]; [|simpl; lia].
    destruct (getPoint p 0); simpl; rewrite ?length_app; simpl; lia. }
  rewrite E7, E1, E4 in Hl.
  cbn [advanceClock set_scaledTime stats] in Hl. lia.
Qed.

(** X2.  A tick leaves score, towerCount, gameSpeed, the time scale, the
    selected tower type, the selected tower, every configuration object
    and the number of towers as they are. *)
Theorem update_leaves_towers_and_score (i : Tick) (s : Scene) :
  GameStats.score (stats (update i s)) = GameStats.score (stats s)
  /\ GameStats.towerCount (stats (update i s))
     = GameStats.towerCount (stats s)
  /\ GameStats.gameSpeed (stats (update i s)) = GameStats.gameSpeed (stats s)
  /\ timeScale (update i s) = timeScale s
  /\ currentTowerType (update i s) = currentTowerType s
  /\ selectedTowerObject (update i s) = selectedTowerObject s
  /\ configObjs (update i s) = configObjs s
  /\ length (towers (update i s)) = length (towers s).
Proof.
  pose proof (tickFrame_update i s) as F.
  unfold tickFrame in F. exact F.
Qed.

Lemma waveFrame_tail (i : Tick) (s : Scene) :
  waveFrame (completionCheck i (spawnCheck i (advanceClock i s)))
    (update i s).
Proof.
  rewrite update_code_order_eq. unfold update_code_order.
  apply waveFrame_loops.
Qed.

(** X3.  A tick advances the scaled time by exactly delta times the time
    scale, whatever else happens in it; after [setGameSpeed m] that is
    delta times [m]. *)
Theorem update_advances_scaled_time (i : Tick) (s : Scene) :
  scaledTime (update i s) = scaledTime s + delta i * timeScale s
  /\ forall m,
     scaledTime (update i (setGameSpeed m s)) = scaledTime s + delta i * m
     /\ timeScale (update i (setGameSpeed m s)) = m
     /\ GameStats.gameSpeed (stats (update i (setGameSpeed m s))) = m.
Proof.
  assert (K : forall s', scaledTime (update i s')
                         = scaledTime s' + delta i * timeScale s').
  { intros s'. destruct (waveFrame_tail i s') as (-> & _).
    destruct (completionCheck_fields i (spawnCheck i (advanceClock i s')))
      as (_ & _ & _ & _ & _ & _ & _ & E8).
    injection E8 as _ _ _ _ -> _.
    destruct (spawnCheck_fields i (advanceClock i s'))
      as (_ & _ & _ & _ & _ & _ & E7).
    injection E7 as _ _ _ _ -> _. reflexivity. }
  split; [apply K|]. intros m. split; [|split].
  - rewrite K. reflexivity.
  - destruct (tickFrame_update i (setGameSpeed m s))
      as (_ & _ & _ & -> & _). reflexivity.
  - destruct (tickFrame_update i (setGameSpeed m s))
      as (_ & _ & -> & _). reflexivity.
Qed.

(** X4.  With no wave in progress, no tower, no enemy and no projectile
    in the groups, a tick only advances the clock. *)
Theorem update_idle (i : Tick) (s : Scene) :
  waveInProgress s = false ->
  towers s = [] -> enemies s = [] -> projectiles s = [] ->
  update i s = set_scaledTime (scaledTime s + delta i * timeScale s) s.
Proof.
  intros Hw Ht He Hp.
  rewrite update_code_order_eq.
  unfold update_code_order, advanceClock, scaledDeltaOf.
  set (s1 := set_scaledTime _ s).
  assert (E1 : spawnCheck i s1 = s1).
  { unfold spawnCheck. simpl. now rewrite Hw. }
  assert (E2 : completionCheck i s1 = s1).
  { unfold completionCheck, waveComplete. simpl. now rewrite Hw. }
  rewrite E1, E2.
  unfold steerProjectiles, moveEnemies, fireTowers.
  rewrite (forEach_nil towerRefs); [|unfold towerRefs; simpl; now rewrite Ht].
  rewrite (forEach_nil enemies); [|exact He].
  now rewrite (forEach_nil projectiles).
Qed.

(** X5.  While no wave is in progress a tick spawns nothing and changes
    neither level, gold, the wave flags, the path nor the spawn
    counters. *)
Theorem update_outside_wave (i : Tick) (s : Scene) :
  waveInProgress s = false ->
  waveInProgress (update i s) = false
  /\ GameStats.level (stats (update i s)) = GameStats.level (stats s)
  /\ GameStats.gold (stats (update i s)) = GameStats.gold (stats s)
  /\ GameStats.waveActive (stats (update i s))
     = GameStats.waveActive (stats s)
  /\ path (update i s) = path s
  /\ enemiesRemaining (update i s) = enemiesRemaining s
  /\ nextEnemyTime (update i s) = nextEnemyTime s
  /\ length (enemyObjs (update i s)) = length (enemyObjs s).
Proof.
  intros Hw.
  destruct (waveFrame_tail i s)
    as (_ & E2 & E3 & E4 & E5 & E6 & E7 & E8 & E9).
  assert (E : completionCheck i (spawnCheck i (advanceClock i s))
              = advanceClock i s).
  { assert (E1 : spawnCheck i (advanceClock i s) = advanceClock i s).
    { unfold spawnCheck. simpl. now rewrite Hw. }
    rewrite E1. unfold completionCheck, waveComplete. simpl.
    now rewrite Hw. }
  rewrite E in E2, E3, E4, E5, E6, E7, E8, E9.
  cbn [advanceClock set_scaledTime stats path enemiesRemaining
       nextEnemyTime waveInProgress enemyObjs] in E2, E3, E4, E5, E6, E7,
    E8, E9.
  rewrite E2, E3, E4, E5, E6, E7, E8, E9. now repeat split.
Qed.

End WholeTick.

Lemma update_idle_witness :
  @update demoHost tick16 scene0
  = set_scaledTime (scaledTime scene0 + delta tick16 * timeScale scene0)
      scene0.
Proof.
  apply (@update_idle demoHost tick16 scene0); reflexivity.
Defined.

Lemma update_outside_wave_witness :
  GameStats.level (stats (@update demoHost tick16 sceneStale)) = 1%Z
  /\ path (@update demoHost tick16 sceneStale) = path sceneStale.
Proof.
  destruct (@update_outside_wave demoHost tick16 sceneStale eq_refl)
    as (_ & Hl & _ & _ & Hp & _).
  split; [exact Hl | exact Hp].
Defined.

(** ** Spawning and level completion inside a tick *)

Lemma enemyChildren_elem (s : Scene) (r : nat) (e : Enemy.t) :
  (r, e) ∈ enemyChildren s <-> r ∈ enemies s /\ enemyObjs s !! r = Some e.
Proof.
  unfold enemyChildren. rewrite list_elem_of_omap. split.
  - intros (r' & Hin & Hl).
    destruct (enemyObjs s !! r') as [e'|] eqn:E; simpl in Hl; [|discriminate].
    injection Hl as -> ->. now split.
  - intros [Hin Hl]. exists r. split; [exact Hin|]. now rewrite Hl.
Qed.

Lemma countActive_pos (s : Scene) (r : nat) (e : Enemy.t) :
  r ∈ enemies s -> enemyObjs s !! r = Some e -> Enemy.active e = true ->
  countActive s <> 0%nat.
Proof.
  intros Hin Hl Ha. unfold countActive.
  assert (Hm : (r, e) ∈ List.filter (fun re => Enemy.active re.2)
                          (enemyChildren s)).
  { apply list_elem_of_In, filter_In. split; [|exact Ha].
    apply list_elem_of_In, enemyChildren_elem. now split. }
  destruct (List.filter _ _); [|simpl; lia].
  now apply elem_of_nil in Hm.
Qed.

Section SpawnAndLevel.
Context `{Host}.

(** X6.  A tick takes one from enemiesRemaining exactly when a wave is in
    progress, enemies remain and the advanced clock has passed
    nextEnemyTime; the counter never goes below zero from a value that
    is not; at most one enemy object is created, and none when there is
    no path, although the counter drops then too. *)
Theorem update_spawn_accounting (i : Tick) (s : Scene) :
  let due :=
    waveInProgress s && (0 <? enemiesRemaining s)%Z
    && (nextEnemyTime s <? scaledTime s + delta i * timeScale s) in
  enemiesRemaining (update i s)
  = (if due then enemiesRemaining s - 1 else enemiesRemaining s)%Z
  /\ ((0 <= enemiesRemaining s)%Z -> (0 <= enemiesRemaining (update i s))%Z)
  /\ (length (enemyObjs s) <= length (enemyObjs (update i s))
      <= Datatypes.S (length (enemyObjs s)))%nat
  /\ (due = false -> length (enemyObjs (update i s)) = length (enemyObjs s))
  /\ (path s = None -> length (enemyObjs (update i s)) = length (enemyObjs s)).
Proof.
  intros due.
  destruct (waveFrame_tail i s) as (_ & _ & _ & _ & _ & E6 & _ & _ & E9).
  destruct (completionCheck_fields i (spawnCheck i (advanceClock i s)))
    as (_ & _ & E3 & _ & _ & _ & _ & E8).
  injection E8 as _ _ _ E8 _ _.
  rewrite E6, E9, E8, E3. clear E6 E9 E8 E3.
  unfold spawnCheck, advanceClock, scaledDeltaOf, spawnEnemy. simpl.
  fold due. destruct due eqn:D; simpl.
  - assert (Dpos : (0 < enemiesRemaining s)%Z).
    { unfold due in D.
      apply andb_prop in D as [D _]. apply andb_prop in D as [_ D].
      now apply Z.ltb_lt in D. }
    destruct (path s) as [p|]; [destruct (getPoint p 0)|]; simpl;
      rewrite ?length_app; simpl;
      repeat split; try lia; try discriminate; auto.
  - repeat split; try lia; auto.
Qed.

(** X7.  A tick raises the level by one exactly when, after its spawn
    check, the wave is in progress with no enemy remaining to spawn and
    no active enemy in the group, and otherwise leaves it; in
    particular the level is not completed in a tick that starts with an
    active enemy in the group, even when that enemy reaches the core in
    this tick. *)
Theorem update_level_step (i : Tick) (s : Scene) :
  GameStats.level (stats (update i s))
  = (if waveComplete (spawnCheck i (advanceClock i s))
     then GameStats.level (stats s) + 1
     else GameStats.level (stats s))%Z
  /\ forall r e,
     r ∈ enemies s -> enemyObjs s !! r = Some e -> Enemy.active e = true ->
     GameStats.level (stats (update i s)) = GameStats.level (stats s)
     /\ waveInProgress (update i s) = waveInProgress s.
Proof.
  destruct (waveFrame_tail i s) as (_ & E2 & _ & _ & _ & _ & _ & E8 & _).
  rewrite E2, E8. clear E2 E8.
  destruct (spawnCheck_fields i (advanceClock i s))
    as (E1 & _ & _ & _ & _ & _ & E7).
  injection E7 as _ _ _ E7 _ _.
  assert (K : GameStats.level
                (stats (completionCheck i (spawnCheck i (advanceClock i s))))
              = (if waveComplete (spawnCheck i (advanceClock i s))
                 then GameStats.level (stats s) + 1
                 else GameStats.level (stats s))%Z).
  { unfold completionCheck, completeLevel.
    destruct (waveComplete _); [|now rewrite E1]. cbv zeta.
    destruct (30 <? _)%Z; simpl; now rewrite E1. }
  split; [exact K|]. intros r e Hin Hl Ha.
  assert (Hc : waveComplete (spawnCheck i (advanceClock i s)) = false).
  { unfold waveComplete.
    assert (Hn : countActive (spawnCheck i (advanceClock i s)) <> 0%nat).
    { apply (countActive_pos _ r e); [| |exact Ha].
      - unfold spawnCheck, spawnEnemy, advanceClock.
        match goal with
        | |- context [if ?c then _ else _] => destruct c
        end; [|exact Hin].
        cbv zeta. simpl. destruct (path s) as [p|]; [|exact Hin].
        destruct (getPoint p 0); simpl; [|exact Hin].
        apply elem_of_app. now left.
      - unfold spawnCheck, spawnEnemy, advanceClock.
        match goal with
        | |- context [if ?c then _ else _] => destruct c
        end; [|exact Hl].
        cbv zeta. simpl. destruct (path s) as [p|]; [|exact Hl].
        destruct (getPoint p 0); simpl; [|exact Hl].
        now apply lookup_app_l_Some. }
    apply Nat.eqb_neq in Hn. rewrite Hn. apply Bool.andb_false_r. }
  rewrite K, Hc. split; [reflexivity|].
  unfold completionCheck. rewrite Hc. exact E7.
Qed.

End SpawnAndLevel.

Lemma update_level_step_witness :
  GameStats.level (stats (@update demoHost tick16 sceneLastEnemy)) = 1%Z
  /\ waveInProgress (@update demoHost tick16 sceneLastEnemy) = true.
Proof.
  exact (proj2 (@update_level_step demoHost tick16 sceneLastEnemy) 0%nat _
           (list_elem_of_here _ _) eq_refl eq_refl).
Defined.

(** ** Hits: what a projectile and an enemy can take part in *)

Lemma remove_ref_elem (r r' : nat) (l : list nat) :
  r' <> r -> r' ∈ remove_ref r l <-> r' ∈ l.
Proof.
  intros Hne. induction l as [|a l IH]; simpl; [reflexivity|].
  destruct (Nat.eqb_spec r a) as [->|Hra].
  - rewrite elem_of_cons. split; [now right|]. intros [E|E]; [lia|exact E].
  - rewrite !elem_of_cons, IH. reflexivity.
Qed.

Lemma remove_ref_subset (r r' : nat) (l : list nat) :
  r' ∈ remove_ref r l -> r' ∈ l.
Proof.
  induction l as [|a l IH]; simpl; [auto|].
  destruct (Nat.eqb r a).
  - intros E. now right.
  - rewrite !elem_of_cons. intros [E|E]; [now left|right; auto].
Qed.

Lemma remove_ref_NoDup (r : nat) (l : list nat) :
  NoDup l -> NoDup (remove_ref r l) /\ r ∉ remove_ref r l.
Proof.
  induction 1 as [|a l Ha Hnd [IH1 IH2]]; simpl.
  - split; [constructor|apply not_elem_of_nil].
  - destruct (Nat.eqb_spec r a) as [->|Hra].
    + now split.
    + split.
      * constructor; [|exact IH1].
        intros Hin. apply Ha. now apply remove_ref_subset in Hin.
      * rewrite elem_of_cons. intros [E|E]; [lia|now apply IH2].
Qed.

Lemma projectileObjs_destroyEnemy (r : nat) (s : Scene) :
  projectileObjs (destroyEnemy r s) = projectileObjs s.
Proof. apply destroyEnemy_fields. Qed.

(** The projectile object after a hit that is resolved. *)
Lemma handleHit_projectile (pr er : nat) (s : Scene) (p : Projectile.t)
    (e : Enemy.t) :
  projectileObjs s !! pr = Some p ->
  enemyObjs s !! er = Some e ->
  Projectile.active p = true ->
  Enemy.active e = true ->
  projectileObjs (handleHit pr er s) !! pr
  = Some (set_projectile_active false p)
  /\ projectiles (handleHit pr er s) = remove_ref pr (projectiles s).
Proof.
  intros Hp He Ap Ae. unfold handleHit. rewrite Hp, He, Ap, Ae. simpl.
  pose proof (lookup_lt_Some _ _ _ Hp) as Hlt.
  assert (K : forall s0,
             projectileObjs s0 = projectileObjs s ->
             projectiles s0 = projectiles s ->
             projectileObjs (destroyProjectile pr s0) !! pr
             = Some (set_projectile_active false p)
             /\ projectiles (destroyProjectile pr s0)
                = remove_ref pr (projectiles s)).
  { intros s0 E1 E2. unfold destroyProjectile. rewrite E1, Hp.
    cbn [projectileObjs projectiles set_projectiles set_projectileObjs].
    rewrite E2. split; [|reflexivity].
    now apply list_lookup_insert_eq. }
  destruct (_ <=? 0).
  - match goal with
    | |- context [destroyEnemy er ?a] =>
        destruct (destroyEnemy_fields er a) as (_ & _ & _ & E4 & E5 & _)
    end.
    rewrite E4, E5. simpl. now apply K.
  - now apply K.
Qed.

Lemma resistanceFactor_nonneg (a : EnemyArchetype) (source : string) :
  0 <= resistanceFactor a source.
Proof.
  unfold resistanceFactor.
  destruct a; try (apply Qc_leb_le; reflexivity);
    destruct (String.eqb source "rapid");
    try (apply Qc_leb_le; reflexivity);
    destruct (String.eqb source "sniper"); apply Qc_leb_le; reflexivity.
Qed.

Lemma Qc_leb_gt (a b : Qc) : (a <=? b) = false <-> b < a.
Proof.
  rewrite <- Bool.not_true_iff_false, Qc_leb_le. split.
  - apply Qcnot_le_lt.
  - apply Qclt_not_le.
Qed.

Lemma Qc_sub_le (a b : Qc) : 0 <= b -> a - b <= a.
Proof.
  intros Hb. apply Qcle_minus_iff.
  replace (a + - (a - b)) with b by ring. exact Hb.
Qed.

(** X8.  Resolving the same hit twice is resolving it once, and a
    projectile that has resolved a hit resolves no other: it is out of
    its group, inactive, and every later hit it takes part in changes
    nothing. *)
Theorem handleHit_spends_projectile (pr er : nat) (s : Scene) :
  handleHit pr er (handleHit pr er s) = handleHit pr er s
  /\ forall p e,
     projectileObjs s !! pr = Some p ->
     enemyObjs s !! er = Some e ->
     Projectile.active p = true ->
     Enemy.active e = true ->
     Projectile.active <$> projectileObjs (handleHit pr er s) !! pr
     = Some false
     /\ (NoDup (projectiles s) -> pr ∉ projectiles (handleHit pr er s))
     /\ forall er', handleHit pr er' (handleHit pr er s) = handleHit pr er s.
Proof.
  assert (K : forall p e,
             projectileObjs s !! pr = Some p ->
             enemyObjs s !! er = Some e ->
             Projectile.active p = true ->
             Enemy.active e = true ->
             forall er', handleHit pr er' (handleHit pr er s)
                         = handleHit pr er s).
  { intros p e Hp He Ap Ae er'.
    destruct (handleHit_projectile pr er s p e Hp He Ap Ae) as [Hl _].
    unfold handleHit at 1. rewrite Hl.
    destruct (enemyObjs (handleHit pr er s) !! er'); reflexivity. }
  split.
  - destruct (projectileObjs s !! pr) as [p|] eqn:Hp.
    2:{ assert (E : handleHit pr er s = s)
          by (unfold handleHit; now rewrite Hp).
        now rewrite !E. }
    destruct (enemyObjs s !! er) as [e|] eqn:He.
    2:{ assert (E : handleHit pr er s = s)
          by (unfold handleHit; now rewrite Hp, He).
        now rewrite !E. }
    destruct (Projectile.active p) eqn:Ap;
      [|rewrite (handleHit_inactive pr er s p e Hp He (or_introl Ap));
        apply (handleHit_inactive pr er s p e Hp He (or_introl Ap))].
    destruct (Enemy.active e) eqn:Ae;
      [|rewrite (handleHit_inactive pr er s p e Hp He (or_intror Ae));
        apply (handleHit_inactive pr er s p e Hp He (or_intror Ae))].
    now apply (K p e).
  - intros p e Hp He Ap Ae.
    destruct (handleHit_projectile pr er s p e Hp He Ap Ae) as [Hl Hg].
    split; [now rewrite Hl|]. split; [|now apply (K p e)].
    intros Hnd. rewrite Hg. now apply remove_ref_NoDup.
Qed.

Lemma handleHit_spends_projectile_witness :
  handleHit 0 1 (handleHit 0 0 (sceneHit "rapid" (num 100)))
  = handleHit 0 0 (sceneHit "rapid" (num 100)).
Proof.
  exact (proj2 (proj2 (proj2 (handleHit_spends_projectile 0 0
                                (sceneHit "rapid" (num 100)))
                         (mkProjectile "rapid" true)
                         (mkEnemy GOLIATH (num 100) (num 0.5) (num 400)
                            (num 300) true)
                         eq_refl eq_refl eq_refl eq_refl)) 1%nat).
Defined.

(** X9.  An enemy that a hit has killed is rewarded once: it is inactive
    and out of its group, and every later hit on it, by any projectile,
    changes nothing. *)
Theorem handleHit_kills_once (pr er : nat) (s : Scene) (p : Projectile.t)
    (e : Enemy.t) :
  projectileObjs s !! pr = Some p ->
  enemyObjs s !! er = Some e ->
  Projectile.active p = true ->
  Enemy.active e = true ->
  Enemy.hp e - finalDamage p e <= 0 ->
  Enemy.active <$> enemyObjs (handleHit pr er s) !! er = Some false
  /\ (NoDup (enemies s) -> er ∉ enemies (handleHit pr er s))
  /\ forall pr', handleHit pr' er (handleHit pr er s) = handleHit pr er s.
Proof.
  intros Hp He Ap Ae K.
  pose proof (handleHit_enemy pr er s p e Hp He Ap Ae) as Hl.
  apply Qc_leb_le in K. rewrite K in Hl. simpl in Hl.
  split; [now rewrite Hl|]. split.
  - intros Hnd. unfold handleHit. rewrite Hp, He, Ap, Ae. simpl.
    rewrite K. unfold destroyEnemy, onStatsUpdate, emit. simpl.
    rewrite enemyObjs_destroyProjectile. simpl.
    rewrite list_lookup_insert_eq by (now apply lookup_lt_Some in He).
    simpl.
    destruct (destroyProjectile_fields pr
                (set_enemyObjs
                   (<[er := set_enemy_hp (Enemy.hp e - finalDamage p e) e]>
                      (enemyObjs s)) s)) as (_ & _ & _ & _ & -> & _).
    simpl. now apply remove_ref_NoDup.
  - intros pr'. unfold handleHit at 1. rewrite Hl.
    destruct (projectileObjs (handleHit pr er s) !! pr'); [|reflexivity].
    simpl. now rewrite Bool.orb_true_r.
Qed.

Lemma handleHit_kills_once_witness :
  handleHit 1 0 (handleHit 0 0 (sceneHit "rapid" (num 4)))
  = handleHit 0 0 (sceneHit "rapid" (num 4)).
Proof.
  assert (K : num 4 - num 5 <= 0) by (apply Qc_leb_le; reflexivity).
  refine (proj2 (proj2 (handleHit_kills_once 0 0 (sceneHit "rapid" (num 4))
                          (mkProjectile "rapid" true)
                          (mkEnemy GOLIATH (num 4) (num 0.5) (num 400)
                             (num 300) true)
                          eq_refl eq_refl eq_refl eq_refl _)) 1%nat).
  simpl. unfold finalDamage. simpl. rewrite num_10_half. exact K.
Defined.

(** X10.  A hit that leaves the enemy with positive hp changes nothing
    but that enemy's hp and the projectile: statistics, the callbacks
    made and the enemy group stay as they are, and the enemy stays
    active. *)
Theorem handleHit_survived (pr er : nat) (s : Scene) (p : Projectile.t)
    (e : Enemy.t) :
  projectileObjs s !! pr = Some p ->
  enemyObjs s !! er = Some e ->
  Projectile.active p = true ->
  Enemy.active e = true ->
  0 < Enemy.hp e - finalDamage p e ->
  stats (handleHit pr er s) = stats s
  /\ emitted (handleHit pr er s) = emitted s
  /\ enemies (handleHit pr er s) = enemies s
  /\ enemyObjs (handleHit pr er s)
     = <[er := set_enemy_hp (Enemy.hp e - finalDamage p e) e]> (enemyObjs s)
  /\ towers (handleHit pr er s) = towers s
  /\ configObjs (handleHit pr er s) = configObjs s.
Proof.
  intros Hp He Ap Ae K. apply Qc_leb_gt in K.
  unfold handleHit. rewrite Hp, He, Ap, Ae. simpl. rewrite K.
  destruct (destroyProjectile_fields pr
              (set_enemyObjs
                 (<[er := set_enemy_hp (Enemy.hp e - finalDamage p e) e]>
                    (enemyObjs s)) s))
    as (E1 & E2 & E3 & E4 & E5 & E6 & _).
  rewrite E1, E2, E3, E4, E5, E6. now repeat split.
Qed.

Lemma handleHit_survived_witness :
  stats (handleHit 0 0 (sceneHit "rapid" (num 100)))
  = stats (sceneHit "rapid" (num 100))
  /\ enemies (handleHit 0 0 (sceneHit "rapid" (num 100))) = [0%nat].
Proof.
  assert (K : 0 < num 100 - num 5) by (apply Qc_ltb_lt; reflexivity).
  destruct (handleHit_survived 0 0 (sceneHit "rapid" (num 100))
              (mkProjectile "rapid" true)
              (mkEnemy GOLIATH (num 100) (num 0.5) (num 400) (num 300) true)
              eq_refl eq_refl eq_refl eq_refl) as (Hs & _ & He & _).
  - simpl. unfold finalDamage. simpl. rewrite num_10_half. exact K.
  - split; [exact Hs | exact He].
Defined.

(** X11.  With a projectile of non-negative damage a hit raises no
    enemy's hp, changes no enemy's maxHp, and leaves every enemy but the
    one hit exactly as it was. *)
Theorem handleHit_never_heals (pr er : nat) (s : Scene) (p : Projectile.t) :
  projectileObjs s !! pr = Some p ->
  0 <= Projectile.damage p ->
  forall r e0,
    enemyObjs s !! r = Some e0 ->
    exists e1,
      enemyObjs (handleHit pr er s) !! r = Some e1
      /\ Enemy.hp e1 <= Enemy.hp e0
      /\ Enemy.maxHp e1 = Enemy.maxHp e0
      /\ (r <> er -> e1 = e0).
Proof.
  intros Hp Hd r e0 Hr.
  destruct (enemyObjs s !! er) as [e|] eqn:He.
  2:{ exists e0. unfold handleHit. rewrite Hp, He.
      split; [exact Hr|]. split; [apply Qcle_refl|]. now split. }
  destruct (Projectile.active p) eqn:Ap.
  2:{ exists e0. rewrite (handleHit_inactive pr er s p e Hp He (or_introl Ap)).
      split; [exact Hr|]. split; [apply Qcle_refl|]. now split. }
  destruct (Enemy.active e) eqn:Ae.
  2:{ exists e0. rewrite (handleHit_inactive pr er s p e Hp He (or_intror Ae)).
      split; [exact Hr|]. split; [apply Qcle_refl|]. now split. }
  destruct (decide (r = er)) as [->|Hne].
  - rewrite He in Hr. injection Hr as <-.
    eexists. split; [apply (handleHit_enemy pr er s p e Hp He Ap Ae)|].
    simpl. split; [|split; [reflexivity|congruence]].
    apply Qc_sub_le. rewrite finalDamage_factor.
    apply Qcmult_nonneg_nonneg; [exact Hd|apply resistanceFactor_nonneg].
  - exists e0. split; [|split; [apply Qcle_refl|now split]].
    unfold handleHit. rewrite Hp, He, Ap, Ae. simpl.
    destruct (_ <=? 0).
    + unfold destroyEnemy, onStatsUpdate, emit. simpl.
      rewrite enemyObjs_destroyProjectile. simpl.
      rewrite list_lookup_insert_eq by (now apply lookup_lt_Some in He).
      simpl. rewrite !list_lookup_insert_ne by congruence. exact Hr.
    + rewrite enemyObjs_destroyProjectile. simpl.
      rewrite list_lookup_insert_ne by congruence. exact Hr.
Qed.

Lemma handleHit_never_heals_witness :
  exists e1,
    enemyObjs (handleHit 0 0 (sceneHit "sniper" (num 100))) !! 0%nat
    = Some e1
    /\ Enemy.hp e1 <= num 100.
Proof.
  assert (K : 0 <= num 10) by (apply Qc_leb_le; reflexivity).
  destruct (handleHit_never_heals 0 0 (sceneHit "sniper" (num 100))
              (mkProjectile "sniper" true) eq_refl K 0%nat _ eq_refl)
    as (e1 & Hl & Hle & _).
  exists e1. split; [exact Hl | exact Hle].
Defined.

(** ** Placement: gold, distance to the path, tower ids *)

Lemma existsb_false_In {A : Type} (f : A -> bool) (l : list A) (x : A) :
  existsb f l = false -> In x l -> f x = false.
Proof.
  induction l as [|a l IH]; simpl; [tauto|].
  intros E [->|Hin]; apply Bool.orb_false_elim in E as [E1 E2]; auto.
Qed.

Section PlacementMore.
Context `{Host}.

(** X12.  Placing never takes gold below zero: gold that is not negative
    before a placement attempt is not negative after it, and a tower of
    non-negative cost never adds gold. *)
Theorem placeTower_keeps_gold_nonneg (x y : Qc) (now : string) (s : Scene) :
  (0 <= GameStats.gold (stats s) ->
   0 <= GameStats.gold (stats (placeTower x y now s)))
  /\ ((forall type cfg,
         currentTowerType s = Some type -> configObjs s !! type = Some cfg ->
         0 <= TowerConfig.cost cfg) ->
      GameStats.gold (stats (placeTower x y now s))
      <= GameStats.gold (stats s)).
Proof.
  unfold placeTower.
  destruct (currentTowerType s) as [type|];
    [|split; intros; [assumption|apply Qcle_refl]].
  destruct (configObjs s !! type) as [cfg|] eqn:Hcfg;
    [|split; intros; [assumption|apply Qcle_refl]].
  destruct (_ <? _) eqn:G; [split; intros; [assumption|apply Qcle_refl]|].
  destruct (checkPathProximity s x y);
    [split; intros; [assumption|apply Qcle_refl]|].
  apply Qc_ltb_ge in G. simpl. split.
  - intros _. apply Qcle_minus_iff in G. exact G.
  - intros Hc. apply Qc_sub_le. now apply (Hc type cfg).
Qed.

(** X13.  A placement that changes the scene adds a tower at the point
    asked for, and that tower stands at distance at least 35 from every
    point of the path that the proximity loop samples (the 200 values of
    [proximitySamples]). *)
Theorem placeTower_keeps_off_path (x y : Qc) (now : string) (s : Scene)
    (p : Path) :
  path s = Some p ->
  placeTower x y now s <> s ->
  exists tower,
    towers (placeTower x y now s) = towers s ++ [tower]
    /\ Tower.x tower = x /\ Tower.y tower = y
    /\ path (placeTower x y now s) = Some p
    /\ forall (t : Qc) (pt : Point),
       t ∈ proximitySamples ->
       getPoint p t = Some pt ->
       num 35 * num 35
       <= dist2 (Tower.x tower) (Tower.y tower) pt.1 pt.2.
Proof.
  intros Hp Hne.
  assert (Hc : checkPathProximity s x y = false).
  { destruct (checkPathProximity s x y) eqn:E; [|reflexivity].
    exfalso. apply Hne. unfold placeTower.
    destruct (currentTowerType s); [|reflexivity].
    destruct (configObjs s !! _); [|reflexivity].
    rewrite E. now destruct (_ <? _). }
  unfold placeTower in *.
  destruct (currentTowerType s) as [type|]; [|now contradiction Hne].
  destruct (configObjs s !! type) as [cfg|]; [|now contradiction Hne].
  destruct (GameStats.gold (stats s) <? TowerConfig.cost cfg);
    [now contradiction Hne|].
  rewrite Hc. cbv zeta.
  eexists. split; [reflexivity|]. split; [reflexivity|].
  split; [reflexivity|]. split; [exact Hp|].
  intros t pt Hin Hpt. cbn [Tower.x Tower.y].
  unfold checkPathProximity in Hc. rewrite Hp in Hc.
  apply list_elem_of_In in Hin.
  pose proof (existsb_false_In _ _ t Hc Hin) as Hf. simpl in Hf.
  rewrite Hpt in Hf. unfold dist_lt in Hf.
  change (0 <? num 35) with true in Hf. simpl in Hf.
  now apply Qc_ltb_ge in Hf.
Qed.

End PlacementMore.

(** The tower placed 34.75 below the end of the path, and the last point
    the loop samples, about 4.25 short of that end. *)
Lemma placeTower_keeps_off_path_witness :
  exists tower t pt,
    towers (@placeTower demoHost (num 800) (num 334.75) "1700000000000"
              sceneShop) = [tower]
    /\ (Tower.x tower, Tower.y tower) = (num 800, num 334.75)
    /\ proximitySamples !! 199%nat = Some t
    /\ lerpPoint [(- num 50, num 300); (num 800, num 300)] t = Some pt
    /\ num 35 * num 35 <= dist2 (Tower.x tower) (Tower.y tower) pt.1 pt.2.
Proof.
  assert (Hne : @placeTower demoHost (num 800) (num 334.75) "1700000000000"
                  sceneShop <> sceneShop).
  { intros E. apply (f_equal (fun s => length (towers s))) in E.
    vm_compute in E. discriminate E. }
  destruct (@placeTower_keeps_off_path demoHost (num 800) (num 334.75)
              "1700000000000" sceneShop _ eq_refl Hne)
    as (tower & Htw & Hx & Hy & _ & Hall).
  destruct (proximitySamples !! 199%nat) as [t|] eqn:Ht;
    [|vm_compute in Ht; discriminate Ht].
  destruct (lerpPoint [(- num 50, num 300); (num 800, num 300)] t)
    as [pt|] eqn:Hpt.
  - exists tower, t, pt.
    split; [exact Htw|]. split; [now rewrite Hx, Hy|].
    split; [reflexivity|]. split; [exact Hpt|].
    apply (Hall t pt); [|exact Hpt].
    apply (list_elem_of_lookup_2 _ 199%nat). exact Ht.
  - exfalso. revert Ht Hpt. generalize t. clear.
    assert (E : forallb
                  (fun t => match lerpPoint
                                    [(- num 50, num 300); (num 800, num 300)]
                                    t
                            with Some _ => true | None => false end)
                  proximitySamples = true) by (vm_compute; reflexivity).
    intros t Ht Hpt. rewrite forallb_forall in E.
    specialize (E t (proj1 (list_elem_of_In _ _)
                       (list_elem_of_lookup_2 _ 199%nat _ Ht))).
    rewrite Hpt in E. discriminate E.
Defined.

(** Towers that share an id: only the first can be reached by id. *)
Lemma findTower_first (tid : string) (s : Scene) (j : nat) (w1 : Tower.t) :
  towers s !! j = Some w1 -> Tower.id w1 = tid ->
  exists i w, findTower tid s = Some (i, w) /\ (i <= j)%nat
              /\ (i = j -> w = w1).
Proof.
  intros Hj Hid. unfold findTower.
  destruct (list_find_elem_of (fun w => Tower.id w = tid) (towers s) w1)
    as [[i w] Hf]; [apply list_elem_of_lookup; eauto|exact Hid|].
  exists i, w. split; [exact Hf|].
  apply list_find_Some in Hf as (Hi & _ & Hmin). split.
  - destruct (le_lt_dec i j) as [Hle|Hlt]; [exact Hle|].
    exfalso. now apply (Hmin j w1 Hj Hlt).
  - intros ->. congruence.
Qed.

Lemma upgradeTower_towers (tid : string) (s : Scene) (i : nat) (w : Tower.t) :
  findTower tid s = Some (i, w) ->
  towers (upgradeTower tid s) = <[i := upgradedTower w]> (towers s).
Proof.
  intros Hf. unfold upgradeTower. rewrite Hf.
  rewrite towers_selectTower. now destruct (configObjs _ !! _).
Qed.

Lemma updateTowerPriority_towers (tid : string) (prio : TargetingPriority)
    (s : Scene) (i : nat) (w : Tower.t) :
  findTower tid s = Some (i, w) ->
  towers (updateTowerPriority tid prio s)
  = <[i := set_tower_targetingPriority prio w]> (towers s).
Proof.
  intros Hf. unfold updateTowerPriority. rewrite Hf. cbv zeta.
  destruct (selectedTowerObject _ ≫= _) as [sel|]; [|reflexivity].
  destruct (String.eqb _ _); [|reflexivity].
  now rewrite towers_selectTower.
Qed.

Lemma shadowed_step (f : Scene -> Scene) (mk : Tower.t -> Tower.t)
    (tid : string) (s : Scene) (j k : nat) (w2 : Tower.t) :
  (forall i w, findTower tid s = Some (i, w) ->
               towers (f s) = <[i := mk w]> (towers s)) ->
  (forall w, Tower.id (mk w) = Tower.id w) ->
  (j < k)%nat ->
  (exists w1, towers s !! j = Some w1 /\ Tower.id w1 = tid) ->
  towers s !! k = Some w2 ->
  (exists w1, towers (f s) !! j = Some w1 /\ Tower.id w1 = tid)
  /\ towers (f s) !! k = Some w2.
Proof.
  intros Hf Hmk Hjk (w1 & Hj & Hid) Hk.
  destruct (findTower_first tid s j w1 Hj Hid) as (i & w & Hfind & Hi & Hw).
  rewrite (Hf i w Hfind). split.
  - destruct (decide (i = j)) as [->|Hne].
    + exists (mk w). rewrite list_lookup_insert_eq
        by (now apply lookup_lt_Some in Hj).
      split; [reflexivity|]. rewrite Hmk, (Hw eq_refl). exact Hid.
    + exists w1. now rewrite list_lookup_insert_ne.
  - rewrite list_lookup_insert_ne by lia. exact Hk.
Qed.

(** X14.  When two towers carry the same id (ids are "tower-" followed
    by the clock reading of the placement), upgrades and priority
    changes by that id only ever reach the earlier one: the later tower
    stays exactly as it is, however often they are applied. *)
Theorem same_id_shadows_later_tower (tid : string) (s : Scene) (j k : nat)
    (w1 w2 : Tower.t) :
  (j < k)%nat ->
  towers s !! j = Some w1 -> Tower.id w1 = tid ->
  towers s !! k = Some w2 -> Tower.id w2 = tid ->
  (forall N, towers (Nat.iter N (upgradeTower tid) s) !! k = Some w2)
  /\ (forall prio, towers (updateTowerPriority tid prio s) !! k = Some w2).
Proof.
  intros Hjk Hj Hid1 Hk Hid2. split.
  - intros N.
    assert (K : (exists w, towers (Nat.iter N (upgradeTower tid) s) !! j
                           = Some w /\ Tower.id w = tid)
                /\ towers (Nat.iter N (upgradeTower tid) s) !! k = Some w2).
    { induction N as [|N [IH1 IH2]]; simpl.
      - split; [now exists w1|exact Hk].
      - apply (shadowed_step (upgradeTower tid) upgradedTower tid);
          try assumption.
        + intros i w. apply upgradeTower_towers.
        + reflexivity. }
    apply K.
  - intros prio.
    apply (shadowed_step (updateTowerPriority tid prio)
             (set_tower_targetingPriority prio) tid s j k w2);
      try assumption.
    + intros i w. apply updateTowerPriority_towers.
    + reflexivity.
    + now exists w1.
Qed.

Lemma same_id_shadows_later_tower_witness :
  Tower.level <$> towers (Nat.iter 3 (upgradeTower "tower-1700000000000")
                            sceneTwins) !! 1%nat
  = Some 1%Z.
Proof.
  assert (H0 : towers sceneTwins !! 0%nat
               = Some (Tower.mk "tower-1700000000000" (num 400) (num 100)
                         1 3 FIRST 0)) by (vm_compute; reflexivity).
  assert (H1 : towers sceneTwins !! 1%nat
               = Some (Tower.mk "tower-1700000000000" (num 500) (num 100)
                         1 4 FIRST 0)) by (vm_compute; reflexivity).
  rewrite (proj1 (same_id_shadows_later_tower "tower-1700000000000"
                    sceneTwins 0 1 _ _ (Nat.lt_0_1) H0 eq_refl H1 eq_refl)
             3%nat).
  reflexivity.
Defined.

Lemma placeTower_keeps_gold_nonneg_witness :
  0 <= GameStats.gold
         (stats (@placeTower demoHost (num 400) (num 100) "1700000000000"
                   sceneShop)).
Proof.
  apply (proj1 (@placeTower_keeps_gold_nonneg demoHost (num 400) (num 100)
                  "1700000000000" sceneShop)).
  apply Qc_leb_le. reflexivity.
Defined.

(** ** Targeting: the other priorities, and ties *)

(** Where the last one standing of a [reduce] sits: everything after it
    lost against it. *)
Lemma fold_keep_position {A : Type} (keep : A -> A -> bool) (l : list A)
    (a : A) :
  exists l1 l2,
    a :: l
    = l1 ++ fold_left (fun prev curr => if keep prev curr then prev else curr)
              l a :: l2
    /\ Forall (fun x =>
                 keep (fold_left
                         (fun prev curr => if keep prev curr then prev else curr)
                         l a) x = true) l2.
Proof.
  revert a. induction l as [|b l IH]; intros a; simpl.
  - exists [], []. split; [reflexivity|constructor].
  - destruct (keep a b) eqn:K.
    + destruct (IH a) as (l1 & l2 & E & Hall).
      remember (fold_left
                  (fun prev curr => if keep prev curr then prev else curr)
                  l a) as r eqn:Hr.
      clear Hr. destruct l1 as [|x l1]; simpl in E.
      * injection E as E1 E2. subst r l2. exists [], (b :: l).
        split; [reflexivity|]. now constructor.
      * injection E as E1 E2. subst x l. exists (a :: b :: l1), l2.
        split; [reflexivity|exact Hall].
    + destruct (IH b) as (l1 & l2 & E & Hall).
      exists (a :: l1), l2. split; [simpl; now rewrite E|exact Hall].
Qed.

Lemma reduce_position {A : Type} (keep : A -> A -> bool) (l : list A)
    (r : A) :
  reduce keep l = Some r ->
  exists l1 l2, l = l1 ++ r :: l2 /\ Forall (fun x => keep r x = true) l2.
Proof.
  destruct l as [|a l]; simpl; [discriminate|].
  intros E. injection E as <-. apply fold_keep_position.
Qed.

Lemma getPriorityTarget_first (s : Scene) (tower : Tower.t)
    (cfg : TowerConfig.t) :
  configObjs s !! Tower.config tower = Some cfg ->
  inRange s tower cfg <> [] ->
  Tower.targetingPriority tower = FIRST ->
  exists re,
    getPriorityTarget s tower = Some re
    /\ re ∈ inRange s tower cfg
    /\ forall re', re' ∈ inRange s tower cfg ->
       Enemy.t_ re'.2 <= Enemy.t_ re.2.
Proof.
  intros Hc Hne Hp. unfold getPriorityTarget. rewrite Hc, Hp.
  destruct (Nat.eqb _ 0) eqn:E.
  { apply inRange_nil_length in E. contradiction. }
  apply (reduce_least _ (fun a b => Enemy.t_ b.2 <= Enemy.t_ a.2));
    try assumption.
  - intros a. apply Qcle_refl.
  - intros a b c Hab Hbc. now apply Qcle_trans with (Enemy.t_ b.2).
  - intros a b K. apply Qc_ltb_lt in K. now apply Qclt_le_weak.
  - intros a b K. now apply Qc_ltb_ge in K.
Qed.

Lemma getPriorityTarget_closest (s : Scene) (tower : Tower.t)
    (cfg : TowerConfig.t) :
  configObjs s !! Tower.config tower = Some cfg ->
  inRange s tower cfg <> [] ->
  Tower.targetingPriority tower = CLOSEST ->
  exists re,
    getPriorityTarget s tower = Some re
    /\ re ∈ inRange s tower cfg
    /\ forall re', re' ∈ inRange s tower cfg ->
       dist2 (Tower.x tower) (Tower.y tower) (Enemy.x re.2) (Enemy.y re.2)
       <= dist2 (Tower.x tower) (Tower.y tower) (Enemy.x re'.2)
            (Enemy.y re'.2).
Proof.
  intros Hc Hne Hp. unfold getPriorityTarget. rewrite Hc, Hp.
  destruct (Nat.eqb _ 0) eqn:E.
  { apply inRange_nil_length in E. contradiction. }
  apply (reduce_least _
           (fun a b =>
              dist2 (Tower.x tower) (Tower.y tower) (Enemy.x a.2)
                (Enemy.y a.2)
              <= dist2 (Tower.x tower) (Tower.y tower) (Enemy.x b.2)
                   (Enemy.y b.2)));
    try assumption.
  - intros a. apply Qcle_refl.
  - intros a b c. apply Qcle_trans.
  - intros a b K. apply Qc_ltb_lt in K. now apply Qclt_le_weak.
  - intros a b K. now apply Qc_ltb_ge in K.
Qed.

(** X15.  With priority FIRST the target is an in-range active enemy of
    greatest progress [t], and with CLOSEST one at least distance from
    the tower. *)
Theorem getPriorityTarget_first_and_closest (s : Scene) (tower : Tower.t)
    (cfg : TowerConfig.t) :
  configObjs s !! Tower.config tower = Some cfg ->
  inRange s tower cfg <> [] ->
  (Tower.targetingPriority tower = FIRST ->
   exists re,
     getPriorityTarget s tower = Some re
     /\ re ∈ inRange s tower cfg
     /\ forall re', re' ∈ inRange s tower cfg ->
        Enemy.t_ re'.2 <= Enemy.t_ re.2)
  /\ (Tower.targetingPriority tower = CLOSEST ->
      exists re,
        getPriorityTarget s tower = Some re
        /\ re ∈ inRange s tower cfg
        /\ forall re', re' ∈ inRange s tower cfg ->
           dist2 (Tower.x tower) (Tower.y tower) (Enemy.x re.2)
             (Enemy.y re.2)
           <= dist2 (Tower.x tower) (Tower.y tower) (Enemy.x re'.2)
                (Enemy.y re'.2)).
Proof.
  intros Hc Hne. split; intros Hp.
  - now apply (getPriorityTarget_first s tower cfg).
  - now apply (getPriorityTarget_closest s tower cfg).
Qed.

Lemma getPriorityTarget_first_and_closest_witness :
  (exists re,
     getPriorityTarget (sceneThree FIRST) (watchTower FIRST) = Some re
     /\ forall re',
        re' ∈ [(0%nat, enemy30); (1%nat, enemy10); (2%nat, enemy50)] ->
        Enemy.t_ re'.2 <= Enemy.t_ re.2)
  /\ exists re,
       getPriorityTarget (sceneThree CLOSEST) (watchTower CLOSEST) = Some re
       /\ re ∈ [(0%nat, enemy30); (1%nat, enemy10); (2%nat, enemy50)].
Proof.
  assert (Hne : forall prio,
             inRange (sceneThree prio) (watchTower prio)
               (TowerConfig.mk "basic" "Striker" (num 100) (num 10)
                  (num 150) (num 800) 0x3b82f6
                  "Reliable all-rounder. No special properties.")
             <> []).
  { intros prio. destruct prio; discriminate. }
  destruct (getPriorityTarget_first_and_closest (sceneThree FIRST)
              (watchTower FIRST) _ eq_refl (Hne FIRST)) as [Hf _].
  destruct (getPriorityTarget_first_and_closest (sceneThree CLOSEST)
              (watchTower CLOSEST) _ eq_refl (Hne CLOSEST)) as [_ Hcl].
  destruct (Hf eq_refl) as (re & H1 & _ & H3).
  destruct (Hcl eq_refl) as (re' & H1' & H2' & _).
  split; [exists re|exists re']; split; assumption.
Defined.

(** X16.  Ties go to the later enemy: whatever the priority, every
    in-range enemy that comes after the chosen one in the group is
    strictly worse than it (more hp for WEAKEST, less hp for STRONGEST,
    less progress for FIRST, farther away for CLOSEST). *)
Theorem getPriorityTarget_ties_go_to_later (s : Scene) (tower : Tower.t)
    (cfg : TowerConfig.t) (re : nat * Enemy.t) :
  configObjs s !! Tower.config tower = Some cfg ->
  getPriorityTarget s tower = Some re ->
  exists l1 l2,
    inRange s tower cfg = l1 ++ re :: l2
    /\ forall x, x ∈ l2 ->
       match Tower.targetingPriority tower with
       | FIRST => Enemy.t_ x.2 < Enemy.t_ re.2
       | STRONGEST => Enemy.hp x.2 < Enemy.hp re.2
       | WEAKEST => Enemy.hp re.2 < Enemy.hp x.2
       | CLOSEST =>
           dist2 (Tower.x tower) (Tower.y tower) (Enemy.x re.2) (Enemy.y re.2)
           < dist2 (Tower.x tower) (Tower.y tower) (Enemy.x x.2) (Enemy.y x.2)
       end.
Proof.
  intros Hc Ht. unfold getPriorityTarget in Ht. rewrite Hc in Ht.
  cbv zeta in Ht. destruct (Nat.eqb _ 0); [discriminate|].
  destruct (Tower.targetingPriority tower);
    apply reduce_position in Ht as (l1 & l2 & E & Hall);
    exists l1, l2; (split; [exact E|]);
    intros x Hx; rewrite Forall_forall in Hall;
    apply Qc_ltb_lt; now apply Hall.
Qed.

Lemma getPriorityTarget_ties_go_to_later_witness :
  exists l1 l2,
    [(0%nat, enemy30); (1%nat, enemy10); (2%nat, enemy50)]
    = l1 ++ (1%nat, enemy10) :: l2
    /\ forall x, x ∈ l2 -> num 10 < Enemy.hp x.2.
Proof.
  exact (getPriorityTarget_ties_go_to_later (sceneThree WEAKEST)
           (watchTower WEAKEST) _ (1%nat, enemy10) eq_refl eq_refl).
Defined.

(** ** Firing *)

Lemma remove_ref_length (r : nat) (l : list nat) :
  (length (remove_ref r l) <= length l)%nat.
Proof.
  induction l as [|a l IH]; simpl; [lia|].
  destruct (Nat.eqb r a); simpl; lia.
Qed.

(** X17.  A tower whose nextFire has passed and that has a target adds
    exactly one projectile, carrying the damage and type id its
    configuration has at that moment and aimed at the target, and sets
    nextFire to the scaled time plus its fire rate; asked again at the
    same scaled time it does nothing when the fire rate is not negative,
    and a tower whose nextFire has not passed does nothing. *)
Theorem fireTower_fires_once (k : nat) (s : Scene) (w : Tower.t)
    (cfg : TowerConfig.t) :
  towers s !! k = Some w ->
  configObjs s !! Tower.config w = Some cfg ->
  (scaledTime s <= Tower.nextFire w -> fireTower k s = s)
  /\ forall target,
     Tower.nextFire w < scaledTime s ->
     getPriorityTarget s w = Some target ->
     projectiles (fireTower k s)
     = projectiles s ++ [length (projectileObjs s)]
     /\ projectileObjs (fireTower k s)
        = projectileObjs s
          ++ [Projectile.mk (Tower.x w) (Tower.y w) (TowerConfig.damage cfg)
                (TowerConfig.id cfg) (Some target.1)
                (Enemy.x target.2 - Tower.x w, Enemy.y target.2 - Tower.y w)
                true]
     /\ towers (fireTower k s)
        = <[k := set_tower_nextFire (scaledTime s + TowerConfig.fireRate cfg)
                   w]> (towers s)
     /\ (0 <= TowerConfig.fireRate cfg ->
         fireTower k (fireTower k s) = fireTower k s).
Proof.
  intros Hk Hc. split.
  - intros Hle. unfold fireTower. rewrite Hk.
    apply Qc_ltb_ge in Hle. now rewrite Hle.
  - intros target Hlt Ht. apply Qc_ltb_lt in Hlt.
    assert (E : fireTower k s
                = set_towers
                    (<[k := set_tower_nextFire
                              (scaledTime s + TowerConfig.fireRate cfg) w]>
                       (towers s))
                    (set_projectiles
                       (projectiles s ++ [length (projectileObjs s)])
                       (set_projectileObjs
                          (projectileObjs s
                           ++ [Projectile.mk (Tower.x w) (Tower.y w)
                                 (TowerConfig.damage cfg) (TowerConfig.id cfg)
                                 (Some target.1)
                                 (Enemy.x target.2 - Tower.x w,
                                  Enemy.y target.2 - Tower.y w) true]) s))).
    { unfold fireTower, shoot. rewrite Hk, Hlt, Ht, Hc. simpl.
      now rewrite Hc. }
    rewrite E. simpl. repeat split.
    intros Hr. unfold fireTower at 1. simpl.
    rewrite list_lookup_insert_eq by (now apply lookup_lt_Some in Hk).
    simpl.
    assert (Hno : (scaledTime s + TowerConfig.fireRate cfg <? scaledTime s)
                  = false).
    { apply Qc_ltb_ge. rewrite <- (Qcplus_0_r (scaledTime s)) at 1.
      now apply Qcplus_le_mono_l. }
    now rewrite Hno.
Qed.

Lemma fireTower_fires_once_witness :
  projectiles (fireTower 0 (sceneThree FIRST)) = [0%nat]
  /\ fireTower 0 (fireTower 0 (sceneThree FIRST))
     = fireTower 0 (sceneThree FIRST).
Proof.
  assert (Hlt : 0 < num 16) by (apply Qc_ltb_lt; reflexivity).
  assert (Hr : 0 <= num 800) by (apply Qc_leb_le; reflexivity).
  destruct (proj2 (fireTower_fires_once 0 (sceneThree FIRST)
                     (watchTower FIRST) _ eq_refl eq_refl)
              (0%nat, enemy30) Hlt eq_refl) as (Hp & _ & _ & Hi).
  split; [exact Hp | exact (Hi Hr)].
Defined.

Section FiringBound.
Context `{Host}.

(** X18.  A tick adds at most one projectile for each tower. *)
Theorem update_projectiles_bound (i : Tick) (s : Scene) :
  (length (projectiles (update i s))
   <= length (projectiles s) + length (towers s))%nat.
Proof.
  rewrite update_code_order_eq. unfold update_code_order.
  set (s2 := completionCheck i (spawnCheck i (advanceClock i s))).
  assert (E2 : projectiles s2 = projectiles s /\ towers s2 = towers s).
  { unfold s2.
    destruct (completionCheck_fields i (spawnCheck i (advanceClock i s)))
      as (-> & _ & _ & _ & _ & -> & _).
    destruct (spawnCheck_fields i (advanceClock i s))
      as (_ & -> & _ & _ & -> & _).
    now split. }
  destruct E2 as [<- <-].
  assert (K1 : (length (projectiles (fireTowers s2))
                <= length (projectiles s2) + length (towers s2))%nat).
  { pose proof (forEach_from_lower
                  (fun s' => (- Z.of_nat (length (projectiles s')))%Z)
                  towerRefs fireTower) as L.
    unfold fireTowers, forEach.
    specialize (L (fun k s' => ltac:(
      unfold fireTower, shoot; split_matches; simpl;
      rewrite ?length_app; simpl; lia))
      (length (towerRefs s2)) 0%nat s2).
    assert (Hlen : length (towerRefs s2) = length (towers s2))
      by (unfold towerRefs; apply length_seq).
    rewrite Hlen in L. rewrite Hlen. lia. }
  assert (K2 : forall d s',
             projectiles (moveEnemies d s') = projectiles s').
  { intros d s'. unfold moveEnemies.
    apply (forEach_inv (fun s'' => projectiles s'' = projectiles s'));
      [|reflexivity].
    intros r s'' <-. apply moveEnemy_fields. }
  assert (K3 : forall s',
             (length (projectiles (steerProjectiles s'))
              <= length (projectiles s'))%nat).
  { intros s'. unfold steerProjectiles.
    apply (forEach_inv
             (fun s'' => (length (projectiles s'')
                          <= length (projectiles s'))%nat)); [|lia].
    intros r s'' Hle. unfold steerProjectile, destroyProjectile.
    split_matches; simpl;
      try (pose proof (remove_ref_length r (projectiles s'')));
      lia. }
  specialize (K3 (moveEnemies (scaledDeltaOf i s) (fireTowers s2))).
  rewrite K2 in K3. lia.
Qed.

End FiringBound.

(** ** Groups hold exactly the active objects *)

Section GroupLists.
Context {A : Type} (active : A -> bool) (setInactive : A -> A).
Hypothesis setInactive_off : forall a, active (setInactive a) = false.

Lemma listedOk_insert (objs : list A) (group : list nat) (r : nat)
    (a a' : A) :
  objs !! r = Some a -> active a' = active a ->
  listedOk active objs group -> listedOk active (<[r := a']> objs) group.
Proof.
  intros Hr Ha [Hnd Hiff]. split; [exact Hnd|]. intros r0. rewrite Hiff.
  destruct (decide (r = r0)) as [->|Hne].
  - rewrite list_lookup_insert_eq by (now apply lookup_lt_Some in Hr).
    split.
    + intros (a0 & E & Ha0). exists a'. split; [reflexivity|]. congruence.
    + intros (a0 & E & Ha0). exists a. split; [exact Hr|]. congruence.
  - now rewrite list_lookup_insert_ne.
Qed.

Lemma listedOk_destroy (objs : list A) (group : list nat) (r : nat) (a : A) :
  objs !! r = Some a ->
  listedOk active objs group ->
  listedOk active (<[r := setInactive a]> objs) (remove_ref r group).
Proof.
  intros Hr [Hnd Hiff]. destruct (remove_ref_NoDup r group Hnd) as [Hnd' Hout].
  split; [exact Hnd'|]. intros r0.
  destruct (decide (r0 = r)) as [->|Hne].
  - rewrite list_lookup_insert_eq by (now apply lookup_lt_Some in Hr).
    split; [contradiction|].
    intros (a0 & E & Ha0). injection E as <-.
    rewrite setInactive_off in Ha0. discriminate.
  - rewrite (remove_ref_elem r r0 group Hne), Hiff.
    now rewrite list_lookup_insert_ne by congruence.
Qed.

Lemma listedOk_add (objs : list A) (group : list nat) (a : A) :
  active a = true ->
  listedOk active objs group -> listedOk active (objs ++ [a]) (group ++ [length objs]).
Proof.
  intros Ha [Hnd Hiff].
  assert (Hfresh : length objs ∉ group).
  { intros Hin. apply Hiff in Hin as (a0 & E & _).
    apply lookup_lt_Some in E. lia. }
  split.
  - apply NoDup_app. split; [exact Hnd|]. split; [|apply NoDup_singleton].
    intros r Hr Hr'. apply list_elem_of_singleton in Hr'. now subst.
  - intros r. rewrite elem_of_app, list_elem_of_singleton, Hiff.
    split.
    + intros [(a0 & E & Ha0)| ->].
      * exists a0. split; [now apply lookup_app_l_Some|exact Ha0].
      * exists a. split; [|exact Ha]. now apply list_lookup_middle.
    + intros (a0 & E & Ha0).
      apply lookup_app_Some in E as [E|[Hge E]].
      * left. now exists a0.
      * right. apply list_lookup_singleton_Some in E as [E _]. lia.
Qed.

Lemma listedOk_all_active (objs : list A) (group : list nat) :
  listedOk active objs group ->
  length (List.filter (fun ra => active ra.2)
            (omap (fun r => (fun a => (r, a)) <$> objs !! r) group))
  = length group.
Proof.
  intros [_ Hiff].
  assert (Hall : forall r, r ∈ group ->
                 exists a, objs !! r = Some a /\ active a = true).
  { intros r. apply Hiff. }
  clear Hiff. induction group as [|r g IH]; [reflexivity|].
  destruct (Hall r) as (a & E & Ha); [left|].
  cbn [omap list_omap]. rewrite E. simpl. rewrite Ha. simpl.
  f_equal. apply IH. intros r0 Hr0. apply Hall. now right.
Qed.

End GroupLists.

Lemma enemyGroupOk_listed (s : Scene) :
  enemyGroupOk s <-> listedOk Enemy.active (enemyObjs s) (enemies s).
Proof. reflexivity. Qed.

Lemma projectileGroupOk_listed (s : Scene) :
  projectileGroupOk s
  <-> listedOk Projectile.active (projectileObjs s) (projectiles s).
Proof. reflexivity. Qed.

Lemma enemyGroupOk_destroyEnemy (r : nat) (s : Scene) :
  enemyGroupOk s -> enemyGroupOk (destroyEnemy r s).
Proof.
  unfold destroyEnemy. destruct (enemyObjs s !! r) as [e|] eqn:E; [|auto].
  intros Hok. apply enemyGroupOk_listed. simpl.
  now apply (listedOk_destroy Enemy.active (set_enemy_active false)).
Qed.

Lemma projectileGroupOk_destroyProjectile (r : nat) (s : Scene) :
  projectileGroupOk s -> projectileGroupOk (destroyProjectile r s).
Proof.
  unfold destroyProjectile.
  destruct (projectileObjs s !! r) as [p|] eqn:E; [|auto].
  intros Hok. apply projectileGroupOk_listed. simpl.
  now apply (listedOk_destroy Projectile.active
               (set_projectile_active false)).
Qed.

Lemma groupsOk_same (s s' : Scene) :
  enemyObjs s' = enemyObjs s -> enemies s' = enemies s ->
  projectileObjs s' = projectileObjs s -> projectiles s' = projectiles s ->
  groupsOk s -> groupsOk s'.
Proof.
  unfold groupsOk, enemyGroupOk, projectileGroupOk.
  intros -> -> -> ->. auto.
Qed.

Lemma groupsOk_fireTower (k : nat) (s : Scene) :
  groupsOk s -> groupsOk (fireTower k s).
Proof.
  intros [He Hp]. destruct (fireTower_frame k s) as (E1 & E2 & _).
  split.
  - unfold enemyGroupOk. now rewrite E1, E2.
  - unfold fireTower, shoot.
    destruct (towers s !! k) as [w|]; [|exact Hp].
    destruct (_ <? _); [|exact Hp].
    destruct (getPriorityTarget s w) as [target|]; [|exact Hp].
    destruct (configObjs s !! Tower.config w) as [cfg|] eqn:Hc;
      [|rewrite Hc; exact Hp].
    simpl. rewrite Hc. apply projectileGroupOk_listed. simpl.
    now apply listedOk_add.
Qed.

Lemma groupsOk_steerProjectile (r : nat) (s : Scene) :
  groupsOk s -> groupsOk (steerProjectile r s).
Proof.
  intros [He Hp].
  destruct (steerProjectile_fields r s) as (_ & _ & _ & E4 & E5 & _).
  split; [unfold enemyGroupOk; now rewrite E4, E5|].
  unfold steerProjectile.
  destruct (projectileObjs s !! r) as [p|] eqn:E; [|exact Hp].
  destruct (Projectile.target p ≫= _) as [e|];
    [destruct (Enemy.active e)|];
    try now apply projectileGroupOk_destroyProjectile.
  apply projectileGroupOk_listed. simpl.
  now apply (listedOk_insert Projectile.active _ _ r p).
Qed.

Lemma groupsOk_handleHit (pr er : nat) (s : Scene) :
  groupsOk s -> groupsOk (handleHit pr er s).
Proof.
  intros [He Hp]. unfold handleHit.
  destruct (projectileObjs s !! pr) as [p|] eqn:Ep; [|now split].
  destruct (enemyObjs s !! er) as [e|] eqn:Ee; [|now split].
  destruct (negb _ || negb _); [now split|]. cbv zeta.
  set (s1 := set_enemyObjs _ s).
  assert (H1 : groupsOk s1).
  { split; [|exact Hp]. apply enemyGroupOk_listed. simpl.
    now apply (listedOk_insert Enemy.active _ _ er e). }
  assert (H2 : groupsOk (destroyProjectile pr s1)).
  { destruct H1 as [H1e H1p]. split.
    - destruct (destroyProjectile_fields pr s1) as (_ & _ & _ & E4 & E5 & _).
      unfold enemyGroupOk. now rewrite E4, E5.
    - now apply projectileGroupOk_destroyProjectile. }
  destruct (_ <=? 0); [|exact H2].
  match goal with
  | |- groupsOk (destroyEnemy er ?a) =>
      assert (H3 : groupsOk a) by (revert H2; apply groupsOk_same; reflexivity);
      destruct H3 as [H3e H3p];
      destruct (destroyEnemy_fields er a) as (_ & _ & _ & E4 & E5 & _)
  end.
  split; [now apply enemyGroupOk_destroyEnemy|].
  unfold projectileGroupOk. now rewrite E4, E5.
Qed.

Section GroupsThroughTick.
Context `{Host}.

Lemma groupsOk_moveEnemy (d : Qc) (r : nat) (s : Scene) :
  groupsOk s -> groupsOk (moveEnemy d r s).
Proof.
  intros [He Hp]. unfold moveEnemy.
  destruct (enemyObjs s !! r) as [e|] eqn:Ee; [|now split].
  destruct (negb (Enemy.active e)); [now split|]. cbv zeta.
  match goal with
  | |- context [set_enemyObjs (<[r := ?e']> _) s] =>
      set (s1 := set_enemyObjs (<[r := e']> (enemyObjs s)) s);
      assert (H1 : groupsOk s1)
  end.
  { split; [|exact Hp]. apply enemyGroupOk_listed. simpl.
    apply (listedOk_insert Enemy.active _ _ r e); [exact Ee| |exact He].
    now destruct (path s ≫= _). }
  destruct (1 <=? _); [|exact H1].
  assert (H2 : groupsOk (destroyEnemy r (loseLife s1))).
  { assert (H3 : groupsOk (loseLife s1))
      by (revert H1; apply groupsOk_same; reflexivity).
    destruct H3 as [H3e H3p].
    destruct (destroyEnemy_fields r (loseLife s1))
      as (_ & _ & _ & E4 & E5 & _).
    split; [now apply enemyGroupOk_destroyEnemy|].
    unfold projectileGroupOk. now rewrite E4, E5. }
  destruct (_ <=? 0)%Z; [|exact H2].
  revert H2. apply groupsOk_same; reflexivity.
Qed.

Lemma groupsOk_spawnCheck (i : Tick) (s : Scene) :
  groupsOk s -> groupsOk (spawnCheck i s).
Proof.
  intros [He Hp]. unfold spawnCheck, spawnEnemy.
  match goal with
  | |- context [if ?c then _ else _] => destruct c
  end; [|now split].
  cbv zeta. destruct (path s) as [p|]; [|now split].
  destruct (getPoint p 0); [|now split].
  split; [|exact Hp]. apply enemyGroupOk_listed. simpl.
  now apply listedOk_add.
Qed.

Lemma groupsOk_update (i : Tick) (s : Scene) :
  groupsOk s -> groupsOk (update i s).
Proof.
  apply (update_rel (fun s s' => groupsOk s -> groupsOk s')).
  - auto.
  - auto.
  - apply groupsOk_fireTower.
  - apply groupsOk_moveEnemy.
  - apply groupsOk_steerProjectile.
  - intros i' s'. apply groupsOk_same; reflexivity.
  - apply groupsOk_spawnCheck.
  - intros i' s'.
    destruct (completionCheck_fields i' s')
      as (_ & _ & E3 & E4 & E5 & E6 & _).
    now apply groupsOk_same.
Qed.

(** X19.  The groups list, once each, exactly the objects that are
    active: this holds of the empty scene and is kept by a tick and by a
    hit; where it holds, countActive is the size of the enemy group, so
    that a wave is complete exactly when the group is empty. *)
Theorem groups_list_the_active_objects (i : Tick) (pr er : nat) (s : Scene) :
  groupsOk s ->
  groupsOk (update i s)
  /\ groupsOk (handleHit pr er s)
  /\ countActive s = length (enemies s)
  /\ (waveComplete s = true
      <-> waveInProgress s = true /\ enemiesRemaining s = 0%Z
          /\ enemies s = []).
Proof.
  intros Hok.
  assert (Hc : countActive s = length (enemies s)).
  { destruct Hok as [He _]. unfold countActive, enemyChildren.
    now apply (listedOk_all_active Enemy.active). }
  split; [now apply groupsOk_update|].
  split; [now apply groupsOk_handleHit|].
  split; [exact Hc|].
  unfold waveComplete. rewrite Hc, !Bool.andb_true_iff, Z.eqb_eq, Nat.eqb_eq.
  rewrite length_zero_iff_nil. tauto.
Qed.

End GroupsThroughTick.

Lemma groupsOk_scene0 : groupsOk scene0.
Proof.
  split; (split; [constructor|]); intros r; simpl;
    (split; [intros Hin; now apply elem_of_nil in Hin|]);
    intros (a & E & _); now rewrite lookup_nil in E.
Qed.

Ltac listed_by_cases :=
  intros r; simpl; split;
  [ rewrite ?elem_of_cons, ?elem_of_nil;
    intros Hin;
    repeat (destruct Hin as [->|Hin]; [eexists; split; reflexivity|]);
    destruct Hin
  | intros (a & E & Ha); simpl in E; try discriminate E;
    repeat (destruct r as [|r];
            [ solve [ repeat first [ apply list_elem_of_here
                                   | apply list_elem_of_further ] ]
            | simpl in E; try discriminate E ]) ].

(** Three enemies under way and a tower about to fire. *)
Lemma groupsOk_sceneThree (prio : TargetingPriority) :
  groupsOk (sceneThree prio).
Proof.
  split; split.
  - exact (NoDup_seq 0 3).
  - listed_by_cases.
  - apply NoDup_nil_2.
  - listed_by_cases.
Qed.

(** One enemy and one projectile about to hit it. *)
Lemma groupsOk_sceneHit (source : string) (hp : Qc) :
  groupsOk (sceneHit source hp).
Proof.
  split; split.
  - exact (NoDup_seq 0 1).
  - listed_by_cases.
  - exact (NoDup_seq 0 1).
  - listed_by_cases.
Qed.

(** A tick in which the tower fires and the three enemies move, and a hit
    that kills the enemy and uses up the projectile. *)
Lemma groups_list_the_active_objects_witness :
  groupsOk (@update demoHost tick16 (sceneThree FIRST))
  /\ projectiles (@update demoHost tick16 (sceneThree FIRST)) = [0%nat]
  /\ countActive (sceneThree FIRST) = 3%nat
  /\ groupsOk (handleHit 0 0 (sceneHit "rapid" (num 4)))
  /\ enemies (handleHit 0 0 (sceneHit "rapid" (num 4))) = []
  /\ projectiles (handleHit 0 0 (sceneHit "rapid" (num 4))) = [].
Proof.
  destruct (@groups_list_the_active_objects demoHost tick16 0 0
              (sceneThree FIRST) (groupsOk_sceneThree FIRST))
    as (Hu & _ & Hc & _).
  destruct (@groups_list_the_active_objects demoHost tick16 0 0
              (sceneHit "rapid" (num 4)) (groupsOk_sceneHit "rapid" (num 4)))
    as (_ & Hh & _ & _).
  split; [exact Hu|]. split; [vm_compute; reflexivity|].
  split; [exact Hc|]. split; [exact Hh|].
  split; vm_compute; reflexivity.
Defined.

(** ** Enemies that reach the core, and the enemy after them *)

Lemma forEach_from_inv_from {S : Type} (P : S -> Prop) (arr : S -> list nat)
    (f : nat -> S -> S) (k0 : nat) :
  (forall k r s, (k0 <= k)%nat -> arr s !! k = Some r -> P s -> P (f r s)) ->
  forall n k s, (k0 <= k)%nat -> P s -> P (forEach_from arr f n k s).
Proof.
  intros Hf n. induction n as [|n IH]; intros k s Hk Hs; simpl.
  - exact Hs.
  - apply IH; [lia|]. destruct (arr s !! k) as [r|] eqn:E; [|exact Hs].
    now apply (Hf k).
Qed.

Lemma remove_ref_head (r r2 : nat) (l : list nat) :
  r <> r2 -> l !! 0%nat = Some r2 -> remove_ref r l !! 0%nat = Some r2.
Proof.
  destruct l as [|a l]; simpl; [discriminate|].
  intros Hne E. injection E as ->.
  destruct (Nat.eqb_spec r r2); [contradiction|reflexivity].
Qed.

Section ReachCore.
Context `{Host}.

Lemma moveEnemy_leak (d : Qc) (r : nat) (s : Scene) (e : Enemy.t) :
  enemyObjs s !! r = Some e ->
  Enemy.active e = true ->
  1 <= Enemy.t_ e + Enemy.speed e * d / num 100000 ->
  enemies (moveEnemy d r s) = remove_ref r (enemies s)
  /\ Enemy.active <$> enemyObjs (moveEnemy d r s) !! r = Some false
  /\ GameStats.lives (stats (moveEnemy d r s))
     = (GameStats.lives (stats s) - 1)%Z
  /\ emitted (moveEnemy d r s)
     = emitted s
       ++ StatsUpdate (set_lives (GameStats.lives (stats s) - 1)%Z (stats s))
          :: (if (GameStats.lives (stats s) - 1 <=? 0)%Z then [GameOver]
              else []).
Proof.
  intros He Ha Ht. apply Qc_leb_le in Ht.
  unfold moveEnemy. rewrite He, Ha. cbv zeta. simpl negb. cbv iota.
  rewrite Ht. unfold loseLife, onStatsUpdate, emit, destroyEnemy. simpl.
  rewrite list_lookup_insert_eq by (now apply lookup_lt_Some in He).
  simpl.
  destruct (_ <=? 0)%Z; simpl;
    rewrite list_lookup_insert_eq
      by (rewrite length_insert; now apply lookup_lt_Some in He);
    rewrite <- ?app_assoc; now repeat split.
Qed.

Lemma moveEnemy_other (d : Qc) (r r' : nat) (s : Scene) :
  r' <> r ->
  enemyObjs (moveEnemy d r s) !! r' = enemyObjs s !! r'
  /\ (enemies (moveEnemy d r s) = enemies s
      \/ enemies (moveEnemy d r s) = remove_ref r (enemies s)).
Proof.
  intros Hne. unfold moveEnemy.
  destruct (enemyObjs s !! r) as [e|] eqn:He; [|now split; [|left]].
  destruct (negb (Enemy.active e)); [now split; [|left]|]. cbv zeta.
  destruct (1 <=? _).
  - unfold loseLife, onStatsUpdate, emit, destroyEnemy. simpl.
    rewrite list_lookup_insert_eq by (now apply lookup_lt_Some in He).
    destruct (_ <=? 0)%Z; simpl;
      rewrite !list_lookup_insert_ne by congruence; split; auto.
  - simpl. rewrite list_lookup_insert_ne by congruence. split; auto.
Qed.

(** X20.  An enemy whose progress reaches 1 in a tick costs exactly one
    life, is made inactive and taken out of the group, and the
    statistics are reported; the end of the game is reported after them
    exactly when the lives left are then zero or fewer, so again for
    every later enemy that gets through. *)
Theorem moveEnemy_reaches_core (d : Qc) (r : nat) (s : Scene) (e : Enemy.t) :
  enemyObjs s !! r = Some e ->
  Enemy.active e = true ->
  1 <= Enemy.t_ e + Enemy.speed e * d / num 100000 ->
  GameStats.lives (stats (moveEnemy d r s))
  = (GameStats.lives (stats s) - 1)%Z
  /\ Enemy.active <$> enemyObjs (moveEnemy d r s) !! r = Some false
  /\ (NoDup (enemies s) -> r ∉ enemies (moveEnemy d r s))
  /\ ((GameStats.lives (stats s) <= 1)%Z ->
      List.last (emitted (moveEnemy d r s)) GameOver = GameOver
      /\ emitted (moveEnemy d r s) <> emitted s)
  /\ ((1 < GameStats.lives (stats s))%Z ->
      ~ In GameOver (skipn (length (emitted s)) (emitted (moveEnemy d r s)))).
Proof.
  intros He Ha Ht.
  destruct (moveEnemy_leak d r s e He Ha Ht) as (E1 & E2 & E3 & E4).
  split; [exact E3|]. split; [exact E2|]. split; [|split].
  - intros Hnd. rewrite E1. now apply remove_ref_NoDup.
  - intros Hl. rewrite E4.
    assert (K : (GameStats.lives (stats s) - 1 <=? 0)%Z = true)
      by (apply Z.leb_le; lia).
    rewrite K. split.
    + change (?a :: [GameOver]) with ([a] ++ [GameOver]).
      now rewrite app_assoc, last_last.
    + intros E. apply (f_equal length) in E.
      rewrite length_app in E. simpl in E. lia.
  - intros Hl. rewrite E4.
    assert (K : (GameStats.lives (stats s) - 1 <=? 0)%Z = false)
      by (apply Z.leb_gt; lia).
    rewrite K, drop_app_length. simpl. intros [E|[]]. discriminate E.
Qed.

Lemma moveEnemies_after_leak (d : Qc) (s : Scene) (r1 r2 : nat)
    (rest : list nat) (e1 e2 : Enemy.t) :
  enemies s = r1 :: r2 :: rest ->
  NoDup (enemies s) ->
  enemyObjs s !! r1 = Some e1 ->
  Enemy.active e1 = true ->
  1 <= Enemy.t_ e1 + Enemy.speed e1 * d / num 100000 ->
  enemyObjs s !! r2 = Some e2 ->
  enemyObjs (moveEnemies d s) !! r2 = Some e2
  /\ r2 ∈ enemies (moveEnemies d s).
Proof.
  intros Hg Hnd H1 Ha Ht H2.
  assert (Hne : r2 <> r1).
  { rewrite Hg in Hnd. apply NoDup_cons in Hnd as [Hnotin _].
    intros ->. apply Hnotin. left. }
  unfold moveEnemies, forEach. rewrite Hg.
  cbn [length forEach_from]. rewrite Hg. cbn [lookup list_lookup].
  set (s1 := moveEnemy d r1 s).
  assert (Hs1 : NoDup (enemies s1) /\ enemies s1 !! 0%nat = Some r2
                /\ enemyObjs s1 !! r2 = Some e2).
  { destruct (moveEnemy_leak d r1 s e1 H1 Ha Ht) as (E1 & _).
    destruct (moveEnemy_other d r1 r2 s Hne) as [E2 _].
    unfold s1. rewrite E1, E2. split; [now apply remove_ref_NoDup|].
    split; [|exact H2]. rewrite Hg. simpl.
    now rewrite Nat.eqb_refl. }
  assert (K : let s' := forEach_from enemies (moveEnemy d)
                          (Datatypes.S (length rest)) 1 s1 in
              NoDup (enemies s') /\ enemies s' !! 0%nat = Some r2
              /\ enemyObjs s' !! r2 = Some e2).
  { apply (forEach_from_inv_from
             (fun s' => NoDup (enemies s') /\ enemies s' !! 0%nat = Some r2
                        /\ enemyObjs s' !! r2 = Some e2)
             enemies (moveEnemy d) 1); [|lia|exact Hs1].
    intros k r s' Hk Hr (Hnd' & Hhead & Hobj).
    assert (Hr2 : r2 <> r).
    { intros <-.
      pose proof (NoDup_lookup _ _ _ _ Hnd' Hhead Hr). lia. }
    destruct (moveEnemy_other d r r2 s' Hr2) as [E1 [E2|E2]];
      rewrite E1, E2; repeat split; try assumption.
    - now apply remove_ref_NoDup.
    - apply remove_ref_head; [congruence|exact Hhead]. }
  destruct K as (_ & Khead & Kobj). split; [exact Kobj|].
  apply list_elem_of_lookup. eauto.
Qed.

End ReachCore.

Lemma steerProjectile_other (r r' : nat) (s : Scene) :
  r' <> r ->
  projectileObjs (steerProjectile r s) !! r' = projectileObjs s !! r'
  /\ (projectiles (steerProjectile r s) = projectiles s
      \/ projectiles (steerProjectile r s) = remove_ref r (projectiles s)).
Proof.
  intros Hne. unfold steerProjectile, destroyProjectile.
  destruct (projectileObjs s !! r) as [p|] eqn:Hp; [|now split; [|left]].
  destruct (Projectile.target p ≫= _) as [e|];
    [destruct (Enemy.active e)|]; simpl;
    rewrite list_lookup_insert_ne by congruence; split; auto.
Qed.

Lemma steerProjectiles_after_stale (s : Scene) (r1 r2 er : nat)
    (rest : list nat) (p1 p2 : Projectile.t) (e : Enemy.t) :
  projectiles s = r1 :: r2 :: rest ->
  NoDup (projectiles s) ->
  projectileObjs s !! r1 = Some p1 ->
  Projectile.target p1 = Some er ->
  enemyObjs s !! er = Some e ->
  Enemy.active e = false ->
  projectileObjs s !! r2 = Some p2 ->
  projectileObjs (steerProjectiles s) !! r2 = Some p2
  /\ r2 ∈ projectiles (steerProjectiles s).
Proof.
  intros Hg Hnd H1 Ht He Ha H2.
  assert (Hne : r2 <> r1).
  { rewrite Hg in Hnd. apply NoDup_cons in Hnd as [Hnotin _].
    intros ->. apply Hnotin. left. }
  unfold steerProjectiles, forEach. rewrite Hg.
  cbn [length forEach_from]. rewrite Hg. cbn [lookup list_lookup].
  set (s1 := steerProjectile r1 s).
  assert (Hs1 : NoDup (projectiles s1) /\ projectiles s1 !! 0%nat = Some r2
                /\ projectileObjs s1 !! r2 = Some p2).
  { unfold s1. rewrite (steerProjectile_stale r1 er s p1 e H1 Ht He Ha).
    unfold destroyProjectile. rewrite H1. simpl.
    rewrite list_lookup_insert_ne by congruence.
    split; [now apply remove_ref_NoDup|]. split; [|exact H2].
    rewrite Hg. simpl. now rewrite Nat.eqb_refl. }
  assert (K : let s' := forEach_from projectiles steerProjectile
                          (Datatypes.S (length rest)) 1 s1 in
              NoDup (projectiles s') /\ projectiles s' !! 0%nat = Some r2
              /\ projectileObjs s' !! r2 = Some p2).
  { apply (forEach_from_inv_from
             (fun s' => NoDup (projectiles s')
                        /\ projectiles s' !! 0%nat = Some r2
                        /\ projectileObjs s' !! r2 = Some p2)
             projectiles steerProjectile 1); [|lia|exact Hs1].
    intros k r s' Hk Hr (Hnd' & Hhead & Hobj).
    assert (Hr2 : r2 <> r).
    { intros <-.
      pose proof (NoDup_lookup _ _ _ _ Hnd' Hhead Hr). lia. }
    destruct (steerProjectile_other r r2 s' Hr2) as [E1 [E2|E2]];
      rewrite E1, E2; repeat split; try assumption.
    - now apply remove_ref_NoDup.
    - apply remove_ref_head; [congruence|exact Hhead]. }
  destruct K as (_ & Khead & Kobj). split; [exact Kobj|].
  apply list_elem_of_lookup. eauto.
Qed.

(** X21.  The loops of a tick run [forEach] over the arrays the groups
    hand out, and the element that follows a destroyed one is passed
    over: when the first enemy of the group reaches the core, the second
    is not moved in that tick (its object is untouched and it stays in
    the group, whatever its progress); when the first projectile has
    lost its target, the second is neither steered nor removed. *)
Theorem loops_pass_over_the_next_element `{Host} (d : Qc) (s : Scene)
    (r1 r2 : nat) (rest : list nat) :
  (forall e1 e2,
     enemies s = r1 :: r2 :: rest ->
     NoDup (enemies s) ->
     enemyObjs s !! r1 = Some e1 ->
     Enemy.active e1 = true ->
     1 <= Enemy.t_ e1 + Enemy.speed e1 * d / num 100000 ->
     enemyObjs s !! r2 = Some e2 ->
     enemyObjs (moveEnemies d s) !! r2 = Some e2
     /\ r2 ∈ enemies (moveEnemies d s))
  /\ (forall p1 p2 er e,
      projectiles s = r1 :: r2 :: rest ->
      NoDup (projectiles s) ->
      projectileObjs s !! r1 = Some p1 ->
      Projectile.target p1 = Some er ->
      enemyObjs s !! er = Some e ->
      Enemy.active e = false ->
      projectileObjs s !! r2 = Some p2 ->
      projectileObjs (steerProjectiles s) !! r2 = Some p2
      /\ r2 ∈ projectiles (steerProjectiles s)).
Proof.
  split.
  - intros e1 e2. apply moveEnemies_after_leak.
  - intros p1 p2 er e. apply steerProjectiles_after_stale.
Qed.

Lemma moveEnemy_reaches_core_witness :
  GameStats.lives (stats (@moveEnemy demoHost (num 16) 0 sceneLastEnemy))
  = (20 - 1)%Z.
Proof.
  assert (Ht : 1 <= num 0.99 + num 100 * num 16 / num 100000)
    by (apply Qc_leb_le; reflexivity).
  exact (proj1 (@moveEnemy_reaches_core demoHost (num 16) 0 sceneLastEnemy _
                  eq_refl eq_refl Ht)).
Defined.

Lemma loops_pass_over_the_next_element_witness :
  Enemy.t_ <$> enemyObjs (@moveEnemies demoHost (num 16) sceneTwoEnemies)
               !! 1%nat
  = Some (num 0.5)
  /\ 1%nat ∈ projectiles (steerProjectiles sceneStale).
Proof.
  assert (Ht : 1 <= num 0.99 + num 100 * num 16 / num 100000)
    by (apply Qc_leb_le; reflexivity).
  assert (Hnd : NoDup [0; 1]%nat).
  { repeat constructor; rewrite ?list_elem_of_singleton;
      try apply not_elem_of_nil; discriminate. }
  destruct (@loops_pass_over_the_next_element demoHost (num 16)
              sceneTwoEnemies 0 1 []) as [He _].
  destruct (@loops_pass_over_the_next_element demoHost (num 16)
              sceneStale 0 1 []) as [_ Hp].
  split.
  - rewrite (proj1 (He _ _ eq_refl Hnd eq_refl eq_refl Ht eq_refl)).
    reflexivity.
  - exact (proj2 (Hp _ _ 0%nat _ eq_refl Hnd eq_refl eq_refl eq_refl
                    eq_refl eq_refl)).
Defined.

(** ** Spawning *)

Section Spawning.
Context `{Host}.

(** X22.  A spawned enemy joins the end of the group at the start of the
    path with full health, progress 0 and active.  On a level that is a
    multiple of 10 it is a BOSS whatever the roll, and only then; a
    GOLIATH needs level 4 and a roll below 0.25, a SCOUT level 2 and a
    roll below 0.45; on level 1 every enemy is a SENTINEL. *)
Theorem spawnEnemy_archetype (roll : Qc) (s : Scene) (p : Path)
    (startPoint : Point) :
  path s = Some p ->
  getPoint p 0 = Some startPoint ->
  exists e,
    enemyObjs (spawnEnemy roll s) = enemyObjs s ++ [e]
    /\ enemies (spawnEnemy roll s) = enemies s ++ [length (enemyObjs s)]
    /\ Enemy.hp e = Enemy.maxHp e
    /\ Enemy.t_ e = 0
    /\ Enemy.active e = true
    /\ (Enemy.x e, Enemy.y e) = startPoint
    /\ (Enemy.archetype e = BOSS
        <-> Z.rem (GameStats.level (stats s)) 10 = 0%Z)
    /\ (Enemy.archetype e = GOLIATH ->
        (4 <= GameStats.level (stats s))%Z /\ roll < num 0.25)
    /\ (Enemy.archetype e = SCOUT ->
        (2 <= GameStats.level (stats s))%Z /\ roll < num 0.45)
    /\ (GameStats.level (stats s) = 1%Z -> Enemy.archetype e = SENTINEL).
Proof.
  intros Hp Hs. unfold spawnEnemy. rewrite Hp, Hs. cbv zeta.
  eexists. split; [reflexivity|]. split; [reflexivity|].
  cbn [Enemy.hp Enemy.maxHp Enemy.t_ Enemy.active Enemy.x Enemy.y
       Enemy.archetype].
  split; [reflexivity|]. split; [reflexivity|]. split; [reflexivity|].
  split; [now destruct startPoint|].
  unfold rollArchetype, isBossLevel.
  destruct (Z.eqb_spec (Z.rem (GameStats.level (stats s)) 10) 0) as [E|E].
  - split; [tauto|]. split; [discriminate|]. split; [discriminate|].
    intros L1. rewrite L1 in E. discriminate E.
  - destruct ((4 <=? _)%Z && (roll <? num 0.25)) eqn:G.
    + apply andb_prop in G as [L4 R1].
      apply Z.leb_le in L4. apply Qc_ltb_lt in R1.
      split; [split; [discriminate|contradiction]|].
      split; [now intros _|]. split; [discriminate|]. intros L1. lia.
    + destruct ((2 <=? _)%Z && (roll <? num 0.45)) eqn:S2.
      * apply andb_prop in S2 as [L2 R2].
        apply Z.leb_le in L2. apply Qc_ltb_lt in R2.
        split; [split; [discriminate|contradiction]|].
        split; [discriminate|]. split; [now intros _|]. intros L1. lia.
      * split; [split; [discriminate|contradiction]|].
        split; [discriminate|]. split; [discriminate|]. reflexivity.
Qed.

End Spawning.

Lemma spawnEnemy_archetype_witness :
  exists e,
    enemies (@spawnEnemy demoHost (num 0.1) (sceneLevel 10)) = [0%nat]
    /\ enemyObjs (@spawnEnemy demoHost (num 0.1) (sceneLevel 10)) = [e]
    /\ Enemy.archetype e = BOSS.
Proof.
  assert (Hs : lerpPoint [(- num 50, num 300); (num 800, num 300)] 0
               = Some (- num 50, num 300)).
  { unfold lerpPoint. vm_compute.
    repeat f_equal; apply Qc_is_canon; reflexivity. }
  destruct (@spawnEnemy_archetype demoHost (num 0.1) (sceneLevel 10) _ _
              eq_refl Hs) as (e & Ho & Hg & _ & _ & _ & _ & Hb & _).
  exists e. split; [exact Hg|]. split; [exact Ho|].
  now apply Hb.
Defined.

(** ** The shape of a generated path *)

Lemma floorZ_div (z : Z) (a : positive) (b : positive) :
  floorZ (Qc_of_Z z / num (Z.pos a # b)) = (z * Z.pos b / Z.pos a)%Z.
Proof.
  unfold floorZ, num, Qcdiv, Qcinv. simpl.
  rewrite (Qfloor_comp _ (inject_Z z * (Z.pos b # a))%Q).
  - unfold Qfloor, Qmult, inject_Z. simpl. reflexivity.
  - rewrite !Qred_correct. reflexivity.
Qed.

Lemma segmentsFor_Z (level : Z) :
  segmentsFor level = Z.min (3 + level * 10 / 25) 15.
Proof.
  unfold segmentsFor. change (num 2.5) with (num (25 # 10)).
  now rewrite floorZ_div.
Qed.

Section PathShape.
Context `{Host}.

(** X23.  From level 0 on a generated path has between 3 and 15
    segments, 15 from level 30 on and only from there; it starts at
    (-50, height/2) and has one waypoint more than it has segments.
    Waypoint [i] is in the column (width / segments) * i, at the drawn
    height for [i < segments] and at mid-height for the last one,
    [i = segments]; the column of the last one is that product as the
    code evaluates it, which rounding can leave beside [width]. *)
Theorem createPath_shape (btw : Z -> Qc) (s : Scene) :
  (0 <= GameStats.level (stats s))%Z ->
  (3 <= segmentsFor (GameStats.level (stats s)) <= 15)%Z
  /\ (segmentsFor (GameStats.level (stats s)) = 15%Z
      <-> (30 <= GameStats.level (stats s))%Z)
  /\ exists pts,
       path (createPath btw s) = Some ((- num 50, height / num 2) :: pts)
       /\ length pts = Z.to_nat (segmentsFor (GameStats.level (stats s)))
       /\ last pts
          = Some (width / Qc_of_Z (segmentsFor (GameStats.level (stats s)))
                  * Qc_of_Z (segmentsFor (GameStats.level (stats s))),
                  height / num 2)
       /\ forall k : nat,
          (Z.of_nat k + 1 < segmentsFor (GameStats.level (stats s)))%Z ->
          pts !! k
          = Some (width / Qc_of_Z (segmentsFor (GameStats.level (stats s)))
                  * Qc_of_Z (Z.of_nat k + 1),
                  btw (Z.of_nat k + 1)%Z).
Proof.
  intros HL.
  pose proof (segmentsFor_Z (GameStats.level (stats s))) as Hz.
  assert (Hb : (3 <= segmentsFor (GameStats.level (stats s)) <= 15)%Z)
    by (rewrite Hz; Z.div_mod_to_equations; lia).
  split; [exact Hb|]. split; [rewrite Hz; Z.div_mod_to_equations; lia|].
  unfold createPath. cbv zeta.
  set (n := segmentsFor (GameStats.level (stats s))) in *.
  eexists. split; [reflexivity|].
  split; [now rewrite length_fmap, length_seqZ|]. split.
  - assert (Hseq : seqZ 1 n = seqZ 1 (Z.of_nat (Z.to_nat (n - 1))) ++ [n]).
    { replace [n] with [(1 + Z.of_nat (Z.to_nat (n - 1)))%Z]
        by (f_equal; lia).
      rewrite <- (seqZ_S 1 (Z.to_nat (n - 1))). f_equal; lia. }
    rewrite Hseq, fmap_snoc, last_snoc. simpl.
    rewrite Z.eqb_refl. reflexivity.
  - intros k Hk. rewrite list_lookup_fmap, lookup_seqZ_lt by lia. simpl.
    replace (1 + Z.of_nat k)%Z with (Z.of_nat k + 1)%Z by lia.
    destruct (Z.eqb_spec (Z.of_nat k + 1) n) as [E|_]; [lia|reflexivity].
Qed.

End PathShape.

Lemma createPath_shape_witness :
  (3 <= segmentsFor 21 <= 15)%Z
  /\ exists pts,
       path (@createPath demoHost noDraws (sceneLevel 21))
       = Some ((- num 50, num 600 / num 2) :: pts)
       /\ length pts = 11%nat
       /\ last pts
          = Some (num 800 / Qc_of_Z (segmentsFor 21)
                  * Qc_of_Z (segmentsFor 21), num 600 / num 2)
       /\ pts !! 0%nat
          = Some (num 800 / Qc_of_Z (segmentsFor 21) * Qc_of_Z (0 + 1),
                  noDraws (0 + 1)%Z).
Proof.
  destruct (@createPath_shape demoHost noDraws (sceneLevel 21))
    as (Hb & _ & pts & Hp & Hlen & Hl & Hk); [simpl; lia|].
  split; [exact Hb|]. exists pts.
  split; [exact Hp|]. split; [exact Hlen|]. split; [exact Hl|].
  apply (Hk 0%nat). vm_compute. reflexivity.
Defined.

(** ** The component's handlers *)

Lemma callScene_silent (f : Scene -> Scene) (a : App.t) :
  emitted (f (App.sceneRef a)) = emitted (App.sceneRef a) ->
  callScene f a = set_app_sceneRef (f (App.sceneRef a)) a.
Proof.
  intros E. unfold callScene. rewrite E, drop_all. reflexivity.
Qed.

Lemma callScene_one (f : Scene -> Scene) (a : App.t) (e : Event) :
  emitted (f (App.sceneRef a)) = emitted (App.sceneRef a) ++ [e] ->
  callScene f a = deliver (set_app_sceneRef (f (App.sceneRef a)) a) e.
Proof.
  intros E. unfold callScene. rewrite E, drop_app_length. reflexivity.
Qed.

Lemma upgradeTower_report (tid : string) (s : Scene) (k : nat) (w : Tower.t) :
  findTower tid s = Some (k, w) ->
  stats (upgradeTower tid s) = stats s
  /\ waveInProgress (upgradeTower tid s) = waveInProgress s
  /\ emitted (upgradeTower tid s)
     = emitted s
       ++ [TowerSelected
             (Some
                (mkTowerInstance (Tower.id w) (Tower.x w) (Tower.y w)
                   (Tower.config w) (Tower.targetingPriority w)
                   (Tower.level w + 1)%Z))].
Proof.
  intros Hf. unfold upgradeTower. rewrite Hf.
  apply list_find_Some in Hf as (Hk & _ & _).
  assert (Hlt : (k < length (towers s))%nat) by (eapply lookup_lt_Some; eauto).
  unfold selectTower.
  destruct (configObjs (set_towers _ s) !! _) eqn:Hc; cbv zeta;
    cbn [towers set_towers set_configObjs];
    rewrite list_lookup_insert_eq by exact Hlt;
    cbn; repeat split; reflexivity.
Qed.

Lemma startWave_report (s : Scene) :
  waveInProgress s = false ->
  stats (startWave s) = set_waveActive true (stats s)
  /\ emitted (startWave s)
     = emitted s ++ [StatsUpdate (set_waveActive true (stats s))].
Proof.
  intros Hw. unfold startWave. rewrite Hw. cbn. split; reflexivity.
Qed.

(** X24.  The price of an upgrade is taken from the component's copy of
    the gold only.  With a tower selected whose id the scene finds,
    [handleUpgrade] does nothing when the component's gold is below
    [upgradeCost]; otherwise the tower gains a level, the component's gold
    drops by [upgradeCost], and the scene's statistics stay as they were:
    the next report of the scene, here that of starting a wave, puts the
    component's gold back to the scene's uncharged amount. *)
Theorem handleUpgrade_charges_the_copy_only (a : App.t)
    (inst : TowerInstance) (k : nat) (w : Tower.t) :
  App.selectedTowerInstance a = Some inst ->
  findTower (ti_id inst) (App.sceneRef a) = Some (k, w) ->
  (GameStats.gold (App.stats a) < upgradeCost a -> handleUpgrade a = a)
  /\ (upgradeCost a <= GameStats.gold (App.stats a) ->
      GameStats.gold (App.stats (handleUpgrade a))
      = GameStats.gold (App.stats a) - upgradeCost a
      /\ towers (App.sceneRef (handleUpgrade a))
         = <[k := upgradedTower w]> (towers (App.sceneRef a))
      /\ (ti_level <$> App.selectedTowerInstance (handleUpgrade a)
          = Some (Tower.level w + 1)%Z)
      /\ stats (App.sceneRef (handleUpgrade a)) = stats (App.sceneRef a)
      /\ (waveInProgress (App.sceneRef a) = false ->
          App.stats (startNextWave (handleUpgrade a))
          = set_waveActive true (stats (App.sceneRef a)))).
Proof.
  intros Hsel Hf. unfold handleUpgrade. rewrite Hsel. split.
  - intros Hlt.
    assert (E : (GameStats.gold (App.stats a) <? upgradeCost a) = true).
    { apply Qc_ltb_lt. exact Hlt. }
    now rewrite E.
  - intros Hle.
    assert (E : (GameStats.gold (App.stats a) <? upgradeCost a) = false).
    { apply Qc_ltb_ge. exact Hle. }
    rewrite E. cbv zeta.
    destruct (upgradeTower_report _ _ _ _ Hf) as (Hst & Hw & Hem).
    set (a1 := set_app_stats _ a).
    assert (Hs1 : App.sceneRef a1 = App.sceneRef a) by reflexivity.
    rewrite (callScene_one (upgradeTower (ti_id inst)) a1 _
               ltac:(rewrite Hs1; exact Hem)).
    rewrite Hs1. cbn.
    split; [reflexivity|]. split; [exact (upgradeTower_towers _ _ _ _ Hf)|].
    split; [reflexivity|]. split; [exact Hst|].
    intros Hwave. unfold startNextWave.
    match goal with |- App.stats (callScene _ ?b) = _ => set (a2 := b) end.
    assert (Hs2 : App.sceneRef a2 = upgradeTower (ti_id inst) (App.sceneRef a))
      by reflexivity.
    assert (Hw2 : waveInProgress (App.sceneRef a2) = false)
      by (rewrite Hs2, Hw; exact Hwave).
    destruct (startWave_report _ Hw2) as (_ & Hem2).
    rewrite (callScene_one startWave a2 _ Hem2).
    cbn. rewrite Hst. reflexivity.
Qed.

Lemma handleUpgrade_charges_the_copy_only_witness :
  GameStats.gold (App.stats appTower) = num 400
  /\ upgradeCost appTower = num 80
  /\ GameStats.gold (App.stats (handleUpgrade appTower)) = num 400 - num 80
  /\ GameStats.gold (App.stats (startNextWave (handleUpgrade appTower)))
     = num 400.
Proof.
  assert (Hsel : App.selectedTowerInstance appTower
                 = Some (mkTowerInstance "tower-1700000000000" (num 400)
                           (num 100) 3 FIRST 1)) by reflexivity.
  assert (Hf : findTower "tower-1700000000000" (App.sceneRef appTower)
               = Some (0%nat, Tower.mk "tower-1700000000000" (num 400)
                                 (num 100) 1 3 FIRST 0)) by reflexivity.
  assert (Hg : GameStats.gold (App.stats appTower) = num 400)
    by (apply Qc_is_canon; vm_compute; reflexivity).
  assert (Hc : upgradeCost appTower = num 80)
    by (apply Qc_is_canon; vm_compute; reflexivity).
  assert (Hle : upgradeCost appTower <= GameStats.gold (App.stats appTower))
    by (rewrite Hg, Hc; vm_compute; discriminate).
  destruct (proj2 (handleUpgrade_charges_the_copy_only appTower _ _ _ Hsel Hf)
              Hle) as (H1 & _ & _ & _ & H5).
  split; [exact Hg|]. split; [exact Hc|].
  split; [rewrite H1, Hg, Hc; reflexivity|].
  rewrite (H5 eq_refl). apply Qc_is_canon. vm_compute. reflexivity.
Defined.

Ltac in_list :=
  unfold SPEED_LEVELS;
  repeat first [ apply list_elem_of_here | apply list_elem_of_further ].

Lemma num_inj (x y : Q) : num x = num y -> Qred x = Qred y.
Proof. intros E. exact (f_equal Qcanon.this E). Qed.

Lemma nextSpeed_listed (x : Qc) :
  (x = num 1 -> nextSpeed x = Some (num 2))
  /\ (x = num 2 -> nextSpeed x = Some (num 4))
  /\ (x = num 4 -> nextSpeed x = Some (num 8))
  /\ (x = num 8 -> nextSpeed x = Some (num 16))
  /\ (x = num 16 -> nextSpeed x = Some (num 1))
  /\ (x ∉ SPEED_LEVELS -> nextSpeed x = Some (num 1)).
Proof.
  unfold nextSpeed, indexOf, SPEED_LEVELS, indexOf_from.
  repeat split; intros Hx;
    repeat
      match goal with
      | |- context [decide (?y = x)] =>
          let E := fresh "E" in
          destruct (decide (y = x)) as [E|E];
          [ first [ reflexivity
                  | exfalso; rewrite Hx in E; apply num_inj in E;
                    vm_compute in E; discriminate
                  | exfalso; apply Hx; rewrite <- E; in_list ]
          | first [ exfalso; apply E; symmetry; exact Hx | idtac ] ]
      end; reflexivity.
Qed.

Lemma cycleGameSpeed_speed (a : App.t) (v : Qc) :
  nextSpeed (GameStats.gameSpeed (App.stats a)) = Some v ->
  GameStats.gameSpeed (App.stats (cycleGameSpeed a)) = v
  /\ timeScale (App.sceneRef (cycleGameSpeed a)) = v
  /\ GameStats.gameSpeed (stats (App.sceneRef (cycleGameSpeed a))) = v
  /\ set_gameSpeed v (App.stats (cycleGameSpeed a))
     = set_gameSpeed v (App.stats a)
  /\ emitted (App.sceneRef (cycleGameSpeed a)) = emitted (App.sceneRef a).
Proof.
  intros Hn. unfold cycleGameSpeed. rewrite Hn. cbv zeta.
  rewrite (callScene_silent (setGameSpeed v) a eq_refl).
  repeat split; reflexivity.
Qed.

Lemma nextSpeed_some (x : Qc) :
  exists v, nextSpeed x = Some v /\ v ∈ SPEED_LEVELS
            /\ (x ∉ SPEED_LEVELS -> v = num 1).
Proof.
  destruct (nextSpeed_listed x) as (H1 & H2 & H4 & H8 & H16 & Hno).
  destruct (decide (x ∈ SPEED_LEVELS)) as [Hin|Hout].
  - unfold SPEED_LEVELS in Hin.
    repeat (apply elem_of_cons in Hin as [Hin|Hin]);
      [ exists (num 2); rewrite (H1 Hin)
      | exists (num 4); rewrite (H2 Hin)
      | exists (num 8); rewrite (H4 Hin)
      | exists (num 16); rewrite (H8 Hin)
      | exists (num 1); rewrite (H16 Hin)
      | now apply elem_of_nil in Hin ];
      (split; [reflexivity|]; split; [in_list|]);
      intros Hout; exfalso; apply Hout; rewrite Hin;
      in_list.
  - exists (num 1). rewrite (Hno Hout).
    split; [reflexivity|]. split; [in_list|].
    reflexivity.
Qed.

(** X25.  The speed button always lands on one of the five speeds, and
    the scene's time scale, the scene's statistics and the component's
    statistics then agree on it; no other statistic of the component
    changes and the scene reports nothing.  From a speed of the list the
    presses run 1, 2, 4, 8, 16 and back to 1, so five presses return to
    the speed they started from; from any other speed the next is 1. *)
Theorem cycleGameSpeed_cycles (a : App.t) :
  GameStats.gameSpeed (App.stats (cycleGameSpeed a)) ∈ SPEED_LEVELS
  /\ timeScale (App.sceneRef (cycleGameSpeed a))
     = GameStats.gameSpeed (App.stats (cycleGameSpeed a))
  /\ GameStats.gameSpeed (stats (App.sceneRef (cycleGameSpeed a)))
     = GameStats.gameSpeed (App.stats (cycleGameSpeed a))
  /\ (forall v, set_gameSpeed v (App.stats (cycleGameSpeed a))
                = set_gameSpeed v (App.stats a))
  /\ emitted (App.sceneRef (cycleGameSpeed a)) = emitted (App.sceneRef a)
  /\ (GameStats.gameSpeed (App.stats a) ∉ SPEED_LEVELS ->
      GameStats.gameSpeed (App.stats (cycleGameSpeed a)) = num 1)
  /\ (GameStats.gameSpeed (App.stats a) ∈ SPEED_LEVELS ->
      GameStats.gameSpeed (App.stats (Nat.iter 5 cycleGameSpeed a))
      = GameStats.gameSpeed (App.stats a)
      /\ forall n, (0 < n < 5)%nat ->
         GameStats.gameSpeed (App.stats (Nat.iter n cycleGameSpeed a))
         <> GameStats.gameSpeed (App.stats a)).
Proof.
  destruct (nextSpeed_some (GameStats.gameSpeed (App.stats a)))
    as (v & Hv & Hin & Hout).
  destruct (cycleGameSpeed_speed a v Hv) as (E1 & E2 & E3 & E4 & E5).
  split; [rewrite E1; exact Hin|].
  split; [rewrite E1; exact E2|].
  split; [rewrite E1; exact E3|].
  split.
  { intros v'.
    apply (f_equal (set_gameSpeed v')) in E4. exact E4. }
  split; [exact E5|].
  split; [intros Hno; rewrite E1; exact (Hout Hno)|].
  intros Hlisted.
  assert (Hstep : forall b x y,
            GameStats.gameSpeed (App.stats b) = x ->
            nextSpeed x = Some y ->
            GameStats.gameSpeed (App.stats (cycleGameSpeed b)) = y).
  { intros b x y Hb Hn. rewrite <- Hb in Hn.
    exact (proj1 (cycleGameSpeed_speed b y Hn)). }
  assert (Hne : forall x y : Q, Qred x <> Qred y -> num x <> num y).
  { intros x y Hxy E. apply Hxy. exact (num_inj x y E). }
  pose proof (fun x => proj1 (nextSpeed_listed x)) as N1.
  pose proof (fun x => proj1 (proj2 (nextSpeed_listed x))) as N2.
  pose proof (fun x => proj1 (proj2 (proj2 (nextSpeed_listed x)))) as N4.
  pose proof (fun x => proj1 (proj2 (proj2 (proj2 (nextSpeed_listed x)))))
    as N8.
  pose proof
    (fun x => proj1 (proj2 (proj2 (proj2 (proj2 (nextSpeed_listed x))))))
    as N16.
  unfold SPEED_LEVELS in Hlisted.
  repeat (apply elem_of_cons in Hlisted as [Hx|Hlisted]);
    [ | | | | | now apply elem_of_nil in Hlisted ].
  all: match type of Hx with
       | _ = ?c =>
           pose proof (Hstep a _ _ Hx
                         ltac:(first [ exact (N1 c eq_refl)
                                     | exact (N2 c eq_refl)
                                     | exact (N4 c eq_refl)
                                     | exact (N8 c eq_refl)
                                     | exact (N16 c eq_refl) ])) as S1
       end.
  all: repeat
         match goal with
         | S : GameStats.gameSpeed (App.stats ?b) = ?c |- _ =>
             lazymatch goal with
             | _ : GameStats.gameSpeed (App.stats (cycleGameSpeed b)) = _
               |- _ => fail
             | _ =>
                 lazymatch b with
                 | cycleGameSpeed (cycleGameSpeed (cycleGameSpeed
                     (cycleGameSpeed (cycleGameSpeed _)))) => fail
                 | _ =>
                     pose proof
                       (Hstep b _ _ S
                          ltac:(first [ exact (N1 c eq_refl)
                                      | exact (N2 c eq_refl)
                                      | exact (N4 c eq_refl)
                                      | exact (N8 c eq_refl)
                                      | exact (N16 c eq_refl) ]))
                 end
             end
         end.
  all: split;
    [ cbn [Nat.iter nat_rect]; rewrite Hx; assumption
    | intros n Hn;
      assert (Hcases : n = 1%nat \/ n = 2%nat \/ n = 3%nat \/ n = 4%nat)
        by lia;
      destruct Hcases as [E | [E | [E | E]]]; subst n;
      cbn [Nat.iter nat_rect]; rewrite Hx;
      match goal with
      | S : ?l = ?c |- ?l <> _ =>
          rewrite S; apply Hne; vm_compute; discriminate
      end ].
Qed.

Lemma update_spawn_accounting_witness :
  enemiesRemaining (startWave scene0) = 28%Z
  /\ enemiesRemaining (@update demoHost tick16 (startWave scene0)) = 27%Z
  /\ (0 <= enemiesRemaining (@update demoHost tick16 (startWave scene0)))%Z
  /\ length (enemyObjs (@update demoHost tick16 scene0))
     = length (enemyObjs scene0).
Proof.
  pose proof (@update_spawn_accounting demoHost tick16 (startWave scene0))
    as (H1 & H2 & _).
  pose proof (@update_spawn_accounting demoHost tick16 scene0)
    as (_ & _ & _ & H4 & _).
  split; [vm_compute; reflexivity|]. split; [exact H1|].
  split; [apply H2; vm_compute; discriminate|].
  apply H4. vm_compute. reflexivity.
Defined.

Lemma cycleGameSpeed_cycles_witness :
  GameStats.gameSpeed (App.stats appTower) = num 1
  /\ GameStats.gameSpeed (App.stats (Nat.iter 5 cycleGameSpeed appTower))
     = GameStats.gameSpeed (App.stats appTower)
  /\ GameStats.gameSpeed (App.stats (Nat.iter 1 cycleGameSpeed appTower))
     <> GameStats.gameSpeed (App.stats appTower).
Proof.
  assert (E : GameStats.gameSpeed (App.stats appTower) = num 1)
    by (apply Qc_is_canon; vm_compute; reflexivity).
  assert (Hin : GameStats.gameSpeed (App.stats appTower) ∈ SPEED_LEVELS)
    by (rewrite E; apply list_elem_of_here).
  destruct (cycleGameSpeed_cycles appTower)
    as (_ & _ & _ & _ & _ & _ & H).
  destruct (H Hin) as (H5 & Hn).
  split; [exact E|]. split; [exact H5|].
  exact (Hn 1%nat ltac:(lia)).
Defined.
